(** * contribution.go: exposure by sector and demographic group

    A shallow embedding of [contribution.go] (package [main] of the InMAP
    sandbox) and the properties of the functions of its pipeline:

    - [getConsumptionBySCC]      industry consumption collapsed to SCCs
    - [getEmissionsBySCC]        emissions matrix collapsed to SCCs
    - [demAndEmissions]          the demographic-by-sector matrix
    - [populationAdjust]         rescaling of that matrix, in place
    - [getExposureByPopulation]  concentration weighted by population
    - [emissionsAndDemTesting]   the run of the stages, one after the other

    Go's [float64] is the class [Float64]; its instance [binary64] is IEEE
    754 double precision (the kernel's primitive floats), its instance
    [exactZ] is exact integer arithmetic.  The functions are written once,
    over the class, so that what is proved for every instance holds for
    [binary64] in particular. *)

From Stdlib Require Import ZArith Lia Floats Uint63 Permutation.
From stdpp Require Import base option list gmap strings.

Open Scope Z_scope.

(** ** Numbers *)

(** The operations the source applies to [float64] values. *)
Class Float64 (F : Type) := {
  f0 : F;                       (* the literal 0 *)
  fadd : F -> F -> F;           (* +, += *)
  fmul : F -> F -> F;           (* * *)
  fdiv : F -> F -> F;           (* / *)
  fofInt : Z -> F               (* float64(n), n an int *)
}.

(** Go's 64-bit [int]: addition wraps around. *)
Definition wrap64 (z : Z) : Z := (z + 2 ^ 63) mod 2 ^ 64 - 2 ^ 63.

Definition intAdd (a b : Z) : Z := wrap64 (a + b).

(** IEEE 754 binary64.  [float64(n)] rounds to nearest, ties to even; the
    primitive conversion takes a 63-bit natural, so the sign and the one
    value of magnitude [2^63] are handled apart. *)
Definition float64_of_int (z : Z) : float :=
  if z =? - 2 ^ 63 then (-9223372036854775808)%float
  else if z <? 0 then PrimFloat.opp (PrimFloat.of_uint63 (Uint63.of_Z (- z)))
  else PrimFloat.of_uint63 (Uint63.of_Z z).

#[export] Instance binary64 : Float64 float := {|
  f0 := 0%float;
  fadd := PrimFloat.add;
  fmul := PrimFloat.mul;
  fdiv := PrimFloat.div;
  fofInt := float64_of_int
|}.

(** Exact integer arithmetic: no rounding, quotients truncated. *)
Definition exactZ : Float64 Z := {|
  f0 := 0;
  fadd := Z.add;
  fmul := Z.mul;
  fdiv := Z.quot;
  fofInt := fun z => z
|}.

(** Laws of exact arithmetic.  [binary64] is commutative, but its sums
    and products are rounded: it is not associative and multiplication
    does not distribute over addition. *)
Record AddLaws {F : Type} {arith : Float64 F} : Prop := {
  fadd_assoc : forall x y z : F, fadd x (fadd y z) = fadd (fadd x y) z;
  fadd_comm : forall x y : F, fadd x y = fadd y x;
  fadd_0_l : forall x : F, fadd f0 x = x
}.

Record MulLaws {F : Type} {arith : Float64 F} : Prop := {
  fmul_assoc : forall x y z : F, fmul x (fmul y z) = fmul (fmul x y) z;
  fmul_comm : forall x y : F, fmul x y = fmul y x;
  fmul_add_distr : forall k x y : F, fmul k (fadd x y) = fadd (fmul k x) (fmul k y);
  fmul_0_r : forall k : F, fmul k f0 = f0
}.

Arguments AddLaws F {arith}.
Arguments MulLaws F {arith}.

(** ** Errors and panics *)

(** An [error] value: one returned by a collaborator, one wrapped with
    [errors.Wrap], or one built by [fmt.Errorf] (format and the integers
    formatted into it). *)
Inductive error : Type :=
| ProviderError (msg : string)
| Wrap (cause : error) (msg : string)
| Errorf (format : string) (args : list Z).

(** Run-time panics of Go and of gonum's [mat]. *)
Inductive panic : Type :=
| IndexOutOfRange
| NilDereference
| ErrZeroLength
| ErrShape
| ErrRowAccess
| ErrColAccess.

(** What a call comes to: a value, a returned [error], or a panic. *)
Inductive outcome (A : Type) : Type :=
| Ok (a : A)
| Err (e : error)
| Panicked (p : panic).

Arguments Ok {A} a.
Arguments Err {A} e.
Arguments Panicked {A} p.

#[export] Instance outcome_ret : MRet outcome := fun A a => Ok a.

#[export] Instance outcome_bind : MBind outcome := fun A B f m =>
  match m with
  | Ok a => f a
  | Err e => Err e
  | Panicked p => Panicked p
  end.

(** [if err != nil { return errors.Wrap(err, msg) }] *)
Definition wrapErr {A} (m : outcome A) (msg : string) : outcome A :=
  match m with
  | Err e => Err (Wrap e msg)
  | other => other
  end.

(** The error kinds of the specification, as far as the source has them:
    every length disagreement it reports is a [fmt.Errorf] value. *)
Definition emissionsColsFormat : string :=
  "expected emissions to have #SCC %d columns, got %d".
Definition rowsVsDemsFormat : string :=
  "Expected emissions to have length of dem, %d != %d".
Definition popLenFormat : string :=
  "expected len(population)=len(concentrations); got %d != %d".

Fixpoint isDimensionMismatch (e : error) : bool :=
  match e with
  | Errorf _ _ => true
  | Wrap cause _ => isDimensionMismatch cause
  | ProviderError _ => false
  end.

(** ** gonum's [mat]: the part the source uses *)

Module mat.
(** [*mat.VecDense]: its backing data. *)
Abbreviation VecDense F := (list F) (only parsing).

Section Mat.
Context {F : Type} {arith : Float64 F}.

(** [*mat.Dense]: row-major backing data. *)
Record Dense : Type := mkDense { rows : nat; cols : nat; data : list F }.

(** [mat.NewVecDense(n, data)] panics if [n] is zero or is not the
    length of [data]. *)
Definition NewVecDense (n : nat) (d : list F) : outcome (VecDense F) :=
  if (n =? 0)%nat then Panicked ErrZeroLength
  else if (n =? length d)%nat then Ok d
  else Panicked ErrShape.

(** [mat.NewDense(r, c, nil)] panics if a dimension is zero; the data
    is allocated zeroed. *)
Definition NewDense (r c : nat) : outcome Dense :=
  if ((r =? 0) || (c =? 0))%nat then Panicked ErrZeroLength
  else Ok (mkDense r c (replicate (r * c) f0)).

Definition Len (v : VecDense F) : nat := length v.

(** [v.AtVec(i)], [v.At(i, 0)] *)
Definition AtVec (v : VecDense F) (i : nat) : outcome F :=
  match v !! i with
  | Some x => Ok x
  | None => Panicked ErrRowAccess
  end.

Definition Dims (m : Dense) : nat * nat := (rows m, cols m).

(** [m.At(i, j)] *)
Definition At (m : Dense) (i j : nat) : outcome F :=
  if negb (i <? rows m)%nat then Panicked ErrRowAccess
  else if negb (j <? cols m)%nat then Panicked ErrColAccess
  else match data m !! (i * cols m + j)%nat with
       | Some x => Ok x
       | None => Panicked IndexOutOfRange
       end.

(** [m.Set(i, j, v)]: the matrix after the assignment. *)
Definition Set_ (m : Dense) (i j : nat) (v : F) : outcome Dense :=
  if negb (i <? rows m)%nat then Panicked ErrRowAccess
  else if negb (j <? cols m)%nat then Panicked ErrColAccess
  else if negb (i * cols m + j <? length (data m))%nat then Panicked IndexOutOfRange
  else Ok (mkDense (rows m) (cols m) (<[(i * cols m + j)%nat := v]> (data m))).

(** [m.ColView(j)]: column [j], top to bottom. *)
Definition ColView (m : Dense) (j : nat) : outcome (VecDense F) :=
  if negb (j <? cols m)%nat then Panicked ErrColAccess
  else mapM (fun i => At m i j) (seq 0 (rows m)).

(** [m.RawRowView(i)]: row [i], the slice [data[i*cols : i*cols+cols]]
    of the backing data. *)
Definition RawRowView (m : Dense) (i : nat) : outcome (list F) :=
  if negb (i <? rows m)%nat then Panicked ErrRowAccess
  else if negb (i * cols m + cols m <=? length (data m))%nat then Panicked IndexOutOfRange
  else Ok (take (cols m) (drop (i * cols m) (data m))).

(** A matrix whose backing data has the size its dimensions say. *)
Definition wf (m : Dense) : Prop := length (data m) = (rows m * cols m)%nat.
End Mat.
Arguments Dense F : clear implicits.
End mat.

(** ** The EIO server and its collaborators *)

Section Pipeline.
Context {F : Type} {arith : Float64 F}.

(** Types of [eieiorpc] and [slca] that the source passes through
    without looking inside. *)
Context {Demograph Location Pollutant Matrix SCC : Type}.

(** [eieiorpc.Pollutant_TotalPM25] *)
Variable Pollutant_TotalPM25 : Pollutant.

(** [rpc2mat], a helper of package [main] defined outside
    [contribution.go]: the [*mat.Dense] of an [*eieiorpc.Matrix]. *)
Variable rpc2mat : Matrix -> mat.Dense F.

(** [*eieiorpc.Vector] *)
Record Vector : Type := mkVector { Data : list F }.

(** Modelled from the spec: [*eieio.Server], whose declaration is not in
    [contribution.go].  Its reference data are the ordered list of SCCs
    and the industry-to-SCC map, a slice that holds for each industry
    index the sector indices the industry contributes to (Go [int]s); its
    queries are the collaborators of the specification, with the
    arguments the source passes.  A query returns a value or an [error];
    the concentration query returns Go's pair of a pointer, possibly
    [nil], and an [error], possibly [nil], because the source reads the
    pointer before it looks at the error.  Years are [int32], counts are
    [int]. *)
Record Server : Type := mkServer {
  SCCs : list SCC;
  IndustryToSCCMap : list (list Z);
  DemographicConsumption : Demograph -> Z -> outcome Vector;
  EmissionsMatrix : Vector -> Z -> Location -> string -> outcome Matrix;
  Concentrations :
    Vector -> Pollutant -> Z -> Location -> string -> option Vector * option error;
  Populations : outcome (list string);
  PopulationIncidence : Z -> string -> string -> string -> outcome (list F);
  TotalPopulationCount : Demograph -> Z -> outcome Z
}.

(** ** [getConsumptionBySCC] *)

(** [consumptionBySCC[sccIdx] += consumption] *)
Definition addAt (acc : list F) (sccIdx : Z) (consumption : F) : outcome (list F) :=
  if sccIdx <? 0 then Panicked IndexOutOfRange
  else match acc !! Z.to_nat sccIdx with
       | Some x => Ok (<[Z.to_nat sccIdx := fadd x consumption]> acc)
       | None => Panicked IndexOutOfRange
       end.

(** [for _, sccIdx := range SCCs { ... }] *)
Fixpoint sccLoop (consumption : F) (sccs : list Z) (acc : list F) : outcome (list F) :=
  match sccs with
  | [] => Ok acc
  | sccIdx :: rest => acc' ← addAt acc sccIdx consumption; sccLoop consumption rest acc'
  end.

(** [for industryIdx, consumption := range totalConsRPC.Data { ... }],
    from index [industryIdx] on. *)
Fixpoint industryLoop (industryToSCC : list (list Z)) (industryIdx : nat)
    (values : list F) (acc : list F) : outcome (list F) :=
  match values with
  | [] => Ok acc
  | consumption :: rest =>
      match industryToSCC !! industryIdx with
      | None => Panicked IndexOutOfRange
      | Some sccs =>
          acc' ← sccLoop consumption sccs acc;
          industryLoop industryToSCC (S industryIdx) rest acc'
      end
  end.

(** Lines 48 to 56: the aggregation of an industry-indexed vector into
    [numSectors] sector totals (the specification's SectorAggregator). *)
Definition aggregate (values : list F) (industryToSCC : list (list Z))
    (numSectors : nat) : outcome (mat.VecDense F) :=
  consumptionBySCC ← industryLoop industryToSCC 0 values (replicate numSectors f0);
  mat.NewVecDense (length consumptionBySCC) consumptionBySCC.

Definition getConsumptionBySCC (s : Server) (dem : Demograph) (year : Z)
    : outcome (mat.VecDense F) :=
  totalConsRPC ← wrapErr (DemographicConsumption s dem year)
                         "error calculating demographic consumption";
  aggregate (Data totalConsRPC) (IndustryToSCCMap s) (length (SCCs s)).

(** ** [getEmissionsBySCC] *)

(** [for i := 0; i < emissionsForSector.Len(); i++ { totalEmissions += ... }] *)
Fixpoint sumVec (v : mat.VecDense F) (i : nat) (n : nat) (totalEmissions : F)
    : outcome F :=
  match n with
  | O => Ok totalEmissions
  | S n' => x ← mat.AtVec v i; sumVec v (S i) n' (fadd totalEmissions x)
  end.

(** [for sectorIdx := range s.SCCs { ... }], from [sectorIdx] on, over
    the [n] sectors left; [emisSCC] is the slice filled so far. *)
Fixpoint sectorLoop (emis : mat.Dense F) (sectorIdx : nat) (n : nat)
    (emisSCC : list F) : outcome (list F) :=
  match n with
  | O => Ok emisSCC
  | S n' =>
      emissionsForSector ← mat.ColView emis sectorIdx;
      totalEmissions ← sumVec emissionsForSector 0 (mat.Len emissionsForSector) f0;
      if negb (sectorIdx <? length emisSCC)%nat then Panicked IndexOutOfRange
      else sectorLoop emis (S sectorIdx) n' (<[sectorIdx := totalEmissions]> emisSCC)
  end.

Definition getEmissionsBySCC (demand : Vector) (s : Server) (year : Z) (loc : Location)
    : outcome (mat.VecDense F) :=
  emisRPC ← wrapErr (EmissionsMatrix s demand year loc "isrm")
                    "error getting emissions matrix";
  let emis := rpc2mat emisRPC in
  let '(_, c) := mat.Dims emis in
  if negb (c =? length (SCCs s))%nat
  then Err (Errorf emissionsColsFormat [Z.of_nat (length (SCCs s)); Z.of_nat c])
  else
    emisSCC ← sectorLoop emis 0 (length (SCCs s)) (replicate (length (SCCs s)) f0);
    mat.NewVecDense (length emisSCC) emisSCC.

(** ** [demAndEmissions] *)

(** [for sectorIdx := 0; sectorIdx < consumption.Len(); sectorIdx++ { ... }] *)
Fixpoint cellLoop (consumption emis : mat.VecDense F) (demIdx sectorIdx n : nat)
    (manualDot : F) (demAndSec : mat.Dense F) : outcome (mat.Dense F) :=
  match n with
  | O => Ok demAndSec
  | S n' =>
      c ← mat.AtVec consumption sectorIdx;
      e ← mat.AtVec emis sectorIdx;
      let emisForDemAndSCC := fmul c e in
      demAndSec' ← mat.Set_ demAndSec demIdx sectorIdx emisForDemAndSCC;
      cellLoop consumption emis demIdx (S sectorIdx) n'
               (fadd manualDot emisForDemAndSCC) demAndSec'
  end.

(** [for demIdx := range dems { ... }], from [demIdx] on. *)
Fixpoint demLoop (s : Server) (year : Z) (emis : mat.VecDense F) (demIdx : nat)
    (dems : list Demograph) (demAndSec : mat.Dense F) : outcome (mat.Dense F) :=
  match dems with
  | [] => Ok demAndSec
  | dem :: rest =>
      consumption ← wrapErr (getConsumptionBySCC s dem year) "error getting consumption";
      demAndSec' ← cellLoop consumption emis demIdx 0 (mat.Len consumption) f0 demAndSec;
      demLoop s year emis (S demIdx) rest demAndSec'
  end.

Definition demAndEmissions (s : Server) (demand : Vector) (dems : list Demograph)
    (year : Z) (loc : Location) : outcome (mat.Dense F * list SCC) :=
  emis ← wrapErr (getEmissionsBySCC demand s year loc) "error getting emissions by SCC";
  demAndSec ← mat.NewDense (length dems) (length (SCCs s));
  demAndSec' ← demLoop s year emis 0 dems demAndSec;
  Ok (demAndSec', SCCs s).

(** ** [getExposureByPopulation] *)

(** The loop that fetches one population grid per name
    ([populationGridsByPopName]). *)
Fixpoint gridsLoop (s : Server) (year : Z) (conc : list F) (popNames : list string)
    (populationGridsByPopName : gmap string (list F)) : outcome (gmap string (list F)) :=
  match popNames with
  | [] => Ok populationGridsByPopName
  | popName :: rest =>
      pop ← PopulationIncidence s year popName "NasariACS" "isrm";
      if negb (length pop =? length conc)%nat
      then Err (Errorf popLenFormat [Z.of_nat (length pop); Z.of_nat (length conc)])
      else gridsLoop s year conc rest (<[popName := pop]> populationGridsByPopName)
  end.

(** [for _, pop := range popNames { popTotals[pop] = 0 }] *)
Definition zeroTotals (popNames : list string) : gmap string F :=
  foldl (fun popTotals pop => <[pop := f0]> popTotals) ∅ popNames.

(** [m[k] += v] on a Go map: a missing key reads as zero. *)
Definition addTo (m : gmap string F) (k : string) (v : F) : gmap string F :=
  <[k := fadd (default f0 (m !! k)) v]> m.

(** [for _, popName := range popNames { ... }] inside one grid cell; the
    state is the pair ([popTotals], [exposureByPop]). *)
Fixpoint popLoop (grids : gmap string (list F)) (gridIdx : nat) (concentrationAmt : F)
    (popNames : list string) (st : gmap string F * gmap string F)
    : outcome (gmap string F * gmap string F) :=
  match popNames with
  | [] => Ok st
  | popName :: rest =>
      match grids !! popName ≫= (fun grid => grid !! gridIdx) with
      | None => Panicked IndexOutOfRange
      | Some numIndividuals =>
          popLoop grids gridIdx concentrationAmt rest
            (addTo st.1 popName numIndividuals,
             addTo st.2 popName (fmul numIndividuals concentrationAmt))
      end
  end.

(** [for gridIdx, concentrationAmt := range conc { ... }], from
    [gridIdx] on. *)
Fixpoint gridLoop (grids : gmap string (list F)) (popNames : list string)
    (gridIdx : nat) (conc : list F) (st : gmap string F * gmap string F)
    : outcome (gmap string F * gmap string F) :=
  match conc with
  | [] => Ok st
  | concentrationAmt :: rest =>
      st' ← popLoop grids gridIdx concentrationAmt popNames st;
      gridLoop grids popNames (S gridIdx) rest st'
  end.

(** The body of [getExposureByPopulation] down to line 170: the values
    of [popTotals] and [exposureByPop] when the loops are done.  The
    [log.Printf] calls, which only print them, are left out. *)
Definition exposureLocals (s : Server) (year : Z) (loc : Location) (demand : Vector)
    : outcome (gmap string F * gmap string F) :=
  let '(vec, err) := Concentrations s demand Pollutant_TotalPM25 year loc "isrm" in
  match vec with
  | None => Panicked NilDereference                 (* conc := vec.Data *)
  | Some v =>
      let conc := Data v in
      match err with
      | Some e => Err e
      | None =>
          popNames ← Populations s;
          populationGridsByPopName ← gridsLoop s year conc popNames ∅;
          gridLoop populationGridsByPopName popNames 0 conc (zeroTotals popNames, ∅)
      end
  end.

(** The function itself: after the loops it returns [nil, nil]. *)
Definition getExposureByPopulation (s : Server) (year : Z) (loc : Location)
    (demand : Vector) : outcome (option (gmap string F)) :=
  _ ← exposureLocals s year loc demand;
  Ok None.

(** ** [populationAdjust] *)

(** The first loop: one population query per group, for the year 2015
    that the source writes into the call. *)
Fixpoint popCountLoop (s : Server) (demIdx : nat) (dems : list Demograph)
    (totalPop : Z) (popCounts : list Z) : outcome (Z * list Z) :=
  match dems with
  | [] => Ok (totalPop, popCounts)
  | dem :: rest =>
      demCount ← TotalPopulationCount s dem 2015;
      if negb (demIdx <? length popCounts)%nat then Panicked IndexOutOfRange
      else popCountLoop s (S demIdx) rest (intAdd totalPop demCount)
                        (<[demIdx := demCount]> popCounts)
  end.

(** [for j := 0; j < numCols; j++ { ... }]: the matrix is updated in
    place, so a panic leaves it as far as the loop got. *)
Fixpoint colLoop (demIdx j n : nat) (adjustRatio : F) (emisByDemAndSCC : mat.Dense F)
    : mat.Dense F * outcome unit :=
  match n with
  | O => (emisByDemAndSCC, Ok ())
  | S n' =>
      match x ← mat.At emisByDemAndSCC demIdx j;
            mat.Set_ emisByDemAndSCC demIdx j (fmul x adjustRatio) with
      | Ok m' => colLoop demIdx (S j) n' adjustRatio m'
      | Err e => (emisByDemAndSCC, Err e)
      | Panicked p => (emisByDemAndSCC, Panicked p)
      end
  end.

(** The second [for demIdx := range dems { ... }], from [demIdx] on,
    over the [n] groups left. *)
Fixpoint rowLoop (totalPop : Z) (popCounts : list Z) (numCols : nat) (demIdx n : nat)
    (emisByDemAndSCC : mat.Dense F) : mat.Dense F * outcome unit :=
  match n with
  | O => (emisByDemAndSCC, Ok ())
  | S n' =>
      match popCounts !! demIdx with
      | None => (emisByDemAndSCC, Panicked IndexOutOfRange)
      | Some popCount =>
          let adjustRatio := fdiv (fofInt totalPop) (fofInt popCount) in
          match colLoop demIdx 0 numCols adjustRatio emisByDemAndSCC with
          | (m', Ok _) => rowLoop totalPop popCounts numCols (S demIdx) n' m'
          | stopped => stopped
          end
      end
  end.

(** [populationAdjust]: the matrix it leaves behind and what it returns
    ([Ok ()] for a [nil] error). *)
Definition populationAdjust (s : Server) (emisByDemAndSCC : mat.Dense F)
    (dems : list Demograph) : mat.Dense F * outcome unit :=
  match popCountLoop s 0 dems 0 (replicate (length dems) 0) with
  | Err e => (emisByDemAndSCC, Err e)
  | Panicked p => (emisByDemAndSCC, Panicked p)
  | Ok (totalPop, popCounts) =>
      let '(numRows, numCols) := mat.Dims emisByDemAndSCC in
      if negb (numRows =? length dems)%nat
      then (emisByDemAndSCC,
            Err (Errorf rowsVsDemsFormat [Z.of_nat numRows; Z.of_nat (length dems)]))
      else rowLoop totalPop popCounts numCols 0 (length dems) emisByDemAndSCC
  end.

End Pipeline.

(** ** [emissionsAndDemTesting] *)

(** Go's [int32]: a conversion from [int] keeps the low 32 bits. *)
Definition wrap32 (z : Z) : Z := (z + 2 ^ 31) mod 2 ^ 32 - 2 ^ 31.

Section Driver.
Context {F : Type} {arith : Float64 F}.
Context {Demograph Location Pollutant Matrix SCC FinalDemandType : Type}.
Variable Pollutant_TotalPM25 : Pollutant.
Variable rpc2mat : Matrix -> mat.Dense F.

(** What [emissionsAndDemTesting] takes from the packages [eieiorpc],
    [ces] and [eieio], none of them in [contribution.go]: the number of
    entries of the map [eieiorpc.Decile_value]; the constant
    [eieiorpc.Decile_Decile_All] (a [Decile] is an [int32]); the
    conversion [ces.DecileToDemograph]; the constants
    [eieiorpc.Location_Domestic] and [eieiorpc.FinalDemandType_AllDemand];
    and [s.FinalDemand], a query of the server like those of [Server],
    with the arguments the source passes. *)
Record Externals : Type := mkExternals {
  Decile_value_len : nat;
  Decile_Decile_All : Z;
  DecileToDemograph : Z -> Demograph;
  Location_Domestic : Location;
  FinalDemandType_AllDemand : FinalDemandType;
  FinalDemand :
    @Server F Demograph Location Pollutant Matrix SCC ->
    FinalDemandType -> Z -> Location -> outcome (@Vector F)
}.

Variable ext : Externals.

(** [for val := 0; val < len(eieiorpc.Decile_value); val++ { ... }],
    from [val] on, over the [n] values left. *)
Fixpoint decileLoop (val : Z) (n : nat) (deciles : list Demograph) : list Demograph :=
  match n with
  | O => deciles
  | S n' =>
      let dec := wrap32 val in
      decileLoop (val + 1) n'
        (if dec =? Decile_Decile_All ext then deciles
         else deciles ++ [DecileToDemograph ext dec])
  end.

(** [deciles], the groups the pipeline runs with. *)
Definition deciles : list Demograph := decileLoop 0 (Decile_value_len ext) [].

(** [for demIdx := range dems { ... }] after the adjustment, from
    [demIdx] on, over the [n] groups left: the total of every row, in the
    order it is logged. *)
Fixpoint totalsLoop (emisByDemAndSCC : mat.Dense F) (demIdx n : nat) (logged : list F)
    : outcome (list F) :=
  match n with
  | O => Ok logged
  | S n' =>
      row ← mat.RawRowView emisByDemAndSCC demIdx;
      let demTotalEmissions := foldl fadd f0 row in
      totalsLoop emisByDemAndSCC (S demIdx) n' (logged ++ [demTotalEmissions])
  end.

(** The body of [emissionsAndDemTesting]: the adjusted matrix and the
    row totals it logs, when every stage has returned.  [getEIOServer]
    opens the file named by [CONFIG], has [toml] decode it and
    [eieio.NewServer] build the server; what it returns depends on the
    file system and is an argument here.  [populationAdjust] changes the
    matrix in place, so the totals are those of the adjusted matrix. *)
Definition emissionsAndDemTestingLocals
    (getEIOServer : outcome (@Server F Demograph Location Pollutant Matrix SCC))
    : outcome (mat.Dense F * list F) :=
  let dems := deciles in
  s ← wrapErr getEIOServer "error creating EIO server";
  let year := 2015 in
  let loc := Location_Domestic ext in
  demand ← wrapErr (FinalDemand ext s (FinalDemandType_AllDemand ext) year loc)
                   "error getting final demand";
  '(emisByDemAndSCC, _) ← demAndEmissions rpc2mat s demand dems year loc;
  match populationAdjust s emisByDemAndSCC dems with
  | (_, Err e) => Err e
  | (_, Panicked p) => Panicked p
  | (adjusted, Ok _) =>
      logged ← totalsLoop adjusted 0 (length dems) [];
      _ ← getExposureByPopulation Pollutant_TotalPM25 s year loc demand;
      Ok (adjusted, logged)
  end.

(** The function itself returns an [error] only. *)
Definition emissionsAndDemTesting
    (getEIOServer : outcome (@Server F Demograph Location Pollutant Matrix SCC))
    : outcome unit :=
  _ ← emissionsAndDemTestingLocals getEIOServer; Ok ().

End Driver.

(** ** Vocabulary of the properties *)

Section Vocabulary.
Context {F : Type} {arith : Float64 F}.
Context {Demograph Location Pollutant Matrix SCC : Type}.

(** [sum(v)]: the running total of a loop [total += x], from zero,
    left to right. *)
Definition vecSum (l : list F) : F := foldl fadd f0 l.

(** What one industry adds to sector [s]: its value, once for each time
    [s] stands in the industry's entry. *)
Definition hits (sccs : list Z) (s : nat) (v : F) : list F :=
  (fun _ => v) <$> filter (fun i => i = Z.of_nat s) sccs.

(** The addends of sector [s], in the order the loops meet them. *)
Definition contributions (values : list F) (industryToSCC : list (list Z)) (s : nat)
    : list F :=
  concat (zip_with (fun v sccs => hits sccs s v) values industryToSCC).

(** The values of the industries whose entry contains sector [s], in
    industry order. *)
Definition contributors (values : list F) (industryToSCC : list (list Z)) (s : nat)
    : list F :=
  (filter (fun p : F * list Z => Z.of_nat s ∈ p.2) (zip values industryToSCC)).*1.

(** Invariants of the industry-to-SCC map: every sector index lies in
    [0, n); every entry is a set; every entry has one element. *)
Definition inRange (n : nat) (industryToSCC : list (list Z)) : Prop :=
  Forall (Forall (fun i => 0 <= i < Z.of_nat n)) industryToSCC.

Definition entriesAreSets (industryToSCC : list (list Z)) : Prop :=
  Forall NoDup industryToSCC.

Definition oneSectorEach (industryToSCC : list (list Z)) : Prop :=
  Forall (fun sccs : list Z => length sccs = 1%nat) industryToSCC.

(** Column [j] of a matrix, top to bottom. *)
Definition column (m : mat.Dense F) (j : nat) : list F :=
  (fun i => default f0 (mat.data m !! (i * mat.cols m + j)%nat)) <$> seq 0 (mat.rows m).

(** [float64(totalPop)/float64(popCount)] *)
Definition ratioOf (totalPop popCount : Z) : F := fdiv (fofInt totalPop) (fofInt popCount).

(** [m'] is [m] with every cell of row [i] multiplied by the ratio of
    the (wrapped) total of [counts] to the count of row [i]. *)
Definition rescaled (counts : list Z) (m m' : mat.Dense F) : Prop :=
  mat.wf m' /\ mat.rows m' = mat.rows m /\ mat.cols m' = mat.cols m /\
  forall i k, (i < mat.rows m)%nat -> (k < mat.cols m)%nat ->
    exists x c, mat.At m i k = Ok x /\ counts !! i = Some c /\
      mat.At m' i k = Ok (fmul x (ratioOf (foldl intAdd 0 counts) c)).

(** [out] holds the sum of every column of [m]. *)
Definition columnSums (m : mat.Dense F) (n : nat) (out : list F) : Prop :=
  length out = n /\
  forall j, (j < n)%nat -> out !! j = Some (vecSum (column m j)).

(** [m] has a row per group and a column per sector, and holds at
    (g, k) the product of the consumption of group [g] in sector [k] and
    the emissions of sector [k]. *)
Definition hadamard (s : @Server F Demograph Location Pollutant Matrix SCC) (year : Z)
    (dems : list Demograph) (emis : list F) (m : mat.Dense F) : Prop :=
  mat.wf m /\ mat.rows m = length dems /\ mat.cols m = length (SCCs s) /\
  forall g dem k, dems !! g = Some dem -> (k < length (SCCs s))%nat ->
    exists v c e, getConsumptionBySCC s dem year = Ok v /\
      v !! k = Some c /\ emis !! k = Some e /\ mat.At m g k = Ok (fmul c e).

(** [out] is made of left-to-right sums of groups of [values] which,
    put together, are [values] rearranged; its sum is the sum of
    [values] where addition is exact. *)
Definition rearranged (values : list F) (industryToSCC : list (list Z)) (n : nat)
    (out : list F) : Prop :=
  out = (fun s => vecSum (contributions values industryToSCC s)) <$> seq 0 n /\
  Permutation (concat (contributions values industryToSCC <$> seq 0 n)) values /\
  (AddLaws F -> vecSum out = vecSum values).

(** The population provider answers [counts] for the groups [dems] when
    asked about [year]. *)
Definition queriedCounts (s : @Server F Demograph Location Pollutant Matrix SCC)
    (year : Z) (dems : list Demograph) (counts : list Z) : Prop :=
  Forall2 (fun dem c => TotalPopulationCount s dem year = Ok c) dems counts.

(** A server whose concentrations are all multiplied by [k]; nothing else
    is changed. *)
Definition scaleVector (k : F) (v : Vector) : Vector := mkVector (fmul k <$> Data v).

Definition scaleConcentrations (k : F)
    (s : @Server F Demograph Location Pollutant Matrix SCC)
    : @Server F Demograph Location Pollutant Matrix SCC := {|
  SCCs := SCCs s;
  IndustryToSCCMap := IndustryToSCCMap s;
  DemographicConsumption := DemographicConsumption s;
  EmissionsMatrix := EmissionsMatrix s;
  Concentrations := fun demand pol year loc aqm =>
    let '(vec, err) := Concentrations s demand pol year loc aqm in
    (scaleVector k <$> vec, err);
  Populations := Populations s;
  PopulationIncidence := PopulationIncidence s;
  TotalPopulationCount := TotalPopulationCount s
|}.

(** Every exposure total multiplied by [k]; population totals, errors
    and panics as they are. *)
Definition scaleExposure (k : F) (r : outcome (gmap string F * gmap string F))
    : outcome (gmap string F * gmap string F) :=
  match r with
  | Ok (popTotals, exposureByPop) => Ok (popTotals, fmul k <$> exposureByPop)
  | other => other
  end.

(** Reading a Go map: a missing key is the zero value. *)
Definition readTotal (m : gmap string F) (k : string) : F := default f0 (m !! k).

(** The exposure total of group [k] when the loops are done. *)
Definition exposureTotal (r : outcome (gmap string F * gmap string F)) (k : string)
    : option F :=
  match r with
  | Ok (_, exposureByPop) => Some (readTotal exposureByPop k)
  | _ => None
  end.

(** The sum over grid cells of population times concentration. *)
Definition exposureOf (grid conc : list F) : F := vecSum (zip_with fmul grid conc).

(** The exposure totals of two runs, the second with every concentration
    multiplied by [k]: each is the sum over grid cells of population times
    concentration as that run has it, and the second is [k] times the
    first where multiplication is exact. *)
Definition scaledTotals (k : F) (s : @Server F Demograph Location Pollutant Matrix SCC)
    (year : Z) (conc : list F) (popNames : list string)
    (exposureByPop scaled : gmap string F) : Prop :=
  forall popName grid, popName ∈ popNames ->
    PopulationIncidence s year popName "NasariACS" "isrm" = Ok grid ->
    readTotal exposureByPop popName = exposureOf grid conc /\
    readTotal scaled popName = exposureOf grid (fmul k <$> conc) /\
    (MulLaws F -> readTotal scaled popName = fmul k (readTotal exposureByPop popName)).

End Vocabulary.

(** Over doubles: the rows of the groups whose count is zero, when the
    total is positive, are multiplied by positive infinity. *)
Definition emptyGroupRows (counts : list Z) (m m' : mat.Dense float) : Prop :=
  forall i k, counts !! i = Some 0 -> 0 < foldl intAdd 0 counts ->
    (k < mat.cols m)%nat ->
    exists x, mat.At m i k = Ok x /\ mat.At m' i k = Ok (x * infinity)%float.

(** Full-value fan-out, over doubles: the length of [out], each entry as
    the sum of the contributing industries, the bound from below for
    non-negative input, and zero for a sector no entry names. *)
Definition fanOut (values : list float) (industryToSCC : list (list Z)) (n : nat)
    (out : list float) : Prop :=
  length out = n /\
  (forall s, (s < n)%nat -> out !! s = Some (vecSum (contributors values industryToSCC s))) /\
  (Forall (fun v => PrimFloat.leb 0 v = true) values ->
   forall i v sccs a,
     values !! i = Some v -> industryToSCC !! i = Some sccs -> Z.of_nat a ∈ sccs ->
     exists o, out !! a = Some o /\ PrimFloat.leb v o = true) /\
  (forall s, (s < n)%nat ->
     (forall sccs, sccs ∈ industryToSCC -> Z.of_nat s ∉ sccs) -> out !! s = Some 0%float).

(** ** Vocabulary of the further properties *)

Section FurtherVocabulary.
Context {F : Type} {arith : Float64 F}.

(** How many times sector [s] stands in an industry's entry. *)
Definition timesNamed (sccs : list Z) (s : nat) : nat :=
  length (filter (fun i => i = Z.of_nat s) sccs).

(** The addends of sector [s]: every industry's value, as many times as
    its entry names [s], in industry order. *)
Definition addends (values : list F) (industryToSCC : list (list Z)) (s : nat) : list F :=
  concat (zip_with (fun v sccs => replicate (timesNamed sccs s) v) values industryToSCC).

(** How many times a name stands in the list of population names. *)
Definition timesListed (popName : string) (popNames : list string) : nat :=
  length (filter (fun p => p = popName) popNames).

(** The running total of a loop that adds every term [times] times in a
    row. *)
Definition repeatedSum (times : nat) (terms : list F) : F :=
  vecSum (concat ((fun x => replicate times x) <$> terms)).

(** The total of every row of [m], top to bottom. *)
Definition rowTotals (m : mat.Dense F) : list F :=
  (fun i => vecSum (take (mat.cols m) (drop (i * mat.cols m) (mat.data m))))
    <$> seq 0 (mat.rows m).

End FurtherVocabulary.

(** The sum of a list of counts, without wrap-around. *)
Definition sumCounts (counts : list Z) : Z := foldr Z.add 0 counts.

Section StageErrors.
Context {F : Type} {arith : Float64 F}.
Context {Demograph Location Pollutant Matrix SCC : Type}.
Variable Pollutant_TotalPM25 : Pollutant.
Variable rpc2mat : Matrix -> mat.Dense F.

(** The errors a run of the stages for the groups [dems] and the year
    [year] can end with, once the server and the final demand are at
    hand: what a query returned, wrapped as the stage wraps it, or one of
    the two length disagreements that can be met. *)
Inductive stageError (s : @Server F Demograph Location Pollutant Matrix SCC)
    (demand : Vector) (dems : list Demograph) (year : Z) (loc : Location)
    : error -> Prop :=
| NoEmissionsMatrix cause :
    EmissionsMatrix s demand year loc "isrm" = Err cause ->
    stageError s demand dems year loc
      (Wrap (Wrap cause "error getting emissions matrix") "error getting emissions by SCC")
| EmissionsColumns emisRPC :
    EmissionsMatrix s demand year loc "isrm" = Ok emisRPC ->
    mat.cols (rpc2mat emisRPC) <> length (SCCs s) ->
    stageError s demand dems year loc
      (Wrap (Errorf emissionsColsFormat
               [Z.of_nat (length (SCCs s)); Z.of_nat (mat.cols (rpc2mat emisRPC))])
            "error getting emissions by SCC")
| NoConsumption dem cause :
    dem ∈ dems -> DemographicConsumption s dem year = Err cause ->
    stageError s demand dems year loc
      (Wrap (Wrap cause "error calculating demographic consumption")
            "error getting consumption")
| NoPopulationCount dem cause :
    dem ∈ dems -> TotalPopulationCount s dem 2015 = Err cause ->
    stageError s demand dems year loc cause
| NoConcentrations vec cause :
    Concentrations s demand Pollutant_TotalPM25 year loc "isrm" = (Some vec, Some cause) ->
    stageError s demand dems year loc cause
| NoPopulations cause :
    Populations s = Err cause -> stageError s demand dems year loc cause
| NoPopulationGrid popName cause :
    PopulationIncidence s year popName "NasariACS" "isrm" = Err cause ->
    stageError s demand dems year loc cause
| GridLength popName grid vec :
    Concentrations s demand Pollutant_TotalPM25 year loc "isrm" = (Some vec, None) ->
    PopulationIncidence s year popName "NasariACS" "isrm" = Ok grid ->
    length grid <> length (Data vec) ->
    stageError s demand dems year loc
      (Errorf popLenFormat [Z.of_nat (length grid); Z.of_nat (length (Data vec))]).

End StageErrors.

(** ** Scenarios

    Concrete servers, over [binary64] unless said otherwise.  Groups are
    numbered, locations and pollutants have one value, an RPC matrix is
    the dense matrix itself. *)

Module Scenario.

Definition Srv : Type := @Server float nat unit unit (mat.Dense float) string.

Definition rpc2mat (m : mat.Dense float) : mat.Dense float := m.

Definition demand : Vector (F := float) := mkVector [].

(** The end-to-end scenario of the specification: two sectors, two
    groups with consumption [1,1] and [3,1] under the identity map,
    emissions summing to [10,20] by sector, populations 100 and 300; two
    grid cells with concentration [5,10], group A [100,200] and group B
    [50,50]. *)
Definition pipeline : Srv := {|
  SCCs := ["scc0"; "scc1"];
  IndustryToSCCMap := [[0]; [1]];
  DemographicConsumption := fun dem _ =>
    Ok (mkVector (if (dem =? 0)%nat then [1; 1] else [3; 1])%float);
  EmissionsMatrix := fun _ _ _ _ => Ok (mat.mkDense 2 2 [4; 15; 6; 5]%float);
  Concentrations := fun _ _ _ _ _ => (Some (mkVector [5; 10]%float), None);
  Populations := Ok ["A"; "B"];
  PopulationIncidence := fun _ popName _ _ =>
    Ok (if String.eqb popName "A" then [100; 200] else [50; 50])%float;
  TotalPopulationCount := fun dem _ => Ok (if (dem =? 0)%nat then 100 else 300)
|}.

(** The same, with an empty first group. *)
Definition zeroPopulation : Srv := {|
  SCCs := SCCs pipeline;
  IndustryToSCCMap := IndustryToSCCMap pipeline;
  DemographicConsumption := DemographicConsumption pipeline;
  EmissionsMatrix := EmissionsMatrix pipeline;
  Concentrations := Concentrations pipeline;
  Populations := Populations pipeline;
  PopulationIncidence := PopulationIncidence pipeline;
  TotalPopulationCount := fun dem _ => Ok (if (dem =? 0)%nat then 0 else 5)
|}.

(** The same, with a first group that grows by one a year. *)
Definition growing : Srv := {|
  SCCs := SCCs pipeline;
  IndustryToSCCMap := IndustryToSCCMap pipeline;
  DemographicConsumption := DemographicConsumption pipeline;
  EmissionsMatrix := EmissionsMatrix pipeline;
  Concentrations := Concentrations pipeline;
  Populations := Populations pipeline;
  PopulationIncidence := PopulationIncidence pipeline;
  TotalPopulationCount := fun dem year => Ok (if (dem =? 0)%nat then year - 2000 else 5)
|}.

(** The same, with both industries mapped to sector 0. *)
Definition merged : Srv := {|
  SCCs := SCCs pipeline;
  IndustryToSCCMap := [[0]; [0]];
  DemographicConsumption := DemographicConsumption pipeline;
  EmissionsMatrix := EmissionsMatrix pipeline;
  Concentrations := Concentrations pipeline;
  Populations := Populations pipeline;
  PopulationIncidence := PopulationIncidence pipeline;
  TotalPopulationCount := TotalPopulationCount pipeline
|}.

(** One group, one person in each of two cells, concentrations of very
    different size. *)
Definition uneven : Srv := {|
  SCCs := SCCs pipeline;
  IndustryToSCCMap := IndustryToSCCMap pipeline;
  DemographicConsumption := DemographicConsumption pipeline;
  EmissionsMatrix := EmissionsMatrix pipeline;
  Concentrations := fun _ _ _ _ _ => (Some (mkVector [1e16; 1]%float), None);
  Populations := Ok ["A"];
  PopulationIncidence := fun _ _ _ _ => Ok [1; 1]%float;
  TotalPopulationCount := TotalPopulationCount pipeline
|}.

(** A matrix of two groups and one sector. *)
Definition twoByOne : mat.Dense float := mat.mkDense 2 1 [1; 2]%float.

(** The exposure scenario over exact integers. *)
Definition exactExposure : @Server Z nat unit unit (mat.Dense Z) string := {|
  SCCs := ["scc0"; "scc1"];
  IndustryToSCCMap := [[0]; [1]];
  DemographicConsumption := fun _ _ => Ok (mkVector [1; 1]);
  EmissionsMatrix := fun _ _ _ _ => Ok (mat.mkDense 1 2 [10; 20]);
  Concentrations := fun _ _ _ _ _ => (Some (mkVector [5; 10]), None);
  Populations := Ok ["A"; "B"];
  PopulationIncidence := fun _ popName _ _ =>
    Ok (if String.eqb popName "A" then [100; 200] else [50; 50]);
  TotalPopulationCount := fun _ _ => Ok 100
|}.

End Scenario.

(** ** Scenarios with a fault

    The end-to-end scenario with one thing changed. *)

Module Faults.
Import Scenario.

(** An emissions matrix of three columns for two sectors. *)
Definition wideEmissions : Srv := {|
  SCCs := SCCs pipeline;
  IndustryToSCCMap := IndustryToSCCMap pipeline;
  DemographicConsumption := DemographicConsumption pipeline;
  EmissionsMatrix := fun _ _ _ _ => Ok (mat.mkDense 1 3 [1; 2; 3]%float);
  Concentrations := Concentrations pipeline;
  Populations := Populations pipeline;
  PopulationIncidence := PopulationIncidence pipeline;
  TotalPopulationCount := TotalPopulationCount pipeline
|}.

(** No consumption data for the second group. *)
Definition noConsumption : Srv := {|
  SCCs := SCCs pipeline;
  IndustryToSCCMap := IndustryToSCCMap pipeline;
  DemographicConsumption := fun dem year =>
    if (dem =? 1)%nat then Err (ProviderError "no consumption data")
    else DemographicConsumption pipeline dem year;
  EmissionsMatrix := EmissionsMatrix pipeline;
  Concentrations := Concentrations pipeline;
  Populations := Populations pipeline;
  PopulationIncidence := PopulationIncidence pipeline;
  TotalPopulationCount := TotalPopulationCount pipeline
|}.

(** No population count for the second group. *)
Definition noCount : Srv := {|
  SCCs := SCCs pipeline;
  IndustryToSCCMap := IndustryToSCCMap pipeline;
  DemographicConsumption := DemographicConsumption pipeline;
  EmissionsMatrix := EmissionsMatrix pipeline;
  Concentrations := Concentrations pipeline;
  Populations := Populations pipeline;
  PopulationIncidence := PopulationIncidence pipeline;
  TotalPopulationCount := fun dem _ =>
    if (dem =? 1)%nat then Err (ProviderError "no population count") else Ok 100
|}.

(** A concentration query that fails and returns no vector. *)
Definition nilConcentrations : Srv := {|
  SCCs := SCCs pipeline;
  IndustryToSCCMap := IndustryToSCCMap pipeline;
  DemographicConsumption := DemographicConsumption pipeline;
  EmissionsMatrix := EmissionsMatrix pipeline;
  Concentrations := fun _ _ _ _ _ => (None, Some (ProviderError "no concentrations"));
  Populations := Populations pipeline;
  PopulationIncidence := PopulationIncidence pipeline;
  TotalPopulationCount := TotalPopulationCount pipeline
|}.

(** A grid of one cell for group B, where the concentrations have two. *)
Definition shortGrid : Srv := {|
  SCCs := SCCs pipeline;
  IndustryToSCCMap := IndustryToSCCMap pipeline;
  DemographicConsumption := DemographicConsumption pipeline;
  EmissionsMatrix := EmissionsMatrix pipeline;
  Concentrations := Concentrations pipeline;
  Populations := Populations pipeline;
  PopulationIncidence := fun _ popName _ _ =>
    Ok (if String.eqb popName "A" then [100; 200] else [50])%float;
  TotalPopulationCount := TotalPopulationCount pipeline
|}.

(** A list of population names that has group A twice. *)
Definition listedTwice : Srv := {|
  SCCs := SCCs pipeline;
  IndustryToSCCMap := IndustryToSCCMap pipeline;
  DemographicConsumption := DemographicConsumption pipeline;
  EmissionsMatrix := EmissionsMatrix pipeline;
  Concentrations := Concentrations pipeline;
  Populations := Ok ["A"; "A"];
  PopulationIncidence := PopulationIncidence pipeline;
  TotalPopulationCount := TotalPopulationCount pipeline
|}.

(** Groups without members. *)
Definition nobody : Srv := {|
  SCCs := SCCs pipeline;
  IndustryToSCCMap := IndustryToSCCMap pipeline;
  DemographicConsumption := DemographicConsumption pipeline;
  EmissionsMatrix := EmissionsMatrix pipeline;
  Concentrations := Concentrations pipeline;
  Populations := Populations pipeline;
  PopulationIncidence := PopulationIncidence pipeline;
  TotalPopulationCount := fun _ _ => Ok 0
|}.

(** Three decile values, the first of which is [Decile_All]; decile [d]
    is group [d - 1]; the final demand is always at hand. *)
Definition ext : @Externals float nat unit unit (mat.Dense float) string unit := {|
  Decile_value_len := 3;
  Decile_Decile_All := 0;
  DecileToDemograph := fun dec => Z.to_nat (dec - 1);
  Location_Domestic := tt;
  FinalDemandType_AllDemand := tt;
  FinalDemand := fun _ _ _ _ => Ok demand
|}.

End Faults.

(** * Properties *)

(** ** Addition of non-negative doubles

    Rounding to nearest never takes a sum of two non-negative doubles
    below either operand.  The proof works on the specification of the
    primitive floats: the exact sum is brought to the exponent of the
    result, shifted right, rounded and shifted again, and each step is
    followed on the integer mantissa. *)

Section Binary64.
Local Abbreviation fexp := (SpecFloat.fexp prec emax).
Local Abbreviation nonneg x := (SFleb (S754_zero false) x = true).

Lemma fexp_eq (e : Z) : fexp e = Z.max (e - 53) (-1074).
Proof. reflexivity. Qed.

Lemma digits_bounds (p : positive) :
  2 ^ (Zpos (digits2_pos p) - 1) <= Zpos p < 2 ^ Zpos (digits2_pos p).
Proof.
  induction p as [p IH|p IH|]; cbn [digits2_pos].
  - rewrite Pos2Z.inj_succ. replace (Z.succ (Zpos (digits2_pos p)) - 1) with (Z.succ (Zpos (digits2_pos p) - 1)) by lia.
    rewrite !Z.pow_succ_r by lia. lia.
  - rewrite Pos2Z.inj_succ. replace (Z.succ (Zpos (digits2_pos p)) - 1) with (Z.succ (Zpos (digits2_pos p) - 1)) by lia.
    rewrite !Z.pow_succ_r by lia. lia.
  - cbn. lia.
Qed.

Lemma digits_unique (p : positive) (d : Z) :
  2 ^ (d - 1) <= Zpos p < 2 ^ d -> Zpos (digits2_pos p) = d.
Proof.
  intros [Hlo Hhi]. pose proof (digits_bounds p) as [Hlo' Hhi'].
  assert (0 < d).
  { destruct (Z.ltb_spec 0 d); auto. rewrite (Z.pow_neg_r 2 (d - 1)) in Hlo by lia.
    destruct (Z.eq_dec d 0) as [->|]; [cbn in Hhi; lia|].
    rewrite Z.pow_neg_r in Hhi by lia. lia. }
  assert (d - 1 < Zpos (digits2_pos p)).
  { apply (Z.pow_lt_mono_r_iff 2); lia. }
  assert (Zpos (digits2_pos p) - 1 < d).
  { apply (Z.pow_lt_mono_r_iff 2); lia. }
  lia.
Qed.

Lemma digits_le (p q : positive) (k : Z) :
  0 <= k -> Zpos p * 2 ^ k <= Zpos q -> Zpos (digits2_pos p) + k <= Zpos (digits2_pos q).
Proof.
  intros Hk Hle. pose proof (digits_bounds p) as [Hlo _].
  pose proof (digits_bounds q) as [_ Hhi].
  assert (Zpos (digits2_pos p) - 1 + k < Zpos (digits2_pos q)); [|lia].
  apply (Z.pow_lt_mono_r_iff 2); try lia.
  rewrite Z.pow_add_r by lia.
  assert (0 < 2 ^ k) by (apply Z.pow_pos_nonneg; lia). nia.
Qed.

Lemma iter_xO (p d : positive) : Zpos (Pos.iter xO p d) = Zpos p * 2 ^ Zpos d.
Proof.
  induction d as [|d IH] using Pos.peano_ind.
  - cbn. lia.
  - rewrite Pos.iter_succ, Pos2Z.inj_succ, Z.pow_succ_r by lia.
    rewrite Pos2Z.inj_xO, IH. lia.
Qed.

Lemma shl_align_spec (m : positive) (e e' : Z) :
  let r := shl_align m e e' in
  snd r = Z.min e e' /\ Zpos (fst r) = Zpos m * 2 ^ (e - snd r).
Proof.
  unfold shl_align. destruct (e' - e) as [|d|d] eqn:E; cbn [fst snd].
  - split; [lia|]. rewrite Z.sub_diag. cbn. lia.
  - split; [lia|]. rewrite Z.sub_diag. cbn. lia.
  - split; [lia|]. rewrite iter_xO. f_equal. f_equal. lia.
Qed.

Lemma shr_1_spec (mrs : shr_record) :
  0 <= shr_m mrs -> shr_m (shr_1 mrs) = shr_m mrs / 2 /\ 0 <= shr_m (shr_1 mrs).
Proof.
  destruct mrs as [m r s]. cbn [shr_m]. intros Hm.
  destruct m as [|[p|p|]|p]; cbn [shr_1 shr_m]; try lia.
  - split; [reflexivity|lia].
  - split; [|lia]. apply (Z.div_unique_pos _ _ _ 1); lia.
  - split; [|lia]. apply (Z.div_unique_pos _ _ _ 0); lia.
  - split; [reflexivity|lia].
Qed.

Lemma iter_shr_1_spec (p : positive) : forall mrs : shr_record,
  0 <= shr_m mrs ->
  shr_m (SpecFloat.iter_pos shr_1 p mrs) = shr_m mrs / 2 ^ Zpos p /\
  0 <= shr_m (SpecFloat.iter_pos shr_1 p mrs).
Proof.
  induction p as [p IH|p IH|]; intros mrs Hm; cbn [SpecFloat.iter_pos].
  - destruct (shr_1_spec mrs Hm) as [H1 H1'].
    destruct (IH _ H1') as [H2 H2']. destruct (IH _ H2') as [H3 H3'].
    split; auto. rewrite H3, H2, H1.
    assert (0 < 2 ^ Zpos p) by (apply Z.pow_pos_nonneg; lia).
    rewrite !Z.div_div by lia. f_equal.
    replace (Zpos p~1) with (1 + Zpos p + Zpos p) by lia.
    rewrite !Z.pow_add_r by lia. lia.
  - destruct (IH _ Hm) as [H2 H2']. destruct (IH _ H2') as [H3 H3'].
    split; auto. rewrite H3, H2.
    assert (0 < 2 ^ Zpos p) by (apply Z.pow_pos_nonneg; lia).
    rewrite !Z.div_div by lia. f_equal.
    replace (Zpos p~0) with (Zpos p + Zpos p) by lia.
    rewrite !Z.pow_add_r by lia. lia.
  - destruct (shr_1_spec mrs Hm) as [H1 H1']. split; auto.
Qed.

Lemma shr_record_of_loc_m (m : Z) (l : location) : shr_m (shr_record_of_loc m l) = m.
Proof. now destruct l as [|[]]. Qed.

Lemma shr_fexp_spec (m e : Z) (l : location) :
  0 <= m ->
  let r := shr_fexp prec emax m e l in
  snd r = Z.max e (fexp (Zdigits2 m + e)) /\
  shr_m (fst r) = m / 2 ^ (snd r - e).
Proof.
  intros Hm. unfold shr_fexp, shr.
  destruct (fexp (Zdigits2 m + e) - e) as [|p|p] eqn:E; cbn [fst snd].
  - split; [lia|]. rewrite shr_record_of_loc_m, Z.sub_diag. cbn. now rewrite Z.div_1_r.
  - split; [lia|].
    destruct (iter_shr_1_spec p (shr_record_of_loc m l)) as [-> _].
    { now rewrite shr_record_of_loc_m. }
    rewrite shr_record_of_loc_m. do 2 f_equal. lia.
  - split; [lia|]. rewrite shr_record_of_loc_m, Z.sub_diag. cbn. now rewrite Z.div_1_r.
Qed.

Lemma round_nearest_even_bounds (m : Z) (l : location) :
  m <= round_nearest_even m l <= m + 1.
Proof. unfold round_nearest_even. destruct l as [|[]]; try destruct (Z.even m); lia. Qed.

Lemma div_pow2_pos (a k : Z) : 0 <= k -> 2 ^ k <= a -> 0 < a / 2 ^ k.
Proof.
  intros Hk Ha. assert (0 < 2 ^ k) by (apply Z.pow_pos_nonneg; lia).
  apply Z.div_str_pos. lia.
Qed.

Lemma binary_round_aux_ge (m0 : positive) (e0 : Z) (m : positive) (e : Z) :
  -1074 <= e0 ->
  e0 <= fexp (Zpos (digits2_pos m0) + e0) ->
  e0 <= e <= fexp (Zpos (digits2_pos m0) + e0) ->
  Zpos m * 2 ^ (e - e0) <= Zpos m0 ->
  SFleb (S754_finite false m e)
        (binary_round_aux prec emax false (Zpos m0) e0 loc_Exact) = true.
Proof.
  intros Hmin Ht He Hm. unfold binary_round_aux.
  pose proof (shr_fexp_spec (Zpos m0) e0 loc_Exact ltac:(lia)) as H1.
  destruct (shr_fexp prec emax (Zpos m0) e0 loc_Exact) as [mrs1 e1].
  cbn [fst snd Zdigits2] in H1. destruct H1 as [He1 Hm1].
  set (t := fexp (Zpos (digits2_pos m0) + e0)) in *.
  assert (E1 : e1 = t) by lia. clear He1. subst e1.
  pose proof (digits_bounds m0) as [Hd0 _].
  assert (Ht' : t < Zpos (digits2_pos m0) + e0).
  { unfold t. rewrite fexp_eq. lia. }
  assert (Hm1pos : 0 < shr_m mrs1).
  { rewrite Hm1. apply div_pow2_pos; [lia|].
    transitivity (2 ^ (Zpos (digits2_pos m0) - 1)); auto.
    apply Z.pow_le_mono_r; lia. }
  pose proof (round_nearest_even_bounds (shr_m mrs1) (loc_of_shr_record mrs1)) as Hr.
  set (m1' := round_nearest_even (shr_m mrs1) (loc_of_shr_record mrs1)) in *.
  pose proof (shr_fexp_spec m1' t loc_Exact ltac:(lia)) as H2.
  destruct (shr_fexp prec emax m1' t loc_Exact) as [mrs2 e2].
  cbn [fst snd] in H2. destruct H2 as [He2 Hm2].
  destruct m1' as [|p1|p1] eqn:Ep1; try lia. cbn [Zdigits2] in He2.
  assert (Htmin : -1074 <= t) by (unfold t; rewrite fexp_eq; lia).
  assert (Hm2pos : 0 < shr_m mrs2).
  { rewrite Hm2. apply div_pow2_pos; [lia|].
    pose proof (digits_bounds p1) as [Hd1 _].
    transitivity (2 ^ (Zpos (digits2_pos p1) - 1)); auto.
    apply Z.pow_le_mono_r; [lia|]. rewrite He2, fexp_eq. lia. }
  destruct (shr_m mrs2) as [|p2|p2] eqn:Ep2; try lia.
  destruct (e2 <=? emax - prec); [|reflexivity].
  unfold SFleb, SFcompare.
  destruct (Z.compare_spec e e2) as [Heq|Hlt|Hgt]; auto; [|lia].
  assert (Ete : t = e) by lia. assert (E2 : e2 = t) by lia.
  rewrite E2, Z.sub_diag in Hm2. cbn in Hm2. rewrite Z.div_1_r in Hm2.
  assert (Hle : Zpos m <= shr_m mrs1).
  { rewrite Hm1. apply Z.div_le_lower_bound.
    - apply Z.pow_pos_nonneg; lia.
    - replace (t - e0) with (e - e0) by lia. lia. }
  change (Pos.compare_cont Eq m p2) with (Pos.compare m p2).
  destruct (Pos.compare_spec m p2); auto. lia.
Qed.

Lemma binary_round_ge (M m : positive) (ez e : Z) :
  -1074 <= ez ->
  fexp (Zpos (digits2_pos m) + e) = e ->
  ez <= e ->
  Zpos m * 2 ^ (e - ez) <= Zpos M ->
  SFleb (S754_finite false m e) (binary_round prec emax false M ez) = true.
Proof.
  intros Hmin Hcan Hez Hm. unfold binary_round.
  pose proof (shl_align_spec M ez (fexp (Zpos (digits2_pos M) + ez))) as Hs.
  destruct (shl_align M ez (fexp (Zpos (digits2_pos M) + ez))) as [m0 e0].
  cbn [fst snd] in Hs. destruct Hs as [He0 Hm0].
  set (T := fexp (Zpos (digits2_pos M) + ez)) in *.
  assert (HT : -1074 <= T) by (unfold T; rewrite fexp_eq; lia).
  assert (Hp : 0 < 2 ^ (ez - e0)) by (apply Z.pow_pos_nonneg; lia).
  assert (Hd : Zpos (digits2_pos m0) + e0 = Zpos (digits2_pos M) + ez).
  { assert (Zpos (digits2_pos m0) = Zpos (digits2_pos M) + ez - e0); [|lia].
    apply digits_unique. pose proof (digits_bounds M) as [Hlo Hhi].
    pose proof (digits_bounds M) as [Hlo' _].
    assert (0 < Zpos (digits2_pos M)) by lia.
    replace (Zpos (digits2_pos M) + ez - e0 - 1)
      with ((Zpos (digits2_pos M) - 1) + (ez - e0)) by lia.
    replace (Zpos (digits2_pos M) + ez - e0)
      with (Zpos (digits2_pos M) + (ez - e0)) by lia.
    rewrite !Z.pow_add_r by lia. rewrite Hm0. nia. }
  assert (HeT : e <= T).
  { pose proof (digits_le m M (e - ez) ltac:(lia) Hm) as Hdl.
    rewrite <- Hcan. unfold T. rewrite !fexp_eq. lia. }
  apply binary_round_aux_ge; rewrite ?Hd; fold T; try lia.
  rewrite Hm0. replace (e - e0) with ((e - ez) + (ez - e0)) by lia.
  rewrite Z.pow_add_r by lia. nia.
Qed.

Lemma valid_finite (s : bool) (m : positive) (e : Z) :
  valid_binary (S754_finite s m e) = true ->
  fexp (Zpos (digits2_pos m) + e) = e /\ -1074 <= e.
Proof.
  cbn [SpecFloat.valid_binary]. unfold bounded, canonical_mantissa.
  intros Hv. apply andb_prop in Hv as [Hc _]. apply Z.eqb_eq in Hc.
  split; auto. rewrite <- Hc, fexp_eq. lia.
Qed.

Lemma SFleb_refl (x : spec_float) : x <> S754_nan -> SFleb x x = true.
Proof.
  destruct x as [s|s| |s m e]; try congruence; intros _; unfold SFleb, SFcompare.
  - reflexivity.
  - now destruct s.
  - rewrite Z.compare_refl.
    change (Pos.compare_cont Eq m m) with (Pos.compare m m).
    rewrite Pos.compare_refl. now destruct s.
Qed.

Lemma SFadd_ge (x y : spec_float) :
  valid_binary x = true -> valid_binary y = true -> nonneg x -> nonneg y ->
  SFleb x (SF64add x y) = true /\ SFleb y (SF64add x y) = true.
Proof.
  intros Hvx Hvy Hx Hy.
  destruct x as [sx|sx| |sx mx ex]; try discriminate;
    destruct y as [sy|sy| |sy my ey]; try discriminate;
    try (destruct sx; try discriminate); try (destruct sy; try discriminate);
    try (unfold SF64add, SFadd; split;
         first [reflexivity | apply SFleb_refl; discriminate]).
  destruct (valid_finite _ _ _ Hvx) as [Hcx Hex].
  destruct (valid_finite _ _ _ Hvy) as [Hcy Hey].
  unfold SF64add, SFadd. cbn [cond_Zopp].
  pose proof (shl_align_spec mx ex (Z.min ex ey)) as Hsx.
  pose proof (shl_align_spec my ey (Z.min ex ey)) as Hsy.
  destruct (shl_align mx ex (Z.min ex ey)) as [mx' ex'].
  destruct (shl_align my ey (Z.min ex ey)) as [my' ey'].
  cbn [fst snd] in *. destruct Hsx as [Hex' Hmx']. destruct Hsy as [Hey' Hmy'].
  replace ex' with (Z.min ex ey) in Hmx' by lia.
  replace ey' with (Z.min ex ey) in Hmy' by lia.
  change (Zpos mx' + Zpos my') with (Zpos (mx' + my')).
  cbn [binary_normalize].
  split; apply binary_round_ge; auto; try lia.
Qed.

Lemma SFleb_trans (x y z : spec_float) :
  SFleb x y = true -> SFleb y z = true -> SFleb x z = true.
Proof.
  unfold SFleb, SFcompare.
  destruct x as [sx|sx| |sx mx ex]; destruct y as [sy|sy| |sy my ey];
    destruct z as [sz|sz| |sz mz ez];
    try destruct sx; try destruct sy; try destruct sz;
    try discriminate; try reflexivity.
  all: change (Pos.compare_cont Eq) with Pos.compare.
  all: destruct (Z.compare_spec ex ey); try discriminate;
       destruct (Z.compare_spec ey ez); try discriminate;
       destruct (Z.compare_spec ex ez); try reflexivity; try lia.
  all: destruct (Pos.compare_spec mx my); try discriminate;
       destruct (Pos.compare_spec my mz); try discriminate;
       destruct (Pos.compare_spec mx mz); try reflexivity; try discriminate; try lia.
Qed.

(** The two facts on the primitive floats, through their specification
    ([leb_spec], [add_spec]). *)
Lemma float_leb_trans (x y z : float) :
  PrimFloat.leb x y = true -> PrimFloat.leb y z = true -> PrimFloat.leb x z = true.
Proof. rewrite !FloatAxioms.leb_spec. apply SFleb_trans. Qed.

Lemma float_add_ge (x y : float) :
  PrimFloat.leb 0 x = true -> PrimFloat.leb 0 y = true ->
  PrimFloat.leb x (x + y) = true /\ PrimFloat.leb y (x + y) = true.
Proof.
  rewrite !FloatAxioms.leb_spec, FloatAxioms.add_spec. intros Hx Hy.
  apply SFadd_ge; auto using Prim2SF_valid.
Qed.

(** A positive integer rounds to a positive double or to infinity. *)
Lemma binary_round_pos_shape (M : positive) (ez : Z) :
  -1074 <= ez ->
  binary_round prec emax false M ez = S754_infinity false \/
  exists m e, binary_round prec emax false M ez = S754_finite false m e.
Proof.
  intros Hmin. unfold binary_round.
  pose proof (shl_align_spec M ez (fexp (Zpos (digits2_pos M) + ez))) as Hs.
  destruct (shl_align M ez (fexp (Zpos (digits2_pos M) + ez))) as [m0 e0].
  cbn [fst snd] in Hs. destruct Hs as [He0 Hm0].
  assert (Hp : 0 < 2 ^ (ez - e0)) by (apply Z.pow_pos_nonneg; lia).
  assert (Hd : Zpos (digits2_pos m0) + e0 = Zpos (digits2_pos M) + ez).
  { assert (Zpos (digits2_pos m0) = Zpos (digits2_pos M) + ez - e0); [|lia].
    apply digits_unique. pose proof (digits_bounds M) as [Hlo Hhi].
    assert (0 < Zpos (digits2_pos M)) by lia.
    replace (Zpos (digits2_pos M) + ez - e0 - 1)
      with ((Zpos (digits2_pos M) - 1) + (ez - e0)) by lia.
    replace (Zpos (digits2_pos M) + ez - e0)
      with (Zpos (digits2_pos M) + (ez - e0)) by lia.
    rewrite !Z.pow_add_r by lia. rewrite Hm0. nia. }
  pose proof (fexp_eq (Zpos (digits2_pos M) + ez)) as HT.
  pose proof (binary_round_aux_ge m0 e0 m0 e0) as Hge.
  rewrite Hd in Hge. rewrite Z.sub_diag in Hge.
  specialize (Hge ltac:(lia) ltac:(lia) ltac:(lia) ltac:(cbn; lia)).
  destruct (binary_round_aux prec emax false (Zpos m0) e0 loc_Exact) as [s|[]| |[] m e];
    try discriminate; eauto.
Qed.

(** A running sum of non-negative doubles never falls below its start
    or below any of its addends. *)
Lemma float_sum_ge (l : list float) :
  Forall (fun v => PrimFloat.leb 0 v = true) l ->
  forall acc : float, PrimFloat.leb 0 acc = true ->
  PrimFloat.leb acc (foldl PrimFloat.add acc l) = true /\
  forall v, v ∈ l -> PrimFloat.leb v (foldl PrimFloat.add acc l) = true.
Proof.
  induction 1 as [|x l Hx Hl IH]; intros acc Hacc; cbn [foldl].
  - split.
    + rewrite FloatAxioms.leb_spec. apply SFleb_refl.
      rewrite FloatAxioms.leb_spec in Hacc. intros E. rewrite E in Hacc. discriminate.
    + intros v Hv. now apply elem_of_nil in Hv.
  - destruct (float_add_ge acc x Hacc Hx) as [Ha Hxa].
    destruct (IH (acc + x)%float) as [Hsum Hin].
    { now apply (float_leb_trans _ acc). }
    split.
    + now apply (float_leb_trans _ (acc + x)%float).
    + intros v Hv. apply elem_of_cons in Hv as [->|Hv]; auto.
      now apply (float_leb_trans _ (acc + x)%float).
Qed.
End Binary64.


(** ** Matrix access *)

Section Matrices.
Context {F : Type} {arith : Float64 F}.
Implicit Types m : mat.Dense F.

Lemma cell_index_lt (r c i j : nat) :
  (i < r)%nat -> (j < c)%nat -> (i * c + j < r * c)%nat.
Proof. nia. Qed.

Lemma cell_index_inj (c i j i' j' : nat) :
  (j < c)%nat -> (j' < c)%nat -> (i * c + j = i' * c + j')%nat -> i = i' /\ j = j'.
Proof.
  intros Hj Hj' Heq.
  destruct (Nat.lt_trichotomy i i') as [Hlt|[->|Hlt]]; [exfalso|lia|exfalso].
  - assert (i * c + c <= i' * c)%nat by (replace (i * c + c)%nat with (S i * c)%nat by lia; apply Nat.mul_le_mono_r; lia). lia.
  - assert (i' * c + c <= i * c)%nat by (replace (i' * c + c)%nat with (S i' * c)%nat by lia; apply Nat.mul_le_mono_r; lia). lia.
Qed.

Lemma ltb_true (a b : nat) : (a < b)%nat -> (a <? b)%nat = true.
Proof. apply Nat.ltb_lt. Qed.

Lemma At_wf m (i j : nat) :
  mat.wf m -> (i < mat.rows m)%nat -> (j < mat.cols m)%nat ->
  exists x, mat.data m !! (i * mat.cols m + j)%nat = Some x /\ mat.At m i j = Ok x.
Proof.
  intros Hwf Hi Hj.
  destruct (lookup_lt_is_Some_2 (mat.data m) (i * mat.cols m + j)) as [x Hx].
  { rewrite Hwf. now apply cell_index_lt. }
  exists x. split; auto. unfold mat.At.
  now rewrite (ltb_true _ _ Hi), (ltb_true _ _ Hj), Hx.
Qed.

Lemma Set_wf m (i j : nat) (v : F) :
  mat.wf m -> (i < mat.rows m)%nat -> (j < mat.cols m)%nat ->
  exists m', mat.Set_ m i j v = Ok m' /\ mat.wf m' /\
    mat.rows m' = mat.rows m /\ mat.cols m' = mat.cols m /\
    mat.At m' i j = Ok v /\
    forall i' j', (j' < mat.cols m)%nat -> (i', j') <> (i, j) ->
      mat.At m' i' j' = mat.At m i' j'.
Proof.
  intros Hwf Hi Hj. pose proof (cell_index_lt _ _ _ _ Hi Hj) as Hlt.
  rewrite <- Hwf in Hlt.
  eexists. unfold mat.Set_.
  rewrite (ltb_true _ _ Hi), (ltb_true _ _ Hj), (ltb_true _ _ Hlt).
  cbn [negb]. split; [reflexivity|]. unfold mat.wf, mat.At.
  cbn [mat.rows mat.cols mat.data].
  rewrite length_insert. repeat split; auto.
  - rewrite (ltb_true _ _ Hi), (ltb_true _ _ Hj). cbn [negb].
    now rewrite list_lookup_insert_eq.
  - intros i' j' Hj' Hne.
    rewrite list_lookup_insert_ne; auto.
    intros Heq. apply cell_index_inj in Heq as [-> ->]; auto.
Qed.

Lemma NewVecDense_Ok (d : list F) :
  (0 < length d)%nat -> mat.NewVecDense (length d) d = Ok d.
Proof.
  intros Hd. unfold mat.NewVecDense.
  destruct (Nat.eqb_spec (length d) 0); [lia|]. now rewrite Nat.eqb_refl.
Qed.

Lemma NewVecDense_inv (n : nat) (d v : list F) :
  mat.NewVecDense n d = Ok v -> v = d /\ n = length d /\ (0 < n)%nat.
Proof.
  unfold mat.NewVecDense. destruct (Nat.eqb_spec n 0); [discriminate|].
  destruct (Nat.eqb_spec n (length d)); [|discriminate].
  intros [= ->]. repeat split; auto. lia.
Qed.

Lemma NewDense_Ok (r c : nat) :
  (0 < r)%nat -> (0 < c)%nat ->
  exists m : mat.Dense F, mat.NewDense r c = Ok m /\ mat.wf m /\
    mat.rows m = r /\ mat.cols m = c.
Proof.
  intros Hr Hc. eexists. unfold mat.NewDense.
  destruct (Nat.eqb_spec r 0); [lia|]. destruct (Nat.eqb_spec c 0); [lia|].
  cbn [orb]. split; [reflexivity|]. unfold mat.wf. cbn [mat.rows mat.cols mat.data].
  now rewrite length_replicate.
Qed.

Lemma mapM_outcome_Ok {A B} (f : A -> outcome B) (g : A -> B) (l : list A) :
  (forall x, x ∈ l -> f x = Ok (g x)) -> mapM f l = Ok (g <$> l).
Proof.
  induction l as [|x l IH]; intros Hf; cbn; auto.
  rewrite Hf by constructor. cbn [mbind outcome_bind].
  rewrite IH; auto. intros y Hy. apply Hf. now constructor.
Qed.

Lemma ColView_wf m (j : nat) :
  mat.wf m -> (j < mat.cols m)%nat -> mat.ColView m j = Ok (column m j).
Proof.
  intros Hwf Hj. unfold mat.ColView, column. rewrite (ltb_true _ _ Hj). cbn [negb].
  apply mapM_outcome_Ok. intros i Hi. apply elem_of_seq in Hi.
  destruct (At_wf m i j) as (x & Hx & ->); auto; [lia|]. now rewrite Hx.
Qed.
End Matrices.

(** ** The aggregation loops *)

Section Aggregation.
Context {F : Type} {arith : Float64 F}.

Lemma hits_cons (i : Z) (rest : list Z) (s : nat) (v : F) :
  hits (i :: rest) s v =
  if decide (i = Z.of_nat s) then v :: hits rest s v else hits rest s v.
Proof. unfold hits. rewrite filter_cons. now destruct (decide (i = Z.of_nat s)). Qed.

Lemma sccLoop_spec (v : F) (sccs : list Z) : forall acc : list F,
  Forall (fun i => 0 <= i < Z.of_nat (length acc)) sccs ->
  exists acc', sccLoop v sccs acc = Ok acc' /\ length acc' = length acc /\
    forall s x, acc !! s = Some x -> acc' !! s = Some (foldl fadd x (hits sccs s v)).
Proof.
  induction sccs as [|i rest IH]; intros acc Hr.
  - exists acc. repeat split; auto.
  - inversion Hr as [|? ? Hi Hrest]; subst.
    destruct (lookup_lt_is_Some_2 acc (Z.to_nat i)) as [y Hy]; [lia|].
    assert (Hadd : addAt acc i v = Ok (<[Z.to_nat i := fadd y v]> acc)).
    { unfold addAt. destruct (Z.ltb_spec i 0); [lia|]. now rewrite Hy. }
    destruct (IH (<[Z.to_nat i := fadd y v]> acc)) as (acc' & Hl & Hlen & Hval).
    { now rewrite length_insert. }
    exists acc'. cbn [sccLoop]. rewrite Hadd. cbn [mbind outcome_bind]. rewrite Hl.
    rewrite length_insert in Hlen. repeat split; auto.
    intros s x Hx. rewrite hits_cons.
    destruct (decide (i = Z.of_nat s)) as [->|Hne].
    + rewrite Nat2Z.id in *. rewrite Hx in Hy. injection Hy as <-.
      cbn. apply Hval. apply list_lookup_insert_eq. now apply lookup_lt_Some in Hx.
    + apply Hval. rewrite list_lookup_insert_ne; auto. lia.
Qed.

Lemma industryLoop_spec (industryToSCC : list (list Z)) (values : list F) :
  forall (idx : nat) (acc : list F),
  (length values + idx <= length industryToSCC)%nat ->
  inRange (length acc) industryToSCC ->
  exists acc', industryLoop industryToSCC idx values acc = Ok acc' /\
    length acc' = length acc /\
    forall s x, acc !! s = Some x ->
      acc' !! s = Some (foldl fadd x (contributions values (drop idx industryToSCC) s)).
Proof.
  induction values as [|v rest IH]; intros idx acc Hlen Hr.
  - exists acc. repeat split; auto.
  - cbn [length] in Hlen.
    destruct (lookup_lt_is_Some_2 industryToSCC idx) as [sccs Hs]; [lia|].
    assert (Hin : Forall (fun i => 0 <= i < Z.of_nat (length acc)) sccs).
    { unfold inRange in Hr. rewrite Forall_lookup in Hr. eauto. }
    destruct (sccLoop_spec v sccs acc Hin) as (acc1 & H1 & Hl1 & Hv1).
    destruct (IH (S idx) acc1) as (acc2 & H2 & Hl2 & Hv2); [lia| now rewrite Hl1 |].
    exists acc2. cbn [industryLoop]. rewrite Hs, H1. cbn [mbind outcome_bind]. rewrite H2.
    repeat split; [congruence|].
    intros s x Hx. rewrite (drop_S _ _ _ Hs). unfold contributions. cbn.
    rewrite foldl_app. apply Hv2. now apply Hv1.
Qed.

Lemma aggregate_spec (values : list F) (industryToSCC : list (list Z)) (n : nat) :
  (0 < n)%nat ->
  (length values <= length industryToSCC)%nat ->
  inRange n industryToSCC ->
  exists out, aggregate values industryToSCC n = Ok out /\ length out = n /\
    forall s, (s < n)%nat -> out !! s = Some (vecSum (contributions values industryToSCC s)).
Proof.
  intros Hn Hlen Hr.
  destruct (industryLoop_spec industryToSCC values 0 (replicate n f0))
    as (out & Hl & Hlo & Hv); [lia | now rewrite length_replicate |].
  rewrite length_replicate in Hlo.
  exists out. unfold aggregate. rewrite Hl. cbn [mbind outcome_bind]. unfold mat.NewVecDense.
  destruct (Nat.eqb_spec (length out) 0); [lia|]. rewrite Nat.eqb_refl.
  repeat split; auto. intros s Hs. apply Hv. now apply lookup_replicate_2.
Qed.

Lemma aggregate_parts (values : list F) (industryToSCC : list (list Z)) (n : nat) :
  (0 < n)%nat ->
  (length values <= length industryToSCC)%nat ->
  inRange n industryToSCC ->
  aggregate values industryToSCC n =
    Ok ((fun s => vecSum (contributions values industryToSCC s)) <$> seq 0 n).
Proof.
  intros Hn Hlen Hr.
  destruct (aggregate_spec values industryToSCC n Hn Hlen Hr) as (out & -> & Hl & Hv).
  f_equal. apply list_eq. intros s. rewrite list_lookup_fmap.
  destruct (decide (s < n)%nat) as [Hs|Hs].
  - rewrite (Hv s Hs). now rewrite lookup_seq_lt.
  - rewrite lookup_ge_None_2 by lia. now rewrite lookup_seq_ge by lia.
Qed.

(** Failure modes: the loops return no [error], keep the length of the
    accumulator, read only the entries of the industries they are given,
    and panic on the first industry without an entry. *)
Lemma sccLoop_length (v : F) (sccs : list Z) : forall acc acc' : list F,
  sccLoop v sccs acc = Ok acc' -> length acc' = length acc.
Proof.
  induction sccs as [|i rest IH]; intros acc acc'; cbn [sccLoop].
  - now intros [= ->].
  - unfold addAt. destruct (i <? 0); [discriminate|].
    destruct (acc !! Z.to_nat i); [|discriminate]. cbn [mbind outcome_bind].
    intros Hl. apply IH in Hl. now rewrite length_insert in Hl.
Qed.

Lemma industryLoop_length (industryToSCC : list (list Z)) (values : list F) :
  forall (idx : nat) (acc acc' : list F),
  industryLoop industryToSCC idx values acc = Ok acc' -> length acc' = length acc.
Proof.
  induction values as [|v rest IH]; intros idx acc acc'; cbn [industryLoop].
  - now intros [= ->].
  - destruct (industryToSCC !! idx) as [sccs|]; [|discriminate].
    destruct (sccLoop v sccs acc) as [acc1| |] eqn:E1; try discriminate.
    cbn [mbind outcome_bind]. intros Hl. apply IH in Hl.
    apply sccLoop_length in E1. congruence.
Qed.

Lemma aggregate_length (values : list F) (industryToSCC : list (list Z)) (n : nat)
    (out : list F) :
  aggregate values industryToSCC n = Ok out -> length out = n /\ (0 < n)%nat.
Proof.
  unfold aggregate.
  destruct (industryLoop _ _ _ _) as [acc| |] eqn:E; try discriminate.
  cbn [mbind outcome_bind]. intros Hv. apply NewVecDense_inv in Hv as (-> & _ & Hpos).
  apply industryLoop_length in E. rewrite length_replicate in E. lia.
Qed.

Lemma sccLoop_no_Err (v : F) (sccs : list Z) : forall (acc : list F) e,
  sccLoop v sccs acc <> Err e.
Proof.
  induction sccs as [|i rest IH]; intros acc e; cbn [sccLoop]; [discriminate|].
  unfold addAt. destruct (i <? 0); [discriminate|].
  destruct (acc !! Z.to_nat i); [|discriminate]. cbn [mbind outcome_bind]. apply IH.
Qed.

Lemma industryLoop_no_Err (industryToSCC : list (list Z)) (values : list F) :
  forall (idx : nat) (acc : list F) e,
  industryLoop industryToSCC idx values acc <> Err e.
Proof.
  induction values as [|v rest IH]; intros idx acc e; cbn [industryLoop]; [discriminate|].
  destruct (industryToSCC !! idx) as [sccs|]; [|discriminate].
  destruct (sccLoop v sccs acc) as [acc1|e1|] eqn:E1; cbn [mbind outcome_bind].
  - apply IH.
  - now apply sccLoop_no_Err in E1.
  - discriminate.
Qed.

Lemma aggregate_no_Err (values : list F) (industryToSCC : list (list Z)) (n : nat) e :
  aggregate values industryToSCC n <> Err e.
Proof.
  unfold aggregate.
  destruct (industryLoop _ _ _ _) as [acc|e1|] eqn:E; cbn [mbind outcome_bind].
  - unfold mat.NewVecDense. destruct (_ =? _)%nat; [discriminate|].
    destruct (_ =? _)%nat; discriminate.
  - now apply industryLoop_no_Err in E.
  - discriminate.
Qed.

Lemma industryLoop_take (industryToSCC : list (list Z)) (values : list F) :
  forall (idx : nat) (acc : list F),
  industryLoop (take (idx + length values) industryToSCC) idx values acc =
  industryLoop industryToSCC idx values acc.
Proof.
  induction values as [|v rest IH]; intros idx acc; cbn [industryLoop length]; auto.
  rewrite lookup_take_lt by lia.
  destruct (industryToSCC !! idx) as [sccs|]; auto.
  destruct (sccLoop v sccs acc) as [acc1| |]; cbn [mbind outcome_bind]; auto.
  replace (idx + S (length rest))%nat with (S idx + length rest)%nat by lia. apply IH.
Qed.

Lemma industryLoop_long (industryToSCC : list (list Z)) (values : list F) :
  forall (idx : nat) (acc : list F),
  inRange (length acc) industryToSCC ->
  (idx <= length industryToSCC < idx + length values)%nat ->
  industryLoop industryToSCC idx values acc = Panicked IndexOutOfRange.
Proof.
  induction values as [|v rest IH]; intros idx acc Hr Hlen; cbn [length] in Hlen; [lia|].
  cbn [industryLoop].
  destruct (industryToSCC !! idx) as [sccs|] eqn:Hs; auto.
  assert (Hin : Forall (fun i => 0 <= i < Z.of_nat (length acc)) sccs).
  { unfold inRange in Hr. rewrite Forall_lookup in Hr. eauto. }
  destruct (sccLoop_spec v sccs acc Hin) as (acc1 & -> & Hl1 & _).
  cbn [mbind outcome_bind]. apply lookup_lt_Some in Hs.
  apply IH; [now rewrite Hl1|lia].
Qed.

(** Entries that are sets: each industry adds its value at most once. *)
Lemma hits_NoDup (sccs : list Z) (s : nat) (v : F) :
  NoDup sccs ->
  hits sccs s v = if decide (Z.of_nat s ∈ sccs) then [v] else [].
Proof.
  induction 1 as [|i rest Hni Hnd IH].
  - unfold hits. cbn. destruct (decide (Z.of_nat s ∈ [])) as [Hin|]; auto.
    now apply elem_of_nil in Hin.
  - rewrite hits_cons, IH.
    destruct (decide (i = Z.of_nat s)) as [->|Hne].
    + destruct (decide (Z.of_nat s ∈ rest)); [contradiction|].
      destruct (decide (Z.of_nat s ∈ Z.of_nat s :: rest)) as [|Hn]; auto.
      exfalso. apply Hn. constructor.
    + destruct (decide (Z.of_nat s ∈ rest)) as [Hin|Hnin];
        destruct (decide (Z.of_nat s ∈ i :: rest)) as [Hin'|Hnin']; auto.
      * exfalso. apply Hnin'. now constructor.
      * apply elem_of_cons in Hin' as [?|?]; congruence.
Qed.

Lemma contributions_sets (industryToSCC : list (list Z)) (s : nat) :
  entriesAreSets industryToSCC ->
  forall values : list F,
  contributions values industryToSCC s = contributors values industryToSCC s.
Proof.
  unfold contributions, contributors.
  induction 1 as [|sccs rest Hnd Hrest IH]; intros [|v values]; auto.
  cbn [zip_with concat]. rewrite filter_cons, IH, (hits_NoDup _ _ _ Hnd). cbn [snd].
  now destruct (decide (Z.of_nat s ∈ sccs)).
Qed.

Lemma contributors_elem (values : list F) (industryToSCC : list (list Z)) (s i : nat)
    (v : F) (sccs : list Z) :
  values !! i = Some v -> industryToSCC !! i = Some sccs -> Z.of_nat s ∈ sccs ->
  v ∈ contributors values industryToSCC s.
Proof.
  intros Hv Hs Hin. unfold contributors.
  apply list_elem_of_fmap. exists (v, sccs). split; auto.
  apply list_elem_of_filter. split; auto.
  apply list_elem_of_lookup. exists i. apply lookup_zip_with_Some. eauto.
Qed.

Lemma contributors_subset (values : list F) (industryToSCC : list (list Z)) (s : nat)
    (v : F) :
  v ∈ contributors values industryToSCC s -> v ∈ values.
Proof.
  unfold contributors. intros Hin.
  apply list_elem_of_fmap in Hin as ([v' sccs] & -> & Hin).
  apply list_elem_of_filter in Hin as [_ Hin].
  apply list_elem_of_lookup in Hin as [i Hi].
  apply lookup_zip_with_Some in Hi as (a & b & Heq & Ha & Hb).
  injection Heq as -> ->. apply list_elem_of_lookup. eauto.
Qed.

Lemma contributors_unreferenced (values : list F) (industryToSCC : list (list Z))
    (s : nat) :
  (forall sccs, sccs ∈ industryToSCC -> Z.of_nat s ∉ sccs) ->
  contributors values industryToSCC s = [].
Proof.
  intros Hno. unfold contributors.
  destruct (filter _ _) as [|[v sccs] l] eqn:E; auto.
  assert (Hin : (v, sccs) ∈ filter (fun p : F * list Z => Z.of_nat s ∈ p.2)
                                   (zip values industryToSCC)).
  { rewrite E. constructor. }
  apply list_elem_of_filter in Hin as [Hs Hin]. cbn in Hs.
  apply list_elem_of_lookup in Hin as [i Hi].
  apply lookup_zip_with_Some in Hi as (a & b & Heq & Ha & Hb).
  injection Heq as -> ->. exfalso. eapply Hno; eauto.
  apply list_elem_of_lookup. eauto.
Qed.

(** Entries of one sector: the addends of all sectors are the input,
    rearranged. *)
Lemma hits_single_row (i : Z) (v : F) : forall n a : nat,
  concat ((fun s => hits [i] s v) <$> seq a n) =
  if decide (Z.of_nat a <= i < Z.of_nat (a + n)) then [v] else [].
Proof.
  induction n as [|n IH]; intros a.
  - cbn. destruct (decide _); auto. lia.
  - cbn [seq fmap list_fmap concat]. rewrite IH, hits_cons. unfold hits. cbn.
    repeat case_decide; auto; lia.
Qed.

Lemma concat_fmap_app {A B} (f g : A -> list B) (l : list A) :
  Permutation (concat ((fun s => f s ++ g s) <$> l))
              (concat (f <$> l) ++ concat (g <$> l)).
Proof.
  induction l as [|a l IH]; cbn; auto.
  rewrite IH. rewrite <- !app_assoc. apply Permutation_app_head.
  rewrite !app_assoc. apply Permutation_app_tail. apply Permutation_app_comm.
Qed.

Lemma concat_fmap_nil {A B} (f : A -> list B) (l : list A) :
  (forall a, f a = []) -> concat (f <$> l) = [].
Proof. intros Hf. induction l as [|a l IH]; cbn; auto. now rewrite Hf, IH. Qed.

Lemma contributions_partition (n : nat) (industryToSCC : list (list Z)) :
  inRange n industryToSCC -> oneSectorEach industryToSCC ->
  forall values : list F,
  (length values <= length industryToSCC)%nat ->
  Permutation (concat ((contributions values industryToSCC) <$> seq 0 n)) values.
Proof.
  intros Hr Ho. induction industryToSCC as [|sccs rest IH]; intros values Hlen.
  - destruct values; [|cbn in Hlen; lia]. now rewrite concat_fmap_nil.
  - destruct values as [|v values]; [now rewrite concat_fmap_nil|].
    inversion Hr as [|? ? Hin Hr']; inversion Ho as [|? ? Hone Ho']; subst.
    destruct sccs as [|i [|]]; try discriminate.
    inversion Hin as [|? ? Hi _]; subst.
    unfold contributions. cbn [zip_with concat].
    rewrite concat_fmap_app, hits_single_row.
    rewrite decide_True by lia. cbn. constructor.
    apply IH; auto. cbn in Hlen. lia.
Qed.

Section ExactSums.
Hypothesis laws : AddLaws F.

Lemma foldl_fadd_from (l : list F) : forall a, foldl fadd a l = fadd a (vecSum l).
Proof.
  unfold vecSum. induction l as [|x l IH]; intros a; cbn.
  - now rewrite (fadd_comm laws), (fadd_0_l laws).
  - rewrite IH, (IH (fadd f0 x)), (fadd_0_l laws). now rewrite (fadd_assoc laws).
Qed.

Lemma foldl_fadd_perm (l1 l2 : list F) :
  Permutation l1 l2 -> forall a, foldl fadd a l1 = foldl fadd a l2.
Proof.
  induction 1 as [|x l1 l2 _ IH|x y l|l1 l2 l3 _ IH1 _ IH2]; intros a; cbn; auto.
  - rewrite <- !(fadd_assoc laws). now rewrite (fadd_comm laws y x).
  - now rewrite IH1.
Qed.

Lemma vecSum_concat (parts : list (list F)) :
  forall a, foldl fadd a (vecSum <$> parts) = foldl fadd a (concat parts).
Proof.
  induction parts as [|l parts IH]; intros a; cbn; auto.
  rewrite foldl_app, IH. f_equal. now rewrite <- foldl_fadd_from.
Qed.
End ExactSums.
End Aggregation.

(** ** The loops of the other stages *)

Section Stages.
Context {F : Type} {arith : Float64 F}.
Context {Demograph Location Pollutant Matrix SCC : Type}.
Variable Pollutant_TotalPM25 : Pollutant.
Variable rpc2mat : Matrix -> mat.Dense F.
Implicit Types m : mat.Dense F.
Local Abbreviation Server := (@Server F Demograph Location Pollutant Matrix SCC).

(** [getEmissionsBySCC] and [demAndEmissions] *)
Lemma sumVec_spec (v : list F) : forall (n i : nat) (acc : F),
  (i + n <= length v)%nat ->
  sumVec v i n acc = Ok (foldl fadd acc (take n (drop i v))).
Proof.
  induction n as [|n IH]; intros i acc Hlen; cbn [sumVec].
  - now rewrite take_0.
  - destruct (lookup_lt_is_Some_2 v i) as [x Hx]; [lia|].
    unfold mat.AtVec. rewrite Hx. cbn [mbind outcome_bind].
    rewrite IH by lia. rewrite (drop_S _ _ _ Hx). reflexivity.
Qed.

Lemma sumVec_all (v : list F) : sumVec v 0 (mat.Len v) f0 = Ok (vecSum v).
Proof.
  unfold mat.Len. rewrite sumVec_spec by lia. rewrite drop_0. now rewrite firstn_all.
Qed.

Lemma sectorLoop_spec m : mat.wf m -> forall (n j : nat) (emisSCC : list F),
  (j + n <= mat.cols m)%nat -> (j + n <= length emisSCC)%nat ->
  exists out, sectorLoop m j n emisSCC = Ok out /\ length out = length emisSCC /\
    (forall k, (j <= k < j + n)%nat -> out !! k = Some (vecSum (column m k))) /\
    (forall k, (k < j)%nat -> out !! k = emisSCC !! k).
Proof.
  intros Hwf. induction n as [|n IH]; intros j emisSCC Hc Hl.
  - exists emisSCC. repeat split; auto. intros k Hk. lia.
  - destruct (IH (S j) (<[j := vecSum (column m j)]> emisSCC))
      as (out & Hout & Hlen & Hnew & Hold); [lia|rewrite length_insert; lia|].
    exists out. cbn [sectorLoop]. rewrite ColView_wf by (auto; lia).
    cbn [mbind outcome_bind]. rewrite sumVec_all. cbn [mbind outcome_bind].
    rewrite ltb_true by lia. cbn [negb]. rewrite Hout.
    rewrite length_insert in Hlen. repeat split; auto.
    + intros k Hk. destruct (decide (k = j)) as [->|Hne].
      * rewrite Hold by lia. apply list_lookup_insert_eq. lia.
      * apply Hnew. lia.
    + intros k Hk. rewrite Hold by lia. apply list_lookup_insert_ne. lia.
Qed.

Lemma sectorLoop_length m : forall (n j : nat) (emisSCC out : list F),
  sectorLoop m j n emisSCC = Ok out -> length out = length emisSCC.
Proof.
  induction n as [|n IH]; intros j emisSCC out; cbn [sectorLoop].
  - now intros [= ->].
  - destruct (mat.ColView m j) as [col| |]; try discriminate. cbn [mbind outcome_bind].
    destruct (sumVec col 0 (mat.Len col) f0) as [total| |]; try discriminate.
    cbn [mbind outcome_bind]. destruct (negb _); [discriminate|].
    intros Hl. apply IH in Hl. now rewrite length_insert in Hl.
Qed.

Lemma getEmissionsBySCC_length (s : Server) (demand : Vector) (year : Z) (loc : Location)
    (emis : list F) :
  getEmissionsBySCC rpc2mat demand s year loc = Ok emis ->
  length emis = length (SCCs s) /\ (0 < length (SCCs s))%nat.
Proof.
  unfold getEmissionsBySCC.
  destruct (EmissionsMatrix s demand year loc "isrm") as [emisRPC| |]; try discriminate.
  cbn [wrapErr mbind outcome_bind mat.Dims].
  destruct (negb _) eqn:Hb; [discriminate|].
  destruct (sectorLoop _ _ _ _) as [out| |] eqn:E; try discriminate.
  cbn [mbind outcome_bind]. intros Hv. apply NewVecDense_inv in Hv as (-> & _ & Hpos).
  apply sectorLoop_length in E. rewrite length_replicate in E. lia.
Qed.

Lemma getConsumptionBySCC_length (s : Server) (dem : Demograph) (year : Z) (v : list F) :
  getConsumptionBySCC s dem year = Ok v ->
  length v = length (SCCs s) /\ (0 < length (SCCs s))%nat.
Proof.
  unfold getConsumptionBySCC.
  destruct (DemographicConsumption s dem year) as [vec| |]; try discriminate.
  cbn [wrapErr mbind outcome_bind]. apply aggregate_length.
Qed.

Lemma cellLoop_spec (consumption emis : list F) (demIdx : nat) :
  forall (n sectorIdx : nat) (manualDot : F) m,
  mat.wf m -> (demIdx < mat.rows m)%nat ->
  (sectorIdx + n <= mat.cols m)%nat ->
  (sectorIdx + n <= length consumption)%nat -> (sectorIdx + n <= length emis)%nat ->
  exists m', cellLoop consumption emis demIdx sectorIdx n manualDot m = Ok m' /\
    mat.wf m' /\ mat.rows m' = mat.rows m /\ mat.cols m' = mat.cols m /\
    (forall k, (sectorIdx <= k < sectorIdx + n)%nat ->
       exists c e, consumption !! k = Some c /\ emis !! k = Some e /\
         mat.At m' demIdx k = Ok (fmul c e)) /\
    (forall i k, (k < mat.cols m)%nat ->
       i <> demIdx \/ (k < sectorIdx)%nat \/ (sectorIdx + n <= k)%nat ->
       mat.At m' i k = mat.At m i k).
Proof.
  induction n as [|n IH]; intros j dot m Hwf Hi Hj Hlc Hle.
  - exists m. repeat split; auto. intros k Hk. lia.
  - destruct (lookup_lt_is_Some_2 consumption j) as [c Hc]; [lia|].
    destruct (lookup_lt_is_Some_2 emis j) as [e He]; [lia|].
    destruct (Set_wf m demIdx j (fmul c e)) as (m1 & Hset & Hwf1 & Hr1 & Hc1 & Hat1 & Hoth1);
      auto; [lia|].
    destruct (IH (S j) (fadd dot (fmul c e)) m1)
      as (m' & Hl & Hwf' & Hr' & Hc' & Hrow & Hoth); auto; try lia.
    exists m'. cbn [cellLoop]. unfold mat.AtVec. rewrite Hc, He.
    cbn [mbind outcome_bind]. rewrite Hset. cbn [mbind outcome_bind]. rewrite Hl.
    repeat split; auto; try congruence.
    + intros k Hk. destruct (decide (k = j)) as [->|Hne].
      * exists c, e. repeat split; auto. rewrite Hoth; auto; lia.
      * apply Hrow. lia.
    + intros i k Hk Hcase. rewrite Hoth; [|lia|lia].
      apply Hoth1; auto. intros [= -> ->]. lia.
Qed.

Lemma demLoop_spec (s : Server) (year : Z) (emis : list F) :
  length emis = length (SCCs s) ->
  forall (dems : list Demograph) (demIdx : nat) m,
  Forall (fun dem => exists v, getConsumptionBySCC s dem year = Ok v) dems ->
  mat.wf m -> mat.cols m = length (SCCs s) -> (demIdx + length dems <= mat.rows m)%nat ->
  exists m', demLoop s year emis demIdx dems m = Ok m' /\
    mat.wf m' /\ mat.rows m' = mat.rows m /\ mat.cols m' = mat.cols m /\
    (forall g dem k, dems !! g = Some dem -> (k < mat.cols m)%nat ->
       exists v c e, getConsumptionBySCC s dem year = Ok v /\
         v !! k = Some c /\ emis !! k = Some e /\
         mat.At m' (demIdx + g) k = Ok (fmul c e)) /\
    (forall i k, (k < mat.cols m)%nat -> (i < demIdx)%nat -> mat.At m' i k = mat.At m i k).
Proof.
  intros Hemis. induction dems as [|dem dems IH]; intros demIdx m Hok Hwf Hcols Hrows.
  - exists m. repeat split; auto. intros g dem k Hg. discriminate.
  - inversion Hok as [|? ? [v Hv] Hok']; subst. cbn [length] in Hrows.
    destruct (getConsumptionBySCC_length s dem year v Hv) as [Hlv Hpos].
    destruct (cellLoop_spec v emis demIdx (mat.Len v) 0 f0 m)
      as (m1 & Hl1 & Hwf1 & Hr1 & Hc1 & Hrow1 & Hoth1); auto; unfold mat.Len; try lia.
    unfold mat.Len in *.
    destruct (IH (S demIdx) m1) as (m' & Hl & Hwf' & Hr' & Hc' & Hcells & Hoth);
      auto; try lia.
    exists m'. cbn [demLoop]. rewrite Hv. cbn [wrapErr mbind outcome_bind].
    unfold mat.Len. rewrite Hl1. cbn [mbind outcome_bind]. rewrite Hl.
    repeat split; auto; try congruence.
    + intros [|g] dem' k Hg Hk.
      * injection Hg as <-. destruct (Hrow1 k) as (c & e & Hc & He & Hat); [lia|].
        exists v, c, e. repeat split; auto. rewrite Nat.add_0_r.
        rewrite Hoth; auto; lia.
      * cbn in Hg. destruct (Hcells g dem' k Hg) as (v' & c & e & H1 & H2 & H3 & H4); [lia|].
        exists v', c, e. repeat split; auto.
        now replace (demIdx + S g)%nat with (S demIdx + g)%nat by lia.
    + intros i k Hk Hi. rewrite Hoth; [|lia|lia]. apply Hoth1; auto. left. lia.
Qed.

(** [populationAdjust] *)
Lemma colLoop_spec (demIdx : nat) (adjustRatio : F) : forall (n j : nat) m,
  mat.wf m -> (demIdx < mat.rows m)%nat -> (j + n <= mat.cols m)%nat ->
  exists m', colLoop demIdx j n adjustRatio m = (m', Ok ()) /\ mat.wf m' /\
    mat.rows m' = mat.rows m /\ mat.cols m' = mat.cols m /\
    (forall k, (j <= k < j + n)%nat ->
       exists x, mat.At m demIdx k = Ok x /\ mat.At m' demIdx k = Ok (fmul x adjustRatio)) /\
    (forall i k, (k < mat.cols m)%nat -> i <> demIdx \/ (k < j)%nat \/ (j + n <= k)%nat ->
       mat.At m' i k = mat.At m i k).
Proof.
  induction n as [|n IH]; intros j m Hwf Hi Hj.
  - exists m. repeat split; auto. intros k Hk. lia.
  - destruct (At_wf m demIdx j) as (x & _ & Hx); auto; [lia|].
    destruct (Set_wf m demIdx j (fmul x adjustRatio)) as (m1 & Hset & Hwf1 & Hr1 & Hc1 & Hat1 & Hoth1);
      auto; [lia|].
    destruct (IH (S j) m1) as (m' & Hl & Hwf' & Hr' & Hc' & Hrow & Hoth); auto; try lia.
    exists m'. cbn [colLoop]. rewrite Hx. cbn [mbind outcome_bind]. rewrite Hset, Hl.
    repeat split; auto; try congruence.
    + intros k Hk. destruct (decide (k = j)) as [->|Hne].
      * exists x. split; auto. rewrite Hoth; auto; lia.
      * destruct (Hrow k) as (y & Hy & Hy'); [lia|]. exists y. split; auto.
        rewrite <- Hy. symmetry. apply Hoth1; [lia|]. congruence.
    + intros i k Hk Hcase. rewrite Hoth; [|lia|lia].
      apply Hoth1; auto. intros [= -> ->]. lia.
Qed.

Lemma rowLoop_spec (totalPop : Z) (popCounts : list Z) : forall (n demIdx : nat) m,
  mat.wf m -> (demIdx + n <= mat.rows m)%nat -> (demIdx + n <= length popCounts)%nat ->
  exists m', rowLoop totalPop popCounts (mat.cols m) demIdx n m = (m', Ok ()) /\
    mat.wf m' /\ mat.rows m' = mat.rows m /\ mat.cols m' = mat.cols m /\
    (forall i k, (demIdx <= i < demIdx + n)%nat -> (k < mat.cols m)%nat ->
       exists x c, mat.At m i k = Ok x /\ popCounts !! i = Some c /\
         mat.At m' i k = Ok (fmul x (ratioOf totalPop c))) /\
    (forall i k, (k < mat.cols m)%nat -> (i < demIdx)%nat \/ (demIdx + n <= i)%nat ->
       mat.At m' i k = mat.At m i k).
Proof.
  induction n as [|n IH]; intros demIdx m Hwf Hr Hp.
  - exists m. repeat split; auto. intros i k Hi. lia.
  - destruct (lookup_lt_is_Some_2 popCounts demIdx) as [c Hc]; [lia|].
    destruct (colLoop_spec demIdx (ratioOf totalPop c) (mat.cols m) 0 m)
      as (m1 & Hl1 & Hwf1 & Hr1 & Hc1 & Hrow1 & Hoth1); auto; try lia.
    destruct (IH (S demIdx) m1) as (m' & Hl & Hwf' & Hr' & Hc' & Hrows & Hoth);
      auto; try lia.
    exists m'. cbn [rowLoop]. rewrite Hc. fold (ratioOf totalPop c). rewrite Hl1.
    rewrite <- Hc1, Hl. rewrite Hc1.
    repeat split; auto; try congruence.
    + intros i k Hi Hk. destruct (decide (i = demIdx)) as [->|Hne].
      * destruct (Hrow1 k) as (x & Hx & Hx'); [lia|].
        exists x, c. repeat split; auto. rewrite Hoth; auto; lia.
      * destruct (Hrows i k) as (x & c' & Hx & Hc'' & Hx'); [lia|lia|].
        exists x, c'. repeat split; auto. rewrite <- Hx. symmetry. apply Hoth1; auto.
    + intros i k Hk Hcase. rewrite Hoth; [|lia|lia]. apply Hoth1; auto. left. lia.
Qed.

Lemma popCountLoop_spec (s : Server) (dems : list Demograph) (counts : list Z) :
  Forall2 (fun dem c => TotalPopulationCount s dem 2015 = Ok c) dems counts ->
  forall (demIdx : nat) (totalPop : Z) (popCounts : list Z),
  (demIdx + length dems <= length popCounts)%nat ->
  popCountLoop s demIdx dems totalPop popCounts =
    Ok (foldl intAdd totalPop counts,
        take demIdx popCounts ++ counts ++ drop (demIdx + length counts) popCounts).
Proof.
  induction 1 as [|dem c dems counts Hq Hrest IH]; intros demIdx totalPop popCounts Hlen.
  - cbn. rewrite Nat.add_0_r. now rewrite take_drop.
  - cbn [popCountLoop length] in *. rewrite Hq. cbn [mbind outcome_bind].
    rewrite ltb_true by lia. cbn [negb]. rewrite IH by (rewrite length_insert; lia).
    cbn [foldl]. do 2 f_equal.
    rewrite drop_insert_lt by lia.
    rewrite (take_S_r _ _ c).
    2:{ apply list_lookup_insert_eq. lia. }
    rewrite take_insert_ge by lia. rewrite <- app_assoc. cbn.
    now rewrite Nat.add_succ_r.
Qed.

Lemma popCountLoop_all (s : Server) (dems : list Demograph) (counts : list Z) :
  queriedCounts s 2015 dems counts ->
  popCountLoop s 0 dems 0 (replicate (length dems) 0) = Ok (foldl intAdd 0 counts, counts).
Proof.
  intros Hq. rewrite (popCountLoop_spec s dems counts Hq) by (rewrite length_replicate; lia).
  rewrite take_0. cbn [app]. rewrite drop_ge.
  - now rewrite app_nil_r.
  - rewrite length_replicate. apply Forall2_length in Hq. lia.
Qed.

Lemma popCountLoop_ext (s s' : Server) :
  (forall dem, TotalPopulationCount s' dem 2015 = TotalPopulationCount s dem 2015) ->
  forall dems demIdx totalPop popCounts,
  popCountLoop s' demIdx dems totalPop popCounts =
  popCountLoop s demIdx dems totalPop popCounts.
Proof.
  intros Hext. induction dems as [|dem dems IH]; intros; cbn; auto.
  rewrite Hext. destruct (TotalPopulationCount s dem 2015); cbn; auto.
  destruct (negb _); auto.
Qed.

Lemma populationAdjust_ext (s s' : Server) m (dems : list Demograph) :
  (forall dem, TotalPopulationCount s' dem 2015 = TotalPopulationCount s dem 2015) ->
  populationAdjust s' m dems = populationAdjust s m dems.
Proof. intros Hext. unfold populationAdjust. now rewrite (popCountLoop_ext s s' Hext). Qed.

(** [getExposureByPopulation] *)
Lemma gridsLoop_scaled (k : F) (s : Server) (year : Z) (conc : list F) :
  forall (popNames : list string) (grids : gmap string (list F)),
  gridsLoop (scaleConcentrations k s) year (fmul k <$> conc) popNames grids =
  gridsLoop s year conc popNames grids.
Proof.
  induction popNames as [|popName rest IH]; intros grids; cbn [gridsLoop]; auto.
  cbn [PopulationIncidence scaleConcentrations].
  destruct (PopulationIncidence s year popName "NasariACS" "isrm") as [pop| |];
    cbn [mbind outcome_bind]; auto.
  rewrite length_fmap. destruct (negb _); auto.
Qed.

Lemma readTotal_addTo (m : gmap string F) (k k' : string) (v : F) :
  readTotal (addTo m k v) k' =
  if decide (k = k') then fadd (readTotal m k) v else readTotal m k'.
Proof.
  unfold readTotal, addTo. rewrite lookup_insert. now destruct (decide (k = k')).
Qed.

Lemma popLoop_spec (grids : gmap string (list F)) (gridIdx : nat) (c : F) :
  forall (popNames : list string) (pt ex : gmap string F),
  NoDup popNames ->
  (forall popName, popName ∈ popNames ->
     exists grid, grids !! popName = Some grid /\ (gridIdx < length grid)%nat) ->
  exists pt' ex', popLoop grids gridIdx c popNames (pt, ex) = Ok (pt', ex') /\
    forall popName,
      (popName ∈ popNames ->
         forall grid n, grids !! popName = Some grid -> grid !! gridIdx = Some n ->
           readTotal pt' popName = fadd (readTotal pt popName) n /\
           readTotal ex' popName = fadd (readTotal ex popName) (fmul n c)) /\
      (popName ∉ popNames ->
         readTotal pt' popName = readTotal pt popName /\
         readTotal ex' popName = readTotal ex popName).
Proof.
  induction popNames as [|p rest IH]; intros pt ex Hnd Hg.
  - exists pt, ex. split; auto. intros popName. split; auto.
    intros Hin. now apply elem_of_nil in Hin.
  - apply NoDup_cons in Hnd as [Hp Hnd].
    destruct (Hg p) as (grid & Hgrid & Hlt); [constructor|].
    destruct (lookup_lt_is_Some_2 grid gridIdx Hlt) as [n Hn].
    destruct (IH (addTo pt p n) (addTo ex p (fmul n c)) Hnd) as (pt' & ex' & Hl & Hv).
    { intros q Hq. apply Hg. now constructor. }
    exists pt', ex'. cbn [popLoop]. rewrite Hgrid. cbn [mbind option_bind].
    rewrite Hn. cbn [fst snd]. split; auto.
    intros q. split.
    + intros Hq grid' n' Hgrid' Hn'.
      apply elem_of_cons in Hq as [->|Hq].
      * destruct (Hv p) as [_ Hout]. destruct (Hout Hp) as [-> ->].
        rewrite !readTotal_addTo. rewrite !decide_True by auto.
        rewrite Hgrid in Hgrid'. injection Hgrid' as <-.
        rewrite Hn in Hn'. injection Hn' as <-. auto.
      * destruct (Hv q) as [Hin _]. destruct (Hin Hq grid' n' Hgrid' Hn') as [-> ->].
        rewrite !readTotal_addTo.
        assert (p <> q) by (intros ->; contradiction).
        now rewrite !decide_False by auto.
    + intros Hq. apply not_elem_of_cons in Hq as [Hne Hq].
      destruct (Hv q) as [_ Hout]. destruct (Hout Hq) as [-> ->].
      rewrite !readTotal_addTo. now rewrite !decide_False by auto.
Qed.

Lemma gridLoop_spec (grids : gmap string (list F)) (popNames : list string) :
  NoDup popNames ->
  forall (conc : list F) (gridIdx : nat) (pt ex : gmap string F),
  (forall popName, popName ∈ popNames ->
     exists grid, grids !! popName = Some grid /\
       (gridIdx + length conc <= length grid)%nat) ->
  exists pt' ex', gridLoop grids popNames gridIdx conc (pt, ex) = Ok (pt', ex') /\
    forall popName grid, popName ∈ popNames -> grids !! popName = Some grid ->
      readTotal pt' popName =
        foldl fadd (readTotal pt popName) (take (length conc) (drop gridIdx grid)) /\
      readTotal ex' popName =
        foldl fadd (readTotal ex popName) (zip_with fmul (drop gridIdx grid) conc).
Proof.
  intros Hnd. induction conc as [|c rest IH]; intros gridIdx pt ex Hg.
  - exists pt, ex. split; auto. intros popName grid _ _. cbn [length].
    rewrite take_0. split; auto. now destruct (drop gridIdx grid).
  - cbn [length] in Hg.
    destruct (popLoop_spec grids gridIdx c popNames pt ex Hnd) as (pt1 & ex1 & Hl1 & Hv1).
    { intros q Hq. destruct (Hg q Hq) as (grid & Hgrid & Hlen). exists grid. split; auto. lia. }
    destruct (IH (S gridIdx) pt1 ex1) as (pt' & ex' & Hl & Hv).
    { intros q Hq. destruct (Hg q Hq) as (grid & Hgrid & Hlen). exists grid. split; auto. lia. }
    exists pt', ex'. cbn [gridLoop]. rewrite Hl1. cbn [mbind outcome_bind]. split; auto.
    intros q grid Hq Hgrid.
    destruct (Hg q Hq) as (grid' & Hgrid' & Hlen). rewrite Hgrid in Hgrid'.
    injection Hgrid' as <-.
    destruct (lookup_lt_is_Some_2 grid gridIdx) as [n Hn]; [lia|].
    destruct (Hv q grid Hq Hgrid) as [-> ->].
    destruct (Hv1 q) as [Hin _]. destruct (Hin Hq grid n Hgrid Hn) as [-> ->].
    rewrite (drop_S _ _ _ Hn). cbn [length take zip_with foldl]. auto.
Qed.

Lemma gridsLoop_spec (s : Server) (year : Z) (conc : list F) :
  forall (popNames : list string) (grids0 : gmap string (list F)),
  (forall popName, popName ∈ popNames ->
     exists grid, PopulationIncidence s year popName "NasariACS" "isrm" = Ok grid /\
       length grid = length conc) ->
  exists grids, gridsLoop s year conc popNames grids0 = Ok grids /\
    (forall popName, popName ∈ popNames ->
       exists grid, PopulationIncidence s year popName "NasariACS" "isrm" = Ok grid /\
         grids !! popName = Some grid) /\
    (forall popName, popName ∉ popNames -> grids !! popName = grids0 !! popName).
Proof.
  induction popNames as [|p rest IH]; intros grids0 Hq.
  - exists grids0. repeat split; auto. intros q Hin. now apply elem_of_nil in Hin.
  - destruct (Hq p) as (grid & Hgrid & Hlen); [constructor|].
    destruct (IH (<[p := grid]> grids0)) as (grids & Hl & Hin & Hout).
    { intros q Hin. apply Hq. now constructor. }
    exists grids. cbn [gridsLoop]. rewrite Hgrid. cbn [mbind outcome_bind].
    rewrite Hlen, Nat.eqb_refl. cbn [negb]. repeat split; auto.
    + intros q Hq'. destruct (decide (q ∈ rest)) as [Hr|Hr]; [now apply Hin|].
      apply elem_of_cons in Hq' as [->|Hq']; [|contradiction].
      exists grid. split; auto. rewrite (Hout p Hr). apply lookup_insert_eq.
    + intros q Hq'. apply not_elem_of_cons in Hq' as [Hne Hq'].
      rewrite (Hout q Hq'). now apply lookup_insert_ne.
Qed.

Lemma readTotal_zeroTotals (popNames : list string) (k : string) :
  readTotal (zeroTotals popNames) k = f0.
Proof.
  unfold zeroTotals.
  assert (Hgen : forall m : gmap string F, readTotal m k = f0 ->
            readTotal (foldl (fun popTotals pop => <[pop := f0]> popTotals) m popNames) k = f0).
  { induction popNames as [|p rest IH]; intros m Hm; cbn [foldl]; auto.
    apply IH. unfold readTotal in *. rewrite lookup_insert.
    now destruct (decide (p = k)). }
  apply Hgen. unfold readTotal. now rewrite lookup_empty.
Qed.

Section ExactProducts.
Hypothesis laws : MulLaws F.

Lemma addTo_scaled (k : F) (ex : gmap string F) (popName : string) (n c : F) :
  addTo (fmul k <$> ex) popName (fmul n (fmul k c)) =
  fmul k <$> addTo ex popName (fmul n c).
Proof.
  unfold addTo. rewrite fmap_insert, lookup_fmap. f_equal.
  rewrite (fmul_add_distr laws).
  replace (fmul n (fmul k c)) with (fmul k (fmul n c)).
  2:{ rewrite !(fmul_assoc laws). now rewrite (fmul_comm laws k n). }
  f_equal. destruct (ex !! popName); cbn; auto. now rewrite (fmul_0_r laws).
Qed.

Lemma popLoop_scaled (k : F) (grids : gmap string (list F)) (gridIdx : nat) (c : F) :
  forall (popNames : list string) (pt ex : gmap string F),
  popLoop grids gridIdx (fmul k c) popNames (pt, fmul k <$> ex) =
  scaleExposure k (popLoop grids gridIdx c popNames (pt, ex)).
Proof.
  induction popNames as [|popName rest IH]; intros pt ex; cbn [popLoop]; auto.
  destruct (grids !! popName ≫= _) as [n|]; auto.
  cbn [fst snd]. rewrite addTo_scaled. apply IH.
Qed.

Lemma gridLoop_scaled (k : F) (grids : gmap string (list F)) (popNames : list string) :
  forall (conc : list F) (gridIdx : nat) (pt ex : gmap string F),
  gridLoop grids popNames gridIdx (fmul k <$> conc) (pt, fmul k <$> ex) =
  scaleExposure k (gridLoop grids popNames gridIdx conc (pt, ex)).
Proof.
  induction conc as [|c rest IH]; intros gridIdx pt ex; cbn [gridLoop fmap list_fmap]; auto.
  rewrite popLoop_scaled.
  destruct (popLoop grids gridIdx c popNames (pt, ex)) as [[pt' ex']| |];
    cbn [scaleExposure mbind outcome_bind]; auto.
Qed.
End ExactProducts.
End Stages.

(** ** Division by an empty group

    [float64(totalPop)/float64(0)] is positive infinity for a positive
    total: the division does not fail. *)

Lemma float64_of_int_pos_shape (t : Z) :
  0 < t < 2 ^ 63 ->
  Prim2SF (float64_of_int t) = S754_infinity false \/
  exists m e, Prim2SF (float64_of_int t) = S754_finite false m e.
Proof.
  intros Ht. unfold float64_of_int.
  destruct (Z.eqb_spec t (- 2 ^ 63)); [lia|]. destruct (Z.ltb_spec t 0); [lia|].
  rewrite of_uint63_spec, of_Z_spec. rewrite Z.mod_small by (change wB with (2 ^ 63); lia).
  destruct t as [|p|p]; try lia. cbn [binary_normalize].
  apply binary_round_pos_shape. lia.
Qed.

Lemma ratioOf_zero_count (totalPop : Z) :
  0 < totalPop < 2 ^ 63 -> ratioOf (F := float) totalPop 0 = infinity.
Proof.
  intros Ht. unfold ratioOf. cbn [fdiv fofInt binary64].
  apply Prim2SF_inj. rewrite FloatAxioms.div_spec.
  change (Prim2SF (float64_of_int 0)) with (S754_zero false).
  change (Prim2SF infinity) with (S754_infinity false).
  destruct (float64_of_int_pos_shape totalPop Ht) as [->|(m & e & ->)]; reflexivity.
Qed.

(** * The claims *)

Section Claims.
Context {F : Type} {arith : Float64 F}.
Context {Demograph Location Pollutant Matrix SCC : Type}.
Variable Pollutant_TotalPM25 : Pollutant.
Variable rpc2mat : Matrix -> mat.Dense F.
Implicit Types m : mat.Dense F.
Local Abbreviation Server := (@Server F Demograph Location Pollutant Matrix SCC).

(** ** PopulationAdjuster *)

(** When every query is answered and the matrix has a row per group,
    [populationAdjust] returns [nil] and has rescaled every row. *)
Lemma populationAdjust_spec (s : Server) m (dems : list Demograph)
    (counts : list Z) :
  queriedCounts s 2015 dems counts ->
  mat.wf m -> mat.rows m = length dems ->
  exists m', populationAdjust s m dems = (m', Ok ()) /\ rescaled counts m m'.
Proof.
  intros Hq Hwf Hrows. pose proof (Forall2_length _ _ _ Hq) as Hlen.
  destruct (rowLoop_spec (foldl intAdd 0 counts) counts (length dems) 0 m)
    as (m' & Hl & Hwf' & Hr' & Hc' & Hcells & _); auto; try lia.
  exists m'. unfold populationAdjust. rewrite (popCountLoop_all s dems counts Hq).
  cbn [mat.Dims]. rewrite Hrows, Nat.eqb_refl. cbn [negb]. rewrite Hl.
  unfold rescaled. repeat split; auto; try congruence.
  intros i k Hi Hk. apply Hcells; auto. lia.
Qed.

(** C3, as amended.  [populationAdjust] takes no year.  The count used
    for each group, and summed into [totalPop], is the provider's answer
    for the year 2015, whatever year the rest of the pipeline runs with:
    two servers that agree on 2015 give the same adjustment. *)
Theorem populationAdjust_counts_2015 (s : Server) (dems : list Demograph)
    (counts : list Z) :
  queriedCounts s 2015 dems counts ->
  popCountLoop s 0 dems 0 (replicate (length dems) 0) =
    Ok (foldl intAdd 0 counts, counts) /\
  forall (s' : Server) m,
    (forall dem, TotalPopulationCount s' dem 2015 = TotalPopulationCount s dem 2015) ->
    populationAdjust s' m dems = populationAdjust s m dems.
Proof.
  intros Hq. split.
  - now apply popCountLoop_all.
  - intros s' m Hext. now apply populationAdjust_ext.
Qed.

(** C10.  With a matrix whose row count is not the number of groups,
    [populationAdjust] leaves the matrix as it was and does not return
    [nil]: the row count is compared after the population queries and
    before any cell is written.  An error of a query is returned as it
    is; when all queries are answered, the error returned is the
    dimension mismatch. *)
Theorem populationAdjust_row_mismatch (s : Server) m (dems : list Demograph) :
  mat.rows m <> length dems ->
  (populationAdjust s m dems).1 = m /\
  (populationAdjust s m dems).2 <> Ok () /\
  (forall e, popCountLoop s 0 dems 0 (replicate (length dems) 0) = Err e ->
     populationAdjust s m dems = (m, Err e)) /\
  (forall counts, queriedCounts s 2015 dems counts ->
     populationAdjust s m dems =
       (m, Err (Errorf rowsVsDemsFormat
                       [Z.of_nat (mat.rows m); Z.of_nat (length dems)])) /\
     isDimensionMismatch
       (Errorf rowsVsDemsFormat [Z.of_nat (mat.rows m); Z.of_nat (length dems)]) = true).
Proof.
  intros Hne. unfold populationAdjust.
  assert (Hb : negb (mat.rows m =? length dems)%nat = true).
  { destruct (Nat.eqb_spec (mat.rows m) (length dems)); auto; contradiction. }
  split; [|split; [|split]].
  - destruct (popCountLoop _ _ _ _ _) as [[totalPop popCounts]| |]; auto.
    cbn [mat.Dims]. now rewrite Hb.
  - destruct (popCountLoop _ _ _ _ _) as [[totalPop popCounts]| |]; try discriminate.
    cbn [mat.Dims]. rewrite Hb. discriminate.
  - now intros e ->.
  - intros counts Hq. split; [|reflexivity].
    rewrite (popCountLoop_all s dems counts Hq).
    cbn [mat.Dims]. now rewrite Hb.
Qed.

(** ** SectorAggregator *)

(** C4, as amended.  The aggregation compares no lengths and returns no
    error of its own.  With no more values than the map has industries
    it succeeds and aggregates the industries it was given, as if the
    map ended there; with more values it panics with an index out of
    range at the first industry the map does not know. *)
Theorem aggregate_length_unchecked (values : list F) (industryToSCC : list (list Z))
    (n : nat) :
  (0 < n)%nat -> inRange n industryToSCC ->
  (forall e, aggregate values industryToSCC n <> Err e) /\
  ((length values <= length industryToSCC)%nat ->
     exists out, aggregate values industryToSCC n = Ok out /\ length out = n /\
       aggregate values (take (length values) industryToSCC) n = Ok out) /\
  ((length industryToSCC < length values)%nat ->
     aggregate values industryToSCC n = Panicked IndexOutOfRange).
Proof.
  intros Hn Hr. split; [|split].
  - intros e. apply aggregate_no_Err.
  - intros Hlen. destruct (aggregate_spec values industryToSCC n Hn Hlen Hr)
      as (out & Hout & Hl & _).
    exists out. repeat split; auto. rewrite <- Hout. unfold aggregate.
    now rewrite <- (industryLoop_take industryToSCC values 0).
  - intros Hlen. unfold aggregate. rewrite industryLoop_long; auto.
    + now rewrite length_replicate.
    + lia.
Qed.

(** C8, as amended.  Where every industry maps to one sector, each entry
    of the output is the left-to-right sum of the values mapped to it,
    and these groups of values are together the input, rearranged.  So
    the sum of the output is the sum of the input where addition is
    exact (associative and commutative); a rounded addition may give
    two different sums. *)
Theorem aggregate_sum_rearranged (values : list F) (industryToSCC : list (list Z))
    (n : nat) :
  (0 < n)%nat ->
  (length values <= length industryToSCC)%nat ->
  inRange n industryToSCC ->
  oneSectorEach industryToSCC ->
  exists out, aggregate values industryToSCC n = Ok out /\
    rearranged values industryToSCC n out.
Proof.
  intros Hn Hlen Hr Ho. eexists. split; [now apply aggregate_parts|].
  unfold rearranged. split; [reflexivity|].
  pose proof (contributions_partition n industryToSCC Hr Ho values Hlen) as Hperm.
  split; auto. intros laws.
  transitivity (foldl fadd f0 (concat (contributions values industryToSCC <$> seq 0 n))).
  - rewrite <- (vecSum_concat laws). unfold vecSum at 1. f_equal.
    now rewrite <- list_fmap_compose.
  - now apply foldl_fadd_perm.
Qed.

(** ** Emissions by sector and the demographic matrix *)

(** C5, as amended.  The emissions by sector are the sums of the columns
    of the emissions matrix, one column per sector, over its grid cells;
    the industry-to-SCC map has no part in them. *)
Theorem getEmissionsBySCC_column_sums (s : Server) (demand : Vector) (year : Z)
    (loc : Location) (emisRPC : Matrix) :
  EmissionsMatrix s demand year loc "isrm" = Ok emisRPC ->
  mat.wf (rpc2mat emisRPC) ->
  mat.cols (rpc2mat emisRPC) = length (SCCs s) ->
  (0 < length (SCCs s))%nat ->
  exists emis, getEmissionsBySCC rpc2mat demand s year loc = Ok emis /\
    columnSums (rpc2mat emisRPC) (length (SCCs s)) emis.
Proof.
  intros Hq Hwf Hc Hn. unfold getEmissionsBySCC. rewrite Hq.
  cbn [wrapErr mbind outcome_bind]. cbn [mat.Dims]. rewrite Hc, Nat.eqb_refl. cbn [negb].
  destruct (sectorLoop_spec (rpc2mat emisRPC) Hwf (length (SCCs s)) 0
                            (replicate (length (SCCs s)) f0))
    as (out & -> & Hlen & Hnew & _); [lia|rewrite length_replicate; lia|].
  rewrite length_replicate in Hlen. cbn [mbind outcome_bind].
  rewrite NewVecDense_Ok by lia. exists out. repeat split; auto.
  intros j Hj. apply Hnew. lia.
Qed.

(** C6.  For a group list that is not empty, when the emissions by
    sector and every group's consumption by sector are obtained,
    [demAndEmissions] returns a matrix with a row per group and a column
    per sector whose cell (group, sector) is the product of that group's
    consumption in the sector and the emissions of the sector, together
    with the list of sectors. *)
Theorem demAndEmissions_hadamard (s : Server) (demand : Vector) (dems : list Demograph)
    (year : Z) (loc : Location) (emis : list F) :
  dems <> [] ->
  getEmissionsBySCC rpc2mat demand s year loc = Ok emis ->
  Forall (fun dem => exists v, getConsumptionBySCC s dem year = Ok v) dems ->
  exists m, demAndEmissions rpc2mat s demand dems year loc = Ok (m, SCCs s) /\
    hadamard s year dems emis m.
Proof.
  intros Hne Hemis Hok.
  assert (Hd : (0 < length dems)%nat) by (destruct dems; [congruence|cbn; lia]).
  destruct (getEmissionsBySCC_length rpc2mat s demand year loc emis Hemis) as [Hle Hn].
  destruct (NewDense_Ok (length dems) (length (SCCs s)) Hd Hn)
    as (m0 & Hnew & Hwf0 & Hr0 & Hc0).
  destruct (demLoop_spec s year emis Hle dems 0 m0)
    as (m' & Hl & Hwf' & Hr' & Hc' & Hcells & _); auto; try lia.
  exists m'. unfold demAndEmissions. rewrite Hemis. cbn [wrapErr mbind outcome_bind].
  rewrite Hnew. cbn [mbind outcome_bind]. rewrite Hl. cbn [mbind outcome_bind].
  unfold hadamard. repeat split; auto; try congruence.
  intros g dem k Hg Hk. apply (Hcells g dem k Hg). lia.
Qed.

(** ** ExposureCalculator *)

(** The totals the loops of [getExposureByPopulation] compute: for
    population names without repetition and grids as long as the
    concentration vector, the exposure of a group is the sum over grid
    cells of population times concentration, and its population total the
    sum of its grid. *)
Lemma exposureLocals_totals (s : Server) (year : Z) (loc : Location) (demand vec : Vector)
    (popNames : list string) :
  Concentrations s demand Pollutant_TotalPM25 year loc "isrm" = (Some vec, None) ->
  Populations s = Ok popNames ->
  NoDup popNames ->
  (forall popName, popName ∈ popNames ->
     exists grid, PopulationIncidence s year popName "NasariACS" "isrm" = Ok grid /\
       length grid = length (Data vec)) ->
  exists popTotals exposureByPop,
    exposureLocals Pollutant_TotalPM25 s year loc demand = Ok (popTotals, exposureByPop) /\
    forall popName grid, popName ∈ popNames ->
      PopulationIncidence s year popName "NasariACS" "isrm" = Ok grid ->
      readTotal exposureByPop popName = exposureOf grid (Data vec) /\
      readTotal popTotals popName = vecSum grid.
Proof.
  intros Hc Hp Hnd Hq.
  destruct (gridsLoop_spec s year (Data vec) popNames ∅ Hq) as (grids & Hl & Hin & _).
  destruct (gridLoop_spec grids popNames Hnd (Data vec) 0 (zeroTotals popNames) ∅)
    as (pt & ex & Hg & Hv).
  { intros q Hq'. destruct (Hin q Hq') as (grid & Hgrid & Hlook).
    destruct (Hq q Hq') as (grid' & Hgrid' & Hlen).
    exists grid. split; auto. rewrite Hgrid in Hgrid'. injection Hgrid' as <-. lia. }
  exists pt, ex. unfold exposureLocals. rewrite Hc, Hp. cbn [mbind outcome_bind].
  rewrite Hl. cbn [mbind outcome_bind]. split; auto.
  intros q grid Hq' Hgrid.
  destruct (Hin q Hq') as (grid' & Hgrid' & Hlook).
  rewrite Hgrid in Hgrid'. injection Hgrid' as <-.
  destruct (Hv q grid Hq' Hlook) as [Hpt Hex].
  rewrite drop_0 in Hpt, Hex. rewrite readTotal_zeroTotals in Hpt.
  destruct (Hq q Hq') as (grid' & Hgrid' & Hlen).
  rewrite Hgrid in Hgrid'. injection Hgrid' as <-.
  rewrite <- Hlen, firstn_all in Hpt. split; [|exact Hpt].
  rewrite Hex. unfold exposureOf, vecSum, readTotal. now rewrite lookup_empty.
Qed.

(** Where multiplication is exact, multiplying every concentration by
    [k] multiplies every exposure total by [k] and changes nothing else:
    population totals, errors and panics are the same. *)
Lemma exposureLocals_scaled (laws : MulLaws F) (k : F) (s : Server) (year : Z)
    (loc : Location) (demand : Vector) :
  exposureLocals Pollutant_TotalPM25 (scaleConcentrations k s) year loc demand =
  scaleExposure k (exposureLocals Pollutant_TotalPM25 s year loc demand).
Proof.
  unfold exposureLocals. cbn [Concentrations scaleConcentrations Populations].
  destruct (Concentrations s demand Pollutant_TotalPM25 year loc "isrm") as [[v|] [e|]];
    cbn [fmap option_fmap option_map scaleExposure]; auto.
  destruct (Populations s) as [popNames| |]; cbn [mbind outcome_bind scaleExposure]; auto.
  cbn [Data scaleVector]. rewrite gridsLoop_scaled.
  destruct (gridsLoop s year (Data v) popNames ∅) as [grids| |];
    cbn [mbind outcome_bind scaleExposure]; auto.
  rewrite <- (gridLoop_scaled laws). now rewrite fmap_empty.
Qed.

Lemma readTotal_scaled (laws : MulLaws F) (k : F) (ex : gmap string F) (popName : string) :
  readTotal (fmul k <$> ex) popName = fmul k (readTotal ex popName).
Proof.
  unfold readTotal. rewrite lookup_fmap.
  destruct (ex !! popName); cbn; auto. now rewrite (fmul_0_r laws).
Qed.

(** C9, as amended.  For population names without repetition and grids
    as long as the concentration vector, the exposure total that
    [getExposureByPopulation] computes for a group is the sum over grid
    cells of population times concentration, and with every concentration
    multiplied by [k] it is the sum of population times ([k] times
    concentration).  The second is [k] times the first where
    multiplication is exact (associative, commutative, distributing over
    addition); a rounded multiplication may give another number. *)
Theorem exposure_scaling (k : F) (s : Server) (year : Z) (loc : Location)
    (demand vec : Vector) (popNames : list string) :
  Concentrations s demand Pollutant_TotalPM25 year loc "isrm" = (Some vec, None) ->
  Populations s = Ok popNames ->
  NoDup popNames ->
  (forall popName, popName ∈ popNames ->
     exists grid, PopulationIncidence s year popName "NasariACS" "isrm" = Ok grid /\
       length grid = length (Data vec)) ->
  exists popTotals exposureByPop popTotals' scaled,
    exposureLocals Pollutant_TotalPM25 s year loc demand = Ok (popTotals, exposureByPop) /\
    exposureLocals Pollutant_TotalPM25 (scaleConcentrations k s) year loc demand
      = Ok (popTotals', scaled) /\
    scaledTotals k s year (Data vec) popNames exposureByPop scaled.
Proof.
  intros Hc Hp Hnd Hq.
  destruct (exposureLocals_totals s year loc demand vec popNames
              Hc Hp Hnd Hq) as (pt & ex & Hrun & Htot).
  destruct (exposureLocals_totals (scaleConcentrations k s) year loc
              demand (scaleVector k vec) popNames) as (pt' & ex' & Hrun' & Htot'); auto.
  { cbn [Concentrations scaleConcentrations]. now rewrite Hc. }
  { intros q Hin. destruct (Hq q Hin) as (grid & Hgrid & Hlen).
    exists grid. split; auto. cbn [Data scaleVector]. now rewrite length_fmap. }
  exists pt, ex, pt', ex'. split; [|split]; auto.
  intros q grid Hin Hgrid.
  destruct (Htot q grid Hin Hgrid) as [Hex _].
  destruct (Htot' q grid Hin Hgrid) as [Hex' _].
  split; [|split]; auto.
  intros laws. pose proof (exposureLocals_scaled laws k s year loc demand) as Heq.
  rewrite Hrun, Hrun' in Heq. cbn [scaleExposure] in Heq. injection Heq as _ ->.
  now apply readTotal_scaled.
Qed.

End Claims.

(** ** PopulationAdjuster over doubles *)

Lemma wrap64_range (z : Z) : - 2 ^ 63 <= wrap64 z < 2 ^ 63.
Proof.
  unfold wrap64. pose proof (Z.mod_pos_bound (z + 2 ^ 63) (2 ^ 64) ltac:(lia)). lia.
Qed.

Lemma total_range (counts : list Z) : - 2 ^ 63 <= foldl intAdd 0 counts < 2 ^ 63.
Proof.
  induction counts as [|c counts IH] using rev_ind.
  - cbn. lia.
  - rewrite foldl_app. cbn [foldl]. apply wrap64_range.
Qed.

Section AdjustDoubles.
Context {Demograph Location Pollutant Matrix SCC : Type}.

(** C1, as amended.  [populationAdjust] has no check for an empty group
    and returns no division-by-zero error.  When the provider answers
    every query and the matrix has one row per group, it returns [nil]
    and every cell (i, k) has become the cell times
    [float64(totalPop)/float64(popCount_i)], [totalPop] being the sum of
    the counts.  A count of zero is no exception: with a positive total
    its ratio is positive infinity, and every cell of that group's row is
    multiplied by it. *)
Theorem populationAdjust_rescales
    (s : @Server float Demograph Location Pollutant Matrix SCC) (m : mat.Dense float)
    (dems : list Demograph) (counts : list Z) :
  queriedCounts s 2015 dems counts ->
  mat.wf m -> mat.rows m = length dems ->
  exists m', populationAdjust s m dems = (m', Ok ()) /\
    rescaled counts m m' /\ emptyGroupRows counts m m'.
Proof.
  intros Hq Hwf Hrows.
  destruct (populationAdjust_spec s m dems counts Hq Hwf Hrows) as (m' & Hm' & Hres).
  exists m'. split; [|split]; auto.
  intros i k Hi Hpos Hk. destruct Hres as (_ & _ & _ & Hcells).
  destruct (Hcells i k) as (x & c & Hx & Hc & Hx'); auto.
  { apply lookup_lt_Some in Hi. apply Forall2_length in Hq. lia. }
  exists x. split; auto. rewrite Hi in Hc. injection Hc as <-.
  rewrite ratioOf_zero_count in Hx'; auto.
  pose proof (total_range counts). lia.
Qed.
End AdjustDoubles.

(** ** SectorAggregator over doubles *)

(** C7.  Full-value fan-out.  For a map whose entries are sets of sector
    indices below [numSectors] and a vector with no more values than the
    map has industries, the aggregation returns a vector of length
    [numSectors] whose entry [s] is the sum, in industry order, of the
    values of all industries whose entry contains [s].  For non-negative
    values an industry mapped to a sector makes that sector's entry at
    least its value (the value is added whole to each of its sectors), and
    a sector that no entry names stays zero. *)
Theorem aggregate_fan_out (values : list float) (industryToSCC : list (list Z)) (n : nat) :
  (0 < n)%nat ->
  (length values <= length industryToSCC)%nat ->
  inRange n industryToSCC ->
  entriesAreSets industryToSCC ->
  exists out, aggregate values industryToSCC n = Ok out /\
    fanOut values industryToSCC n out.
Proof.
  intros Hn Hlen Hr Hsets.
  destruct (aggregate_spec values industryToSCC n Hn Hlen Hr) as (out & Hout & Hl & Hv).
  assert (Hsum : forall s, (s < n)%nat ->
            out !! s = Some (vecSum (contributors values industryToSCC s))).
  { intros s Hs. rewrite (Hv s Hs). now rewrite contributions_sets. }
  exists out. split; auto. unfold fanOut. split; [|split; [|split]]; auto.
  - intros Hpos i v sccs a Hi Hs Ha.
    assert (Han : (a < n)%nat).
    { unfold inRange in Hr. rewrite Forall_lookup in Hr. specialize (Hr i sccs Hs).
      rewrite Forall_forall in Hr. specialize (Hr _ Ha). lia. }
    eexists. split; [now apply Hsum|].
    apply (float_sum_ge (contributors values industryToSCC a)).
    + apply Forall_forall. intros w Hw. apply contributors_subset in Hw.
      rewrite Forall_forall in Hpos. now apply Hpos.
    + reflexivity.
    + now apply (contributors_elem values industryToSCC a i v sccs).
  - intros s Hs Hno. rewrite (Hsum s Hs).
    now rewrite contributors_unreferenced.
Qed.

(** ** The value returned by [getExposureByPopulation] *)

Lemma getExposureByPopulation_nil {F : Type} {arith : Float64 F}
    {Demograph Location Pollutant Matrix SCC : Type} (pm25 : Pollutant)
    (s : @Server F Demograph Location Pollutant Matrix SCC) (year : Z) (loc : Location)
    (demand : Vector) (result : gmap string F) :
  getExposureByPopulation pm25 s year loc demand <> Ok (Some result).
Proof.
  unfold getExposureByPopulation.
  destruct (exposureLocals _ _ _ _ _); cbn [mbind outcome_bind]; discriminate.
Qed.

(** C2.  The loops of [getExposureByPopulation] compute the exposure
    totals of the claim, 2500 for group A and 750 for group B in its
    scenario, but the function returns [nil] in place of the mapping, in
    the scenario and for every other input. *)
Theorem getExposureByPopulation_returns_nil :
  (forall (F : Type) (arith : Float64 F) (Demograph Location Pollutant Matrix SCC : Type)
          (pm25 : Pollutant) (s : @Server F Demograph Location Pollutant Matrix SCC)
          (year : Z) (loc : Location) (demand : Vector) (result : gmap string F),
     getExposureByPopulation pm25 s year loc demand <> Ok (Some result)) /\
  getExposureByPopulation tt Scenario.pipeline 2015 tt Scenario.demand = Ok None /\
  exposureTotal (exposureLocals tt Scenario.pipeline 2015 tt Scenario.demand) "A"
    = Some 2500%float /\
  exposureTotal (exposureLocals tt Scenario.pipeline 2015 tt Scenario.demand) "B"
    = Some 750%float.
Proof.
  split; [|split; [|split]].
  - intros. apply getExposureByPopulation_nil.
  - vm_compute. reflexivity.
  - vm_compute. reflexivity.
  - vm_compute. reflexivity.
Qed.

(** The end-to-end scenario of the specification: the matrix before the
    adjustment, and after it with populations 100 and 300. *)
Example pipeline_end_to_end :
  demAndEmissions Scenario.rpc2mat Scenario.pipeline Scenario.demand [0; 1]%nat 2015 tt
    = Ok (mat.mkDense 2 2 [10; 20; 30; 20]%float, SCCs Scenario.pipeline) /\
  populationAdjust Scenario.pipeline (mat.mkDense 2 2 [10; 20; 30; 20]%float) [0; 1]%nat
    = (mat.mkDense 2 2 [40; 80; 30 * (400 / 300); 20 * (400 / 300)]%float, Ok ()).
Proof. split; vm_compute; reflexivity. Qed.

(** ** Counterexamples to the claims as the specification states them *)

(** C1.  A group with no population: [populationAdjust] returns [nil]
    and has overwritten the matrix, the row of the empty group with
    infinity. *)
Lemma populationAdjust_zero_population :
  TotalPopulationCount Scenario.zeroPopulation 0%nat 2015 = Ok 0 /\
  populationAdjust Scenario.zeroPopulation Scenario.twoByOne [0; 1]%nat =
    (mat.mkDense 2 1 [infinity; 2]%float, Ok ()).
Proof. split; vm_compute; reflexivity. Qed.

(** C3.  A provider whose first group had 3 members in 2003 and has 15
    in 2015: the counts [populationAdjust] uses are those of 2015, and
    the rows are multiplied by 20/15 and 20/5, not by 8/3 and 8/5. *)
Lemma populationAdjust_ignores_year :
  queriedCounts Scenario.growing 2003 [0; 1]%nat [3; 5] /\
  popCountLoop Scenario.growing 0 [0; 1]%nat 0 (replicate 2 0) = Ok (20, [15; 5]) /\
  populationAdjust Scenario.growing Scenario.twoByOne [0; 1]%nat =
    (mat.mkDense 2 1 [1 * (20 / 15); 2 * (20 / 5)]%float, Ok ()).
Proof. split; [repeat constructor|split; vm_compute; reflexivity]. Qed.

(** C4.  A vector shorter than the map is aggregated without an error;
    a longer one ends in a panic, not in an error. *)
Lemma aggregate_accepts_any_length :
  (length [7]%float <> length [[0]; [0]]) /\
  aggregate [7]%float [[0]; [0]] 1 = Ok [7]%float /\
  (length [7; 8]%float <> length [[0]]) /\
  aggregate [7; 8]%float [[0]] 1 = Panicked IndexOutOfRange.
Proof. repeat split; try discriminate; vm_compute; reflexivity. Qed.

(** C5.  With both industries mapped to sector 0 the emissions by
    sector are still the column sums [10, 20], which no aggregation
    through that map can return: its second entry is always zero. *)
Lemma emissions_not_aggregated :
  getEmissionsBySCC Scenario.rpc2mat Scenario.demand Scenario.merged 2015 tt
    = Ok [10; 20]%float /\
  forall values : list float,
    aggregate values (IndustryToSCCMap Scenario.merged) (length (SCCs Scenario.merged))
      <> Ok [10; 20]%float.
Proof.
  split; [vm_compute; reflexivity|].
  intros values Heq.
  assert (Hz : forall x : float, Ok [x; 0%float] <> Ok [10; 20]%float).
  { intros x H. apply (f_equal (fun r => match r with
                                      | Ok [_; y] => PrimFloat.eqb y 0
                                      | _ => false
                                      end)) in H.
    vm_compute in H. discriminate. }
  destruct values as [|a [|b [|c rest]]]; cbn in Heq.
  - now apply Hz in Heq.
  - now apply Hz in Heq.
  - now apply Hz in Heq.
  - discriminate.
Qed.

(** C8.  Three industries, each mapped to one sector: the output sums
    to 10000000000000002 and the input to 10000000000000000. *)
Lemma aggregate_sum_not_preserved :
  oneSectorEach [[1]; [0]; [0]] /\
  aggregate [1e16; 1; 1]%float [[1]; [0]; [0]] 2 = Ok [2; 1e16]%float /\
  vecSum [2; 1e16]%float = 10000000000000002%float /\
  vecSum [1e16; 1; 1]%float = 1e16%float /\
  PrimFloat.eqb 10000000000000002 1e16 = false.
Proof. repeat split; try (repeat constructor); vm_compute; reflexivity. Qed.

(** C9.  One person in each of two cells: the exposure is 1e16, three
    times that is 3e16, and the exposure for the tripled concentrations
    is 30000000000000004. *)
Lemma exposure_scaling_rounds :
  exposureTotal (exposureLocals tt Scenario.uneven 2015 tt Scenario.demand) "A"
    = Some 1e16%float /\
  exposureTotal
    (exposureLocals tt (scaleConcentrations 3%float Scenario.uneven) 2015 tt Scenario.demand)
    "A" = Some 30000000000000004%float /\
  fmul 3%float 1e16%float = 3e16%float /\
  PrimFloat.eqb 30000000000000004 3e16 = false.
Proof. repeat split; vm_compute; reflexivity. Qed.

(** ** The theorems at concrete inputs *)

(** Exact integers satisfy the laws of addition and of multiplication. *)
Lemma exactZ_AddLaws : @AddLaws Z exactZ.
Proof. constructor; cbn; intros; ring. Qed.

Lemma exactZ_MulLaws : @MulLaws Z exactZ.
Proof. constructor; cbn; intros; ring. Qed.

(** C1: the empty-group scenario. *)
Lemma populationAdjust_rescales_witness :
  queriedCounts Scenario.zeroPopulation 2015 [0; 1]%nat [0; 5] /\
  exists m',
    populationAdjust Scenario.zeroPopulation Scenario.twoByOne [0; 1]%nat = (m', Ok ()) /\
    rescaled [0; 5] Scenario.twoByOne m' /\ emptyGroupRows [0; 5] Scenario.twoByOne m'.
Proof.
  split; [repeat constructor|].
  apply (populationAdjust_rescales Scenario.zeroPopulation Scenario.twoByOne [0; 1]%nat [0; 5]);
    [repeat constructor | reflexivity | reflexivity].
Defined.

(** C3: the growing-group scenario. *)
Lemma populationAdjust_counts_2015_witness :
  queriedCounts Scenario.growing 2015 [0; 1]%nat [15; 5] /\
  popCountLoop Scenario.growing 0 [0; 1]%nat 0 (replicate 2 0) = Ok (20, [15; 5]).
Proof.
  split; [repeat constructor|].
  apply (populationAdjust_counts_2015 Scenario.growing [0; 1]%nat [15; 5]).
  repeat constructor.
Defined.

(** C10: three groups and a matrix of two rows. *)
Lemma populationAdjust_row_mismatch_witness :
  mat.rows Scenario.twoByOne <> length [0; 1; 2]%nat /\
  (populationAdjust Scenario.pipeline Scenario.twoByOne [0; 1; 2]%nat).1 = Scenario.twoByOne.
Proof.
  split; [cbn; lia|].
  apply (populationAdjust_row_mismatch Scenario.pipeline Scenario.twoByOne [0; 1; 2]%nat).
  cbn. lia.
Defined.

(** C4: one value and two industries. *)
Lemma aggregate_length_unchecked_witness :
  inRange 1 [[0]; [0]] /\
  forall e, aggregate [7]%float [[0]; [0]] 1 <> Err e.
Proof.
  split; [repeat constructor; lia|].
  apply (aggregate_length_unchecked [7]%float [[0]; [0]] 1); [lia|repeat constructor; lia].
Defined.

(** C8: the three industries of the counterexample. *)
Lemma aggregate_sum_rearranged_witness :
  oneSectorEach [[1]; [0]; [0]] /\
  exists out, aggregate [1e16; 1; 1]%float [[1]; [0]; [0]] 2 = Ok out /\
    rearranged [1e16; 1; 1]%float [[1]; [0]; [0]] 2 out.
Proof.
  split; [repeat constructor|].
  apply (aggregate_sum_rearranged [1e16; 1; 1]%float [[1]; [0]; [0]] 2);
    [lia | cbn; lia | repeat constructor; lia | repeat constructor].
Defined.

(** C5: the end-to-end scenario. *)
Lemma getEmissionsBySCC_column_sums_witness :
  exists emis,
    getEmissionsBySCC Scenario.rpc2mat Scenario.demand Scenario.pipeline 2015 tt = Ok emis /\
    columnSums (mat.mkDense 2 2 [4; 15; 6; 5]%float) 2 emis.
Proof.
  apply (getEmissionsBySCC_column_sums Scenario.rpc2mat Scenario.pipeline Scenario.demand
           2015 tt (mat.mkDense 2 2 [4; 15; 6; 5]%float));
    [reflexivity | reflexivity | reflexivity | cbn; lia].
Defined.

(** C6: the end-to-end scenario. *)
Lemma demAndEmissions_hadamard_witness :
  exists m,
    demAndEmissions Scenario.rpc2mat Scenario.pipeline Scenario.demand [0; 1]%nat 2015 tt
      = Ok (m, SCCs Scenario.pipeline) /\
    hadamard Scenario.pipeline 2015 [0; 1]%nat [10; 20]%float m.
Proof.
  apply (demAndEmissions_hadamard Scenario.rpc2mat Scenario.pipeline Scenario.demand
           [0; 1]%nat 2015 tt [10; 20]%float).
  - discriminate.
  - vm_compute. reflexivity.
  - repeat constructor; eexists; vm_compute; reflexivity.
Defined.

(** C9: one person in each of two cells, concentrations tripled. *)
Lemma exposure_scaling_witness :
  exists popTotals exposureByPop popTotals' scaled,
    exposureLocals tt Scenario.uneven 2015 tt Scenario.demand
      = Ok (popTotals, exposureByPop) /\
    exposureLocals tt (scaleConcentrations 3%float Scenario.uneven) 2015 tt Scenario.demand
      = Ok (popTotals', scaled) /\
    scaledTotals 3%float Scenario.uneven 2015 [1e16; 1]%float ["A"] exposureByPop scaled.
Proof.
  apply (exposure_scaling tt 3%float Scenario.uneven 2015 tt Scenario.demand
           (mkVector [1e16; 1]%float) ["A"]).
  - reflexivity.
  - reflexivity.
  - apply NoDup_singleton.
  - intros popName _. eexists. split; reflexivity.
Defined.

(** The exposure scenario over exact integers, tripled: every total is
    tripled. *)
Example exposure_tripled_exact :
  exposureLocals (arith := exactZ) tt
    (scaleConcentrations (arith := exactZ) 3 Scenario.exactExposure) 2015 tt (mkVector [])
  = scaleExposure (arith := exactZ) 3
      (exposureLocals (arith := exactZ) tt Scenario.exactExposure 2015 tt (mkVector [])).
Proof.
  apply (@exposureLocals_scaled Z exactZ nat unit unit (mat.Dense Z) string tt
           exactZ_MulLaws 3 Scenario.exactExposure 2015 tt (mkVector [])).
Qed.

(** C7: three industries, the second mapped to both sectors. *)
Lemma aggregate_fan_out_witness :
  entriesAreSets [[0]; [0; 1]; [1]] /\
  exists out, aggregate [1; 2; 3]%float [[0]; [0; 1]; [1]] 2 = Ok out /\
    fanOut [1; 2; 3]%float [[0]; [0; 1]; [1]] 2 out.
Proof.
  assert (Hsets : entriesAreSets [[0]; [0; 1]; [1]]).
  { apply (bool_decide_unpack _). vm_compute. reflexivity. }
  split; [exact Hsets|].
  apply (aggregate_fan_out [1; 2; 3]%float [[0]; [0; 1]; [1]] 2);
    [lia | cbn; lia | repeat constructor; lia | exact Hsets].
Defined.

(** * Further properties of the code

    What the functions do beside the claims: the errors they return and
    the panics they end in, what they leave untouched, how the stages
    fit together in [emissionsAndDemTesting]. *)

(** ** Reading back a result *)

Section Outcomes.
Context {A B : Type}.

Lemma bind_Ok_inv (m : outcome A) (f : A -> outcome B) (b : B) :
  m ≫= f = Ok b -> exists a, m = Ok a /\ f a = Ok b.
Proof. destruct m as [a| |]; cbn; [eauto|discriminate..]. Qed.

Lemma bind_Err_inv (m : outcome A) (f : A -> outcome B) (e : error) :
  m ≫= f = Err e -> m = Err e \/ exists a, m = Ok a /\ f a = Err e.
Proof. destruct m as [a| |]; cbn; [eauto|intros [= ->]; auto|discriminate]. Qed.

Lemma wrapErr_Ok_inv (m : outcome A) (msg : string) (a : A) :
  wrapErr m msg = Ok a -> m = Ok a.
Proof. destruct m; cbn; congruence. Qed.

Lemma wrapErr_Err_inv (m : outcome A) (msg : string) (e : error) :
  wrapErr m msg = Err e -> exists e0, m = Err e0 /\ e = Wrap e0 msg.
Proof. destruct m; cbn; [discriminate|intros [= <-]; eauto|discriminate]. Qed.

Lemma mapM_no_Err (f : A -> outcome B) (l : list A) (e : error) :
  (forall a e', f a <> Err e') -> mapM f l <> Err e.
Proof.
  intros Hf. revert e. induction l as [|a l IH]; intros e; cbn; [discriminate|].
  destruct (f a) as [b|e1|] eqn:E; cbn; [|now apply Hf in E|discriminate].
  destruct (mapM f l) as [bs|e2|]; cbn; [discriminate|now destruct (IH e2)|discriminate].
Qed.
End Outcomes.

(** ** The aggregation with any industry-to-SCC map *)

Section Occurrences.
Context {F : Type} {arith : Float64 F}.

Lemma hits_replicate (sccs : list Z) (s : nat) (v : F) :
  hits sccs s v = replicate (timesNamed sccs s) v.
Proof.
  unfold hits, timesNamed.
  induction (filter (fun i => i = Z.of_nat s) sccs) as [|i l IH]; cbn; congruence.
Qed.

Lemma contributions_addends (values : list F) (industryToSCC : list (list Z)) (s : nat) :
  contributions values industryToSCC s = addends values industryToSCC s.
Proof.
  unfold contributions, addends. f_equal.
  revert industryToSCC. induction values as [|v rest IH]; intros [|sccs m]; cbn; auto.
  now rewrite hits_replicate, IH.
Qed.

Lemma addends_take (values : list F) (industryToSCC : list (list Z)) (s : nat) :
  addends values (take (length values) industryToSCC) s = addends values industryToSCC s.
Proof.
  unfold addends. f_equal.
  revert industryToSCC. induction values as [|v rest IH]; intros [|sccs m]; cbn; auto.
  now rewrite IH.
Qed.

Lemma aggregate_take (values : list F) (industryToSCC : list (list Z)) (n : nat) :
  aggregate values (take (length values) industryToSCC) n = aggregate values industryToSCC n.
Proof.
  unfold aggregate.
  now rewrite <- (industryLoop_take industryToSCC values 0 (replicate n f0)).
Qed.

Lemma aggregate_addends (values : list F) (industryToSCC : list (list Z)) (n : nat) :
  (0 < n)%nat ->
  (length values <= length industryToSCC)%nat ->
  inRange n (take (length values) industryToSCC) ->
  aggregate values industryToSCC n =
    Ok ((fun s => vecSum (addends values industryToSCC s)) <$> seq 0 n).
Proof.
  intros Hn Hlen Hr. rewrite <- aggregate_take.
  rewrite aggregate_parts; auto; [|rewrite length_take; lia].
  f_equal. apply list_fmap_ext. intros _ s _.
  now rewrite contributions_addends, addends_take.
Qed.

(** X1.  The aggregation loop of [getConsumptionBySCC] does not take an
    industry's entry for a set: the value of an industry is added to a
    sector once for every time the sector index stands in the entry, so
    an index written twice counts the value twice.  With as many map
    entries as values, and the indices of those entries in range, the
    result holds for every sector the left-to-right sum of these
    addends. *)
Theorem aggregate_counts_occurrences (values : list F) (industryToSCC : list (list Z))
    (n : nat) :
  (0 < n)%nat ->
  (length values <= length industryToSCC)%nat ->
  inRange n (take (length values) industryToSCC) ->
  aggregate values industryToSCC n =
    Ok ((fun s => vecSum (addends values industryToSCC s)) <$> seq 0 n).
Proof. apply aggregate_addends. Qed.

Lemma sccLoop_out_of_range (v : F) (sccs : list Z) : forall acc : list F,
  ~ Forall (fun i => 0 <= i < Z.of_nat (length acc)) sccs ->
  sccLoop v sccs acc = Panicked IndexOutOfRange.
Proof.
  induction sccs as [|i rest IH]; intros acc Hbad.
  - destruct Hbad. constructor.
  - cbn [sccLoop]. unfold addAt. destruct (Z.ltb_spec i 0) as [Hneg|Hpos]; auto.
    destruct (acc !! Z.to_nat i) as [x|] eqn:Hx; auto.
    cbn [mbind outcome_bind]. apply IH. rewrite length_insert. intros Hrest.
    apply Hbad. constructor; auto. apply lookup_lt_Some in Hx. lia.
Qed.

Lemma industryLoop_out_of_range (industryToSCC : list (list Z)) (values : list F) :
  forall (idx : nat) (acc : list F),
  (idx + length values <= length industryToSCC)%nat ->
  ~ inRange (length acc) (take (length values) (drop idx industryToSCC)) ->
  industryLoop industryToSCC idx values acc = Panicked IndexOutOfRange.
Proof.
  induction values as [|v rest IH]; intros idx acc Hlen Hbad.
  - destruct Hbad. cbn. constructor.
  - cbn [length] in Hlen, Hbad. cbn [industryLoop].
    destruct (lookup_lt_is_Some_2 industryToSCC idx) as [sccs Hs]; [lia|].
    rewrite Hs. rewrite (drop_S _ _ _ Hs) in Hbad. cbn [take] in Hbad.
    destruct (decide (Forall (fun i => 0 <= i < Z.of_nat (length acc)) sccs)) as [Hin|Hout].
    + destruct (sccLoop_spec v sccs acc Hin) as (acc1 & -> & Hl1 & _).
      cbn [mbind outcome_bind]. apply IH; [lia|]. rewrite Hl1. intros Hrest.
      apply Hbad. constructor; auto.
    + now rewrite sccLoop_out_of_range.
Qed.

(** X2.  Sector indices are not checked before they are used.  Given a
    map entry for every value and at least one sector, the aggregation
    returns a vector exactly when every index in the entries it reads
    lies in [0, numSectors); otherwise it ends in an index-out-of-range
    panic, also for a negative index, and returns no error. *)
Theorem aggregate_succeeds_iff (values : list F) (industryToSCC : list (list Z)) (n : nat) :
  (0 < n)%nat ->
  (length values <= length industryToSCC)%nat ->
  ((exists out, aggregate values industryToSCC n = Ok out) <->
   inRange n (take (length values) industryToSCC)) /\
  (~ inRange n (take (length values) industryToSCC) ->
   aggregate values industryToSCC n = Panicked IndexOutOfRange).
Proof.
  intros Hn Hlen.
  assert (Hbad : ~ inRange n (take (length values) industryToSCC) ->
                 aggregate values industryToSCC n = Panicked IndexOutOfRange).
  { intros Hbad. unfold aggregate. rewrite industryLoop_out_of_range; auto.
    now rewrite length_replicate, drop_0. }
  split; auto. split.
  - intros [out Hout].
    destruct (decide (inRange n (take (length values) industryToSCC))) as [|Hno]; auto.
    rewrite (Hbad Hno) in Hout. discriminate.
  - intros Hr. eexists. now apply aggregate_addends.
Qed.

End Occurrences.

(** ** The errors of the stages *)

Section Failures.
Context {F : Type} {arith : Float64 F}.
Context {Demograph Location Pollutant Matrix SCC : Type}.
Variable Pollutant_TotalPM25 : Pollutant.
Variable rpc2mat : Matrix -> mat.Dense F.
Implicit Types m : mat.Dense F.
Local Abbreviation Server := (@Server F Demograph Location Pollutant Matrix SCC).

(** The operations of [mat] and the inner loops return no [error]. *)
Lemma At_no_Err m (i j : nat) (e : error) : mat.At m i j <> Err e.
Proof.
  unfold mat.At. destruct (negb _); [discriminate|]. destruct (negb _); [discriminate|].
  destruct (_ !! _); discriminate.
Qed.

Lemma Set_no_Err m (i j : nat) (v : F) (e : error) : mat.Set_ m i j v <> Err e.
Proof.
  unfold mat.Set_. destruct (negb _); [discriminate|]. destruct (negb _); [discriminate|].
  destruct (negb _); discriminate.
Qed.

Lemma ColView_no_Err m (j : nat) (e : error) : mat.ColView m j <> Err e.
Proof.
  unfold mat.ColView. destruct (negb _); [discriminate|].
  apply mapM_no_Err. intros i e'. apply At_no_Err.
Qed.

Lemma RawRowView_no_Err m (i : nat) (e : error) : mat.RawRowView m i <> Err e.
Proof.
  unfold mat.RawRowView. destruct (negb _); [discriminate|]. destruct (negb _); discriminate.
Qed.

Lemma NewVecDense_no_Err (n : nat) (d : list F) (e : error) : mat.NewVecDense n d <> Err e.
Proof.
  unfold mat.NewVecDense. destruct (_ =? _)%nat; [discriminate|].
  destruct (_ =? _)%nat; discriminate.
Qed.

Lemma NewDense_no_Err (r c : nat) (e : error) : mat.NewDense (F := F) r c <> Err e.
Proof. unfold mat.NewDense. destruct (_ || _); discriminate. Qed.

Lemma sumVec_no_Err (v : list F) : forall (n i : nat) (acc : F) (e : error),
  sumVec v i n acc <> Err e.
Proof.
  induction n as [|n IH]; intros i acc e; cbn [sumVec]; [discriminate|].
  unfold mat.AtVec. destruct (v !! i); cbn [mbind outcome_bind]; [apply IH|discriminate].
Qed.

Lemma sectorLoop_no_Err m : forall (n j : nat) (emisSCC : list F) (e : error),
  sectorLoop m j n emisSCC <> Err e.
Proof.
  induction n as [|n IH]; intros j emisSCC e; cbn [sectorLoop]; [discriminate|].
  destruct (mat.ColView m j) as [col|e1|] eqn:E1; cbn [mbind outcome_bind];
    [|now apply ColView_no_Err in E1|discriminate].
  destruct (sumVec col 0 (mat.Len col) f0) as [t|e2|] eqn:E2; cbn [mbind outcome_bind];
    [|now apply sumVec_no_Err in E2|discriminate].
  destruct (negb _); [discriminate|apply IH].
Qed.

Lemma cellLoop_no_Err (consumption emis : list F) (demIdx : nat) :
  forall (n sectorIdx : nat) (manualDot : F) m (e : error),
  cellLoop consumption emis demIdx sectorIdx n manualDot m <> Err e.
Proof.
  induction n as [|n IH]; intros j dot m e; cbn [cellLoop]; [discriminate|].
  unfold mat.AtVec. destruct (consumption !! j); cbn [mbind outcome_bind]; [|discriminate].
  destruct (emis !! j); cbn [mbind outcome_bind]; [|discriminate].
  destruct (mat.Set_ m demIdx j _) as [m1|e1|] eqn:E1; cbn [mbind outcome_bind];
    [apply IH|now apply Set_no_Err in E1|discriminate].
Qed.

Lemma colLoop_no_Err (demIdx : nat) (adjustRatio : F) : forall (n j : nat) m (e : error),
  (colLoop demIdx j n adjustRatio m).2 <> Err e.
Proof.
  induction n as [|n IH]; intros j m e; cbn [colLoop]; [discriminate|].
  destruct (mat.At m demIdx j) as [x|e1|] eqn:E1; cbn [mbind outcome_bind];
    [|now apply At_no_Err in E1|discriminate].
  destruct (mat.Set_ m demIdx j _) as [m1|e1|] eqn:E2;
    [apply IH|now apply Set_no_Err in E2|discriminate].
Qed.

Lemma rowLoop_no_Err (totalPop : Z) (popCounts : list Z) (numCols : nat) :
  forall (n demIdx : nat) m (e : error),
  (rowLoop totalPop popCounts numCols demIdx n m).2 <> Err e.
Proof.
  induction n as [|n IH]; intros demIdx m e; cbn [rowLoop]; [discriminate|].
  destruct (popCounts !! demIdx) as [c|]; [|discriminate].
  pose proof (colLoop_no_Err demIdx (fdiv (fofInt totalPop) (fofInt c)) numCols 0 m) as Hc.
  destruct (colLoop _ _ _ _ _) as [m1 [[]|e1|p]]; cbn [snd] in *.
  - apply IH.
  - now destruct (Hc e1).
  - discriminate.
Qed.

Lemma popLoop_no_Err (grids : gmap string (list F)) (gridIdx : nat) (c : F) :
  forall (popNames : list string) (st : gmap string F * gmap string F) (e : error),
  popLoop grids gridIdx c popNames st <> Err e.
Proof.
  induction popNames as [|p rest IH]; intros st e; cbn [popLoop]; [discriminate|].
  destruct (_ ≫= _); [apply IH|discriminate].
Qed.

Lemma gridLoop_no_Err (grids : gmap string (list F)) (popNames : list string) :
  forall (conc : list F) (gridIdx : nat) (st : gmap string F * gmap string F) (e : error),
  gridLoop grids popNames gridIdx conc st <> Err e.
Proof.
  induction conc as [|c rest IH]; intros gridIdx st e; cbn [gridLoop]; [discriminate|].
  destruct (popLoop grids gridIdx c popNames st) as [st1|e1|] eqn:E1;
    cbn [mbind outcome_bind]; [apply IH|now apply popLoop_no_Err in E1|discriminate].
Qed.

(** *** [getConsumptionBySCC] *)

Lemma getConsumptionBySCC_Err_inv (s : Server) (dem : Demograph) (year : Z) (e : error) :
  getConsumptionBySCC s dem year = Err e ->
  exists cause, DemographicConsumption s dem year = Err cause /\
    e = Wrap cause "error calculating demographic consumption".
Proof.
  unfold getConsumptionBySCC. intros H. apply bind_Err_inv in H as [H|(vec & _ & H)].
  - now apply wrapErr_Err_inv in H.
  - now apply aggregate_no_Err in H.
Qed.

(** X3.  [getConsumptionBySCC] returns an error exactly when the
    consumption query does, and the error is the query's wrapped with
    the message of line 45; the function has no error of its own, whatever
    the lengths and indices are. *)
Theorem getConsumptionBySCC_errors (s : Server) (dem : Demograph) (year : Z) (e : error) :
  getConsumptionBySCC s dem year = Err e <->
  exists cause, DemographicConsumption s dem year = Err cause /\
    e = Wrap cause "error calculating demographic consumption".
Proof.
  split; [apply getConsumptionBySCC_Err_inv|].
  intros (cause & H & ->). unfold getConsumptionBySCC. now rewrite H.
Qed.

(** *** [getEmissionsBySCC] *)

Lemma getEmissionsBySCC_Err_inv (s : Server) (demand : Vector) (year : Z) (loc : Location)
    (e : error) :
  getEmissionsBySCC rpc2mat demand s year loc = Err e ->
  (exists cause, EmissionsMatrix s demand year loc "isrm" = Err cause /\
     e = Wrap cause "error getting emissions matrix") \/
  (exists emisRPC, EmissionsMatrix s demand year loc "isrm" = Ok emisRPC /\
     mat.cols (rpc2mat emisRPC) <> length (SCCs s) /\
     e = Errorf emissionsColsFormat
           [Z.of_nat (length (SCCs s)); Z.of_nat (mat.cols (rpc2mat emisRPC))]).
Proof.
  unfold getEmissionsBySCC. intros H. apply bind_Err_inv in H as [H|(emisRPC & Hq & H)].
  - left. now apply wrapErr_Err_inv in H.
  - right. exists emisRPC. apply wrapErr_Ok_inv in Hq. split; auto.
    cbn [mat.Dims] in H.
    destruct (Nat.eqb_spec (mat.cols (rpc2mat emisRPC)) (length (SCCs s))) as [Heq|Hne];
      cbn [negb] in H.
    + apply bind_Err_inv in H as [H|(out & _ & H)].
      * now apply sectorLoop_no_Err in H.
      * now apply NewVecDense_no_Err in H.
    + split; auto. congruence.
Qed.

(** X4.  [getEmissionsBySCC] returns an error in two cases and no
    other: the emissions query failed, and the error is the query's
    wrapped with the message of line 68; or the query answered with a
    matrix whose number of columns is not the number of SCCs, and the
    error is the [fmt.Errorf] of line 73 with the two numbers, expected
    first. *)
Theorem getEmissionsBySCC_errors (s : Server) (demand : Vector) (year : Z) (loc : Location)
    (e : error) :
  getEmissionsBySCC rpc2mat demand s year loc = Err e <->
  (exists cause, EmissionsMatrix s demand year loc "isrm" = Err cause /\
     e = Wrap cause "error getting emissions matrix") \/
  (exists emisRPC, EmissionsMatrix s demand year loc "isrm" = Ok emisRPC /\
     mat.cols (rpc2mat emisRPC) <> length (SCCs s) /\
     e = Errorf emissionsColsFormat
           [Z.of_nat (length (SCCs s)); Z.of_nat (mat.cols (rpc2mat emisRPC))]).
Proof.
  split; [apply getEmissionsBySCC_Err_inv|]. unfold getEmissionsBySCC.
  intros [(cause & -> & ->)|(emisRPC & -> & Hne & ->)]; [reflexivity|].
  cbn [wrapErr mbind outcome_bind mat.Dims].
  destruct (Nat.eqb_spec (mat.cols (rpc2mat emisRPC)) (length (SCCs s))); [contradiction|].
  reflexivity.
Qed.

(** *** [demAndEmissions] *)

Lemma demLoop_Err_inv (s : Server) (year : Z) (emis : list F) :
  forall (dems : list Demograph) (demIdx : nat) m (e : error),
  demLoop s year emis demIdx dems m = Err e ->
  exists dem cause, dem ∈ dems /\ DemographicConsumption s dem year = Err cause /\
    e = Wrap (Wrap cause "error calculating demographic consumption")
             "error getting consumption".
Proof.
  induction dems as [|dem dems IH]; intros demIdx m e; cbn [demLoop]; [discriminate|].
  intros H. apply bind_Err_inv in H as [H|(v & _ & H)].
  - apply wrapErr_Err_inv in H as (e0 & H & ->).
    apply getConsumptionBySCC_Err_inv in H as (cause & H & ->).
    exists dem, cause. split; [constructor|auto].
  - apply bind_Err_inv in H as [H|(m1 & _ & H)]; [now apply cellLoop_no_Err in H|].
    apply IH in H as (dem' & cause & Hin & H & ->).
    exists dem', cause. split; [now constructor|auto].
Qed.

(** X5.  Every error [demAndEmissions] returns is wrapped, and it is one
    of three: the error of the emissions query, wrapped twice; the
    column mismatch of [getEmissionsBySCC], wrapped once; or the error of
    the consumption query of one of the groups, wrapped twice. *)
Theorem demAndEmissions_errors (s : Server) (demand : Vector) (dems : list Demograph)
    (year : Z) (loc : Location) (e : error) :
  demAndEmissions rpc2mat s demand dems year loc = Err e ->
  (exists cause, EmissionsMatrix s demand year loc "isrm" = Err cause /\
     e = Wrap (Wrap cause "error getting emissions matrix")
              "error getting emissions by SCC") \/
  (exists emisRPC, EmissionsMatrix s demand year loc "isrm" = Ok emisRPC /\
     mat.cols (rpc2mat emisRPC) <> length (SCCs s) /\
     e = Wrap (Errorf emissionsColsFormat
                 [Z.of_nat (length (SCCs s)); Z.of_nat (mat.cols (rpc2mat emisRPC))])
              "error getting emissions by SCC") \/
  (exists dem cause, dem ∈ dems /\ DemographicConsumption s dem year = Err cause /\
     e = Wrap (Wrap cause "error calculating demographic consumption")
              "error getting consumption").
Proof.
  unfold demAndEmissions. intros H.
  apply bind_Err_inv in H as [H|(emis & _ & H)].
  - apply wrapErr_Err_inv in H as (e0 & H & ->).
    apply getEmissionsBySCC_Err_inv in H as [(cause & H & ->)|(emisRPC & H & Hne & ->)];
      eauto 6.
  - right. right.
    apply bind_Err_inv in H as [H|(m0 & _ & H)]; [now apply NewDense_no_Err in H|].
    apply bind_Err_inv in H as [H|(m1 & _ & H)]; [|discriminate].
    now apply demLoop_Err_inv in H.
Qed.

Lemma demLoop_app (s : Server) (year : Z) (emis : list F) :
  forall (pre post : list Demograph) (demIdx : nat) m,
  demLoop s year emis demIdx (pre ++ post) m =
  m1 ← demLoop s year emis demIdx pre m; demLoop s year emis (demIdx + length pre) post m1.
Proof.
  induction pre as [|dem pre IH]; intros post demIdx m; cbn [app demLoop length].
  - cbn. now rewrite Nat.add_0_r.
  - destruct (wrapErr (getConsumptionBySCC s dem year) _) as [v| |]; auto.
    cbn [mbind outcome_bind].
    destruct (cellLoop _ _ _ _ _ _ _) as [m1| |]; auto. cbn [mbind outcome_bind].
    rewrite IH. now replace (S demIdx + length pre)%nat with (demIdx + S (length pre))%nat by lia.
Qed.

(** X6.  [demAndEmissions] stops at the first group whose consumption
    query fails: when the emissions by sector are obtained and the
    groups before it have their consumption, the result is that query's
    error wrapped twice, and no matrix, whatever groups follow. *)
Theorem demAndEmissions_first_failure (s : Server) (demand : Vector)
    (pre post : list Demograph) (dem : Demograph) (year : Z) (loc : Location)
    (emis : list F) (cause : error) :
  getEmissionsBySCC rpc2mat demand s year loc = Ok emis ->
  Forall (fun dem => exists v, getConsumptionBySCC s dem year = Ok v) pre ->
  DemographicConsumption s dem year = Err cause ->
  demAndEmissions rpc2mat s demand (pre ++ dem :: post) year loc =
    Err (Wrap (Wrap cause "error calculating demographic consumption")
              "error getting consumption").
Proof.
  intros Hemis Hpre Hdem.
  destruct (getEmissionsBySCC_length rpc2mat s demand year loc emis Hemis) as [Hle Hn].
  destruct (NewDense_Ok (F := F) (length (pre ++ dem :: post)) (length (SCCs s)))
    as (m0 & Hnew & Hwf0 & Hr0 & Hc0); auto.
  { rewrite length_app. cbn. lia. }
  unfold demAndEmissions. rewrite Hemis. cbn [wrapErr mbind outcome_bind].
  rewrite Hnew. cbn [mbind outcome_bind]. rewrite demLoop_app.
  destruct (demLoop_spec s year emis Hle pre 0 m0) as (m1 & -> & _); auto.
  { rewrite Hr0, length_app. lia. }
  cbn [mbind outcome_bind demLoop]. unfold getConsumptionBySCC. rewrite Hdem. reflexivity.
Qed.

(** The shape of what [demAndEmissions] returns. *)
Lemma Set_Ok_inv m (i j : nat) (v : F) m' :
  mat.Set_ m i j v = Ok m' ->
  mat.rows m' = mat.rows m /\ mat.cols m' = mat.cols m /\
  length (mat.data m') = length (mat.data m).
Proof.
  unfold mat.Set_. destruct (negb _); [discriminate|]. destruct (negb _); [discriminate|].
  destruct (negb _); [discriminate|]. intros [= <-]. cbn. now rewrite length_insert.
Qed.

Lemma cellLoop_Ok_inv (consumption emis : list F) (demIdx : nat) :
  forall (n sectorIdx : nat) (manualDot : F) m m',
  cellLoop consumption emis demIdx sectorIdx n manualDot m = Ok m' ->
  mat.rows m' = mat.rows m /\ mat.cols m' = mat.cols m /\
  length (mat.data m') = length (mat.data m).
Proof.
  induction n as [|n IH]; intros j dot m m'; cbn [cellLoop].
  - now intros [= <-].
  - intros H. apply bind_Ok_inv in H as (c & _ & H). apply bind_Ok_inv in H as (e & _ & H).
    apply bind_Ok_inv in H as (m1 & H1 & H). apply Set_Ok_inv in H1 as (? & ? & ?).
    apply IH in H as (? & ? & ?). repeat split; congruence.
Qed.

Lemma demLoop_Ok_inv (s : Server) (year : Z) (emis : list F) :
  forall (dems : list Demograph) (demIdx : nat) m m',
  demLoop s year emis demIdx dems m = Ok m' ->
  mat.rows m' = mat.rows m /\ mat.cols m' = mat.cols m /\
  length (mat.data m') = length (mat.data m).
Proof.
  induction dems as [|dem dems IH]; intros demIdx m m'; cbn [demLoop].
  - now intros [= <-].
  - intros H. apply bind_Ok_inv in H as (v & _ & H). apply bind_Ok_inv in H as (m1 & H1 & H).
    apply cellLoop_Ok_inv in H1 as (? & ? & ?). apply IH in H as (? & ? & ?).
    repeat split; congruence.
Qed.

Lemma NewDense_Ok_inv (r c : nat) m :
  mat.NewDense r c = Ok m ->
  mat.wf m /\ mat.rows m = r /\ mat.cols m = c /\ (0 < r)%nat /\ (0 < c)%nat.
Proof.
  unfold mat.NewDense. destruct (Nat.eqb_spec r 0); [discriminate|].
  destruct (Nat.eqb_spec c 0); [discriminate|]. cbn [orb]. intros [= <-].
  unfold mat.wf. cbn. rewrite length_replicate. repeat split; lia.
Qed.

Lemma demAndEmissions_Ok_inv (s : Server) (demand : Vector) (dems : list Demograph)
    (year : Z) (loc : Location) m (sccs : list SCC) :
  demAndEmissions rpc2mat s demand dems year loc = Ok (m, sccs) ->
  sccs = SCCs s /\ mat.wf m /\ mat.rows m = length dems /\ mat.cols m = length (SCCs s) /\
  (0 < length dems)%nat /\ (0 < length (SCCs s))%nat.
Proof.
  unfold demAndEmissions. intros H.
  apply bind_Ok_inv in H as (emis & _ & H). apply bind_Ok_inv in H as (m0 & H0 & H).
  apply bind_Ok_inv in H as (m1 & H1 & H). injection H as <- <-.
  apply NewDense_Ok_inv in H0 as (Hwf & Hr & Hc & ? & ?).
  apply demLoop_Ok_inv in H1 as (Hr1 & Hc1 & Hd1).
  unfold mat.wf in *. repeat split; auto; congruence.
Qed.

Lemma populationAdjust_Ok (s : Server) m (dems : list Demograph) (counts : list Z) :
  queriedCounts s 2015 dems counts ->
  mat.wf m -> mat.rows m = length dems ->
  exists m', populationAdjust s m dems = (m', Ok ()) /\ rescaled counts m m'.
Proof.
  intros Hq Hwf Hrows. pose proof (Forall2_length _ _ _ Hq) as Hlen.
  destruct (rowLoop_spec (foldl intAdd 0 counts) counts (length dems) 0 m)
    as (m' & Hl & Hwf' & Hr' & Hc' & Hcells & _); auto; try lia.
  exists m'. unfold populationAdjust. rewrite (popCountLoop_all s dems counts Hq).
  cbn [mat.Dims]. rewrite Hrows, Nat.eqb_refl. cbn [negb]. rewrite Hl.
  unfold rescaled. repeat split; auto; try congruence.
  intros i k Hi Hk. apply Hcells; auto. lia.
Qed.

(** X7.  The two stages fit: whatever matrix [demAndEmissions] returns
    for a list of groups has one row per group and one column per SCC
    (and comes with the server's list of SCCs), so [populationAdjust],
    given that matrix and the same groups, never meets its row-count
    mismatch; when the population queries are answered it returns [nil]
    and has rescaled every row. *)
Theorem demAndEmissions_then_populationAdjust (s : Server) (demand : Vector)
    (dems : list Demograph) (year : Z) (loc : Location) m (sccs : list SCC)
    (counts : list Z) :
  demAndEmissions rpc2mat s demand dems year loc = Ok (m, sccs) ->
  queriedCounts s 2015 dems counts ->
  sccs = SCCs s /\ mat.rows m = length dems /\ mat.cols m = length (SCCs s) /\
  exists m', populationAdjust s m dems = (m', Ok ()) /\ rescaled counts m m'.
Proof.
  intros H Hq. apply demAndEmissions_Ok_inv in H as (-> & Hwf & Hr & Hc & _).
  repeat split; auto. now apply populationAdjust_Ok.
Qed.

(** X8.  [demAndEmissions] returns a matrix only for a list of groups
    and a list of SCCs that are not empty: [mat.NewDense] refuses a
    dimension of zero.  With no group at all, once the emissions by
    sector are obtained, the call ends in the panic [mat.ErrZeroLength]
    and not in an empty matrix or an error. *)
Theorem demAndEmissions_needs_groups (s : Server) (demand : Vector)
    (dems : list Demograph) (year : Z) (loc : Location) :
  (forall m sccs, demAndEmissions rpc2mat s demand dems year loc = Ok (m, sccs) ->
     dems <> [] /\ SCCs s <> []) /\
  (forall emis, dems = [] -> getEmissionsBySCC rpc2mat demand s year loc = Ok emis ->
     demAndEmissions rpc2mat s demand dems year loc = Panicked ErrZeroLength).
Proof.
  split.
  - intros m sccs H. apply demAndEmissions_Ok_inv in H as (_ & _ & _ & _ & Hd & Hs).
    split; intros E; rewrite E in *; cbn in *; lia.
  - intros emis -> Hemis. unfold demAndEmissions. rewrite Hemis. reflexivity.
Qed.

(** *** [populationAdjust] *)

Lemma popCountLoop_first_failure (s : Server) (pre : list Demograph) (counts : list Z) :
  Forall2 (fun dem c => TotalPopulationCount s dem 2015 = Ok c) pre counts ->
  forall (dem : Demograph) (post : list Demograph) (cause : error)
         (demIdx : nat) (totalPop : Z) (popCounts : list Z),
  TotalPopulationCount s dem 2015 = Err cause ->
  (demIdx + length pre < length popCounts)%nat ->
  popCountLoop s demIdx (pre ++ dem :: post) totalPop popCounts = Err cause.
Proof.
  induction 1 as [|d c pre counts Hd Hpre IH]; intros dem post cause demIdx totalPop popCounts
    Hdem Hlen; cbn [app popCountLoop].
  - now rewrite Hdem.
  - rewrite Hd. cbn [mbind outcome_bind]. cbn [length] in Hlen.
    rewrite ltb_true by lia. cbn [negb]. apply IH; auto. rewrite length_insert. lia.
Qed.

(** X9.  [populationAdjust] stops at the first group whose population
    query fails: it returns that query's error as it is, not wrapped,
    and has not touched the matrix, whatever the matrix and the groups
    after it are. *)
Theorem populationAdjust_first_failure (s : Server) m (pre post : list Demograph)
    (dem : Demograph) (counts : list Z) (cause : error) :
  queriedCounts s 2015 pre counts ->
  TotalPopulationCount s dem 2015 = Err cause ->
  populationAdjust s m (pre ++ dem :: post) = (m, Err cause).
Proof.
  intros Hpre Hdem. unfold populationAdjust.
  rewrite (popCountLoop_first_failure s pre counts Hpre dem post cause); auto.
  rewrite length_replicate, length_app. cbn. lia.
Qed.

Lemma popCountLoop_Err_inv (s : Server) :
  forall (dems : list Demograph) (demIdx : nat) (totalPop : Z) (popCounts : list Z)
         (e : error),
  popCountLoop s demIdx dems totalPop popCounts = Err e ->
  exists dem, dem ∈ dems /\ TotalPopulationCount s dem 2015 = Err e.
Proof.
  induction dems as [|dem dems IH]; intros demIdx totalPop popCounts e; cbn [popCountLoop];
    [discriminate|].
  intros H. apply bind_Err_inv in H as [H|(c & _ & H)].
  - exists dem. split; [constructor|auto].
  - destruct (negb _); [discriminate|]. apply IH in H as (dem' & Hin & H).
    exists dem'. split; [now constructor|auto].
Qed.

Lemma populationAdjust_Err_inv (s : Server) m (dems : list Demograph) m' (e : error) :
  populationAdjust s m dems = (m', Err e) ->
  m' = m /\
  ((exists dem, dem ∈ dems /\ TotalPopulationCount s dem 2015 = Err e) \/
   (mat.rows m <> length dems /\
    e = Errorf rowsVsDemsFormat [Z.of_nat (mat.rows m); Z.of_nat (length dems)])).
Proof.
  unfold populationAdjust.
  destruct (popCountLoop s 0 dems 0 _) as [[totalPop popCounts]|e1|p] eqn:E.
  - cbn [mat.Dims]. destruct (Nat.eqb_spec (mat.rows m) (length dems)) as [Heq|Hne];
      cbn [negb].
    + intros H.
      pose proof (rowLoop_no_Err totalPop popCounts (mat.cols m) (length dems) 0 m e) as Hr.
      rewrite H in Hr. now destruct Hr.
    + intros [= <- <-]. auto.
  - intros [= <- <-]. split; auto. left. now apply popCountLoop_Err_inv in E.
  - discriminate.
Qed.

(** X10.  Whenever [populationAdjust] returns an error it has written
    no cell: the matrix is as it was.  The error is either the error of
    the population query of one of the groups, or the row-count mismatch
    of line 258; once the rescaling has begun no error is returned. *)
Theorem populationAdjust_error_leaves_matrix (s : Server) m (dems : list Demograph) m'
    (e : error) :
  populationAdjust s m dems = (m', Err e) ->
  m' = m /\
  ((exists dem, dem ∈ dems /\ TotalPopulationCount s dem 2015 = Err e) \/
   (mat.rows m <> length dems /\
    e = Errorf rowsVsDemsFormat [Z.of_nat (mat.rows m); Z.of_nat (length dems)])).
Proof. apply populationAdjust_Err_inv. Qed.

Lemma foldl_intAdd_exact (counts : list Z) : forall acc : Z,
  0 <= acc -> Forall (fun c => 0 <= c) counts -> acc + sumCounts counts < 2 ^ 63 ->
  foldl intAdd acc counts = acc + sumCounts counts.
Proof.
  assert (Hnonneg : forall l, Forall (fun c => 0 <= c) l -> 0 <= sumCounts l).
  { induction 1 as [|c l Hc _ IH]; unfold sumCounts in *; cbn [foldr]; lia. }
  induction counts as [|c rest IH]; intros acc Hacc Hpos Hsum.
  - cbn. lia.
  - inversion Hpos as [|? ? Hc Hrest]; subst.
    pose proof (Hnonneg rest Hrest) as Hs.
    assert (Hcons : sumCounts (c :: rest) = c + sumCounts rest) by reflexivity.
    rewrite Hcons in *. cbn [foldl].
    assert (Hw : intAdd acc c = acc + c).
    { unfold intAdd, wrap64. rewrite Z.mod_small; lia. }
    rewrite Hw, IH; auto; lia.
Qed.

(** X11.  The total population that [populationAdjust] divides by is
    the plain sum of the groups' counts whenever the counts are not
    negative and their sum is below 2^63: the addition of Go's [int] does
    not wrap around for such counts. *)
Theorem populationAdjust_total_exact (s : Server) (dems : list Demograph) (counts : list Z) :
  queriedCounts s 2015 dems counts ->
  Forall (fun c => 0 <= c) counts ->
  sumCounts counts < 2 ^ 63 ->
  popCountLoop s 0 dems 0 (replicate (length dems) 0) = Ok (sumCounts counts, counts).
Proof.
  intros Hq Hpos Hsum. rewrite (popCountLoop_all s dems counts Hq).
  rewrite foldl_intAdd_exact; auto; lia.
Qed.

(** *** [getExposureByPopulation] *)

(** X12.  [getExposureByPopulation] reads [vec.Data] before it looks at
    the error of the concentration query.  If the query returns no
    vector the call ends in a nil-pointer panic, also when the query
    returned an error that should have been reported; if it returns a
    vector together with an error, the error is returned as it is. *)
Theorem getExposureByPopulation_reads_before_check (s : Server) (year : Z) (loc : Location)
    (demand : Vector) (vec : option Vector) (err : option error) :
  Concentrations s demand Pollutant_TotalPM25 year loc "isrm" = (vec, err) ->
  (vec = None -> getExposureByPopulation Pollutant_TotalPM25 s year loc demand
                 = Panicked NilDereference) /\
  (forall v e, vec = Some v -> err = Some e ->
     getExposureByPopulation Pollutant_TotalPM25 s year loc demand = Err e).
Proof.
  intros Hc. unfold getExposureByPopulation, exposureLocals. rewrite Hc. split.
  - now intros ->.
  - now intros v e -> ->.
Qed.

Lemma gridsLoop_app (s : Server) (year : Z) (conc : list F) :
  forall (pre post : list string) (grids : gmap string (list F)),
  gridsLoop s year conc (pre ++ post) grids =
  grids1 ← gridsLoop s year conc pre grids; gridsLoop s year conc post grids1.
Proof.
  induction pre as [|p pre IH]; intros post grids; cbn [app gridsLoop]; auto.
  destruct (PopulationIncidence s year p "NasariACS" "isrm") as [pop| |]; auto.
  cbn [mbind outcome_bind]. destruct (negb _); auto.
Qed.

(** X13.  The population grids are fetched and checked one name after
    the other, before any total is computed.  At the first name whose
    query fails the function returns that error as it is; at the first
    name whose grid has not the length of the concentration vector it
    returns the [fmt.Errorf] of line 151 with the two lengths, the grid's
    first.  In both cases nothing is computed for the names checked
    before. *)
Theorem getExposureByPopulation_first_bad_grid (s : Server) (year : Z) (loc : Location)
    (demand vec : Vector) (pre post : list string) (popName : string) :
  Concentrations s demand Pollutant_TotalPM25 year loc "isrm" = (Some vec, None) ->
  Populations s = Ok (pre ++ popName :: post) ->
  (forall p, p ∈ pre ->
     exists grid, PopulationIncidence s year p "NasariACS" "isrm" = Ok grid /\
       length grid = length (Data vec)) ->
  (forall cause, PopulationIncidence s year popName "NasariACS" "isrm" = Err cause ->
     getExposureByPopulation Pollutant_TotalPM25 s year loc demand = Err cause) /\
  (forall grid, PopulationIncidence s year popName "NasariACS" "isrm" = Ok grid ->
     length grid <> length (Data vec) ->
     getExposureByPopulation Pollutant_TotalPM25 s year loc demand =
       Err (Errorf popLenFormat [Z.of_nat (length grid); Z.of_nat (length (Data vec))])).
Proof.
  intros Hc Hp Hpre.
  destruct (gridsLoop_spec s year (Data vec) pre ∅ Hpre) as (grids & Hl & _).
  unfold getExposureByPopulation, exposureLocals. rewrite Hc, Hp.
  cbn [mbind outcome_bind]. rewrite gridsLoop_app, Hl. cbn [mbind outcome_bind gridsLoop].
  split.
  - now intros cause ->.
  - intros grid -> Hne. cbn [mbind outcome_bind].
    now destruct (Nat.eqb_spec (length grid) (length (Data vec))).
Qed.

(** The loops without the assumption that no name is repeated. *)
Lemma zeroTotals_keys (popNames : list string) (k : string) :
  is_Some (zeroTotals (F := F) popNames !! k) <-> k ∈ popNames.
Proof.
  unfold zeroTotals.
  assert (Hgen : forall m : gmap string F,
            is_Some (foldl (fun popTotals pop => <[pop := f0]> popTotals) m popNames !! k)
            <-> is_Some (m !! k) \/ k ∈ popNames).
  { induction popNames as [|p rest IH]; intros m; cbn [foldl].
    - rewrite elem_of_nil. tauto.
    - rewrite IH, elem_of_cons, lookup_insert_is_Some'.
      split; [intros [[->|?]|?]|intros [?|[->|?]]]; auto. }
  rewrite Hgen, lookup_empty, is_Some_alt. tauto.
Qed.

Lemma addTo_keys (m : gmap string F) (p k : string) (v : F) :
  is_Some (addTo m p v !! k) <-> is_Some (m !! k) \/ k = p.
Proof.
  unfold addTo. rewrite lookup_insert_is_Some'.
  split; [intros [->|?]|intros [?| ->]]; auto.
Qed.

Lemma popLoop_general (grids : gmap string (list F)) (gridIdx : nat) (c : F) :
  forall (popNames : list string) (pt ex : gmap string F),
  (forall popName, popName ∈ popNames ->
     exists grid, grids !! popName = Some grid /\ (gridIdx < length grid)%nat) ->
  exists pt' ex', popLoop grids gridIdx c popNames (pt, ex) = Ok (pt', ex') /\
    (forall k, is_Some (pt' !! k) <-> is_Some (pt !! k) \/ k ∈ popNames) /\
    (forall k, is_Some (ex' !! k) <-> is_Some (ex !! k) \/ k ∈ popNames) /\
    (forall k grid n, grids !! k = Some grid -> grid !! gridIdx = Some n ->
       readTotal pt' k = foldl fadd (readTotal pt k) (replicate (timesListed k popNames) n) /\
       readTotal ex' k =
         foldl fadd (readTotal ex k) (replicate (timesListed k popNames) (fmul n c))).
Proof.
  induction popNames as [|p rest IH]; intros pt ex Hg.
  - exists pt, ex. split; auto. split; [|split]; auto.
    + intros k. rewrite elem_of_nil. tauto.
    + intros k. rewrite elem_of_nil. tauto.
  - destruct (Hg p) as (grid & Hgrid & Hlt); [constructor|].
    destruct (lookup_lt_is_Some_2 grid gridIdx Hlt) as [n Hn].
    destruct (IH (addTo pt p n) (addTo ex p (fmul n c))) as (pt' & ex' & Hl & Hkp & Hke & Hv).
    { intros q Hq. apply Hg. now constructor. }
    exists pt', ex'. cbn [popLoop]. rewrite Hgrid. cbn [mbind option_bind].
    rewrite Hn. cbn [fst snd]. split; auto. split; [|split].
    + intros k. rewrite Hkp, addTo_keys, elem_of_cons. tauto.
    + intros k. rewrite Hke, addTo_keys, elem_of_cons. tauto.
    + intros k grid' n' Hgrid' Hn'. destruct (Hv k grid' n' Hgrid' Hn') as [-> ->].
      rewrite !readTotal_addTo. unfold timesListed. rewrite filter_cons.
      destruct (decide (p = k)) as [->|Hne]; auto.
      rewrite Hgrid in Hgrid'. injection Hgrid' as <-.
      rewrite Hn in Hn'. injection Hn' as <-. auto.
Qed.

Lemma gridLoop_general (grids : gmap string (list F)) (popNames : list string) :
  forall (conc : list F) (gridIdx : nat) (pt ex : gmap string F),
  (forall popName, popName ∈ popNames ->
     exists grid, grids !! popName = Some grid /\
       (gridIdx + length conc <= length grid)%nat) ->
  exists pt' ex', gridLoop grids popNames gridIdx conc (pt, ex) = Ok (pt', ex') /\
    (forall k, is_Some (pt' !! k) <-> is_Some (pt !! k) \/ (k ∈ popNames /\ conc <> [])) /\
    (forall k, is_Some (ex' !! k) <-> is_Some (ex !! k) \/ (k ∈ popNames /\ conc <> [])) /\
    (forall k grid, k ∈ popNames -> grids !! k = Some grid ->
       readTotal pt' k =
         foldl fadd (readTotal pt k)
           (concat ((fun n => replicate (timesListed k popNames) n) <$>
                      take (length conc) (drop gridIdx grid))) /\
       readTotal ex' k =
         foldl fadd (readTotal ex k)
           (concat ((fun x => replicate (timesListed k popNames) x) <$>
                      zip_with fmul (drop gridIdx grid) conc))).
Proof.
  induction conc as [|c rest IH]; intros gridIdx pt ex Hg.
  - exists pt, ex. split; auto. split; [|split].
    + intros k. split; [auto|intros [?|[_ ?]]; [auto|contradiction]].
    + intros k. split; [auto|intros [?|[_ ?]]; [auto|contradiction]].
    + intros k grid _ _. cbn [length]. rewrite take_0. split; auto.
      now destruct (drop gridIdx grid).
  - cbn [length] in Hg.
    destruct (popLoop_general grids gridIdx c popNames pt ex)
      as (pt1 & ex1 & Hl1 & Hkp1 & Hke1 & Hv1).
    { intros q Hq. destruct (Hg q Hq) as (grid & Hgrid & Hlen). exists grid. split; auto. lia. }
    destruct (IH (S gridIdx) pt1 ex1) as (pt' & ex' & Hl & Hkp & Hke & Hv).
    { intros q Hq. destruct (Hg q Hq) as (grid & Hgrid & Hlen). exists grid. split; auto. lia. }
    exists pt', ex'. cbn [gridLoop]. rewrite Hl1. cbn [mbind outcome_bind]. split; auto.
    split; [|split].
    + intros k. rewrite Hkp, Hkp1. split; [intros [[?|?]|[? _]]|intros [?|[? _]]]; auto.
      all: right; split; auto; discriminate.
    + intros k. rewrite Hke, Hke1. split; [intros [[?|?]|[? _]]|intros [?|[? _]]]; auto.
      all: right; split; auto; discriminate.
    + intros k grid Hk Hgrid.
      destruct (Hg k Hk) as (grid' & Hgrid' & Hlen). rewrite Hgrid in Hgrid'.
      injection Hgrid' as <-.
      destruct (lookup_lt_is_Some_2 grid gridIdx) as [n Hn]; [lia|].
      destruct (Hv k grid Hk Hgrid) as [-> ->].
      destruct (Hv1 k grid n Hgrid Hn) as [-> ->].
      rewrite (drop_S _ _ _ Hn). cbn [length take zip_with fmap list_fmap concat].
      now rewrite !foldl_app.
Qed.

Lemma exposureLocals_general (s : Server) (year : Z) (loc : Location) (demand vec : Vector)
    (popNames : list string) :
  Concentrations s demand Pollutant_TotalPM25 year loc "isrm" = (Some vec, None) ->
  Populations s = Ok popNames ->
  (forall popName, popName ∈ popNames ->
     exists grid, PopulationIncidence s year popName "NasariACS" "isrm" = Ok grid /\
       length grid = length (Data vec)) ->
  exists popTotals exposureByPop,
    exposureLocals Pollutant_TotalPM25 s year loc demand = Ok (popTotals, exposureByPop) /\
    (forall k, is_Some (popTotals !! k) <-> k ∈ popNames) /\
    (forall k, is_Some (exposureByPop !! k) <-> k ∈ popNames /\ Data vec <> []) /\
    (forall popName grid, popName ∈ popNames ->
       PopulationIncidence s year popName "NasariACS" "isrm" = Ok grid ->
       readTotal popTotals popName = repeatedSum (timesListed popName popNames) grid /\
       readTotal exposureByPop popName =
         repeatedSum (timesListed popName popNames) (zip_with fmul grid (Data vec))).
Proof.
  intros Hc Hp Hq.
  destruct (gridsLoop_spec s year (Data vec) popNames ∅ Hq) as (grids & Hl & Hin & _).
  destruct (gridLoop_general grids popNames (Data vec) 0 (zeroTotals popNames) ∅)
    as (pt & ex & Hg & Hkp & Hke & Hv).
  { intros q Hq'. destruct (Hin q Hq') as (grid & Hgrid & Hlook).
    destruct (Hq q Hq') as (grid' & Hgrid' & Hlen).
    exists grid. split; auto. rewrite Hgrid in Hgrid'. injection Hgrid' as <-. lia. }
  exists pt, ex. unfold exposureLocals. rewrite Hc, Hp. cbn [mbind outcome_bind].
  rewrite Hl. cbn [mbind outcome_bind]. split; auto. split; [|split].
  - intros k. rewrite Hkp, zeroTotals_keys. tauto.
  - intros k. rewrite Hke, lookup_empty, is_Some_alt. tauto.
  - intros q grid Hq' Hgrid.
    destruct (Hin q Hq') as (grid' & Hgrid' & Hlook).
    rewrite Hgrid in Hgrid'. injection Hgrid' as <-.
    destruct (Hv q grid Hq' Hlook) as [Hpt Hex].
    rewrite drop_0 in Hpt, Hex. rewrite readTotal_zeroTotals in Hpt.
    destruct (Hq q Hq') as (grid' & Hgrid' & Hlen).
    rewrite Hgrid in Hgrid'. injection Hgrid' as <-.
    rewrite <- Hlen, firstn_all in Hpt. split; [exact Hpt|].
    rewrite Hex. unfold repeatedSum, vecSum, readTotal. now rewrite lookup_empty.
Qed.

(** X14.  When the loops of [getExposureByPopulation] are done,
    [popTotals] has an entry for exactly the names the population query
    listed, and [exposureByPop] has the same entries if there is at least
    one grid cell; with an empty concentration vector [exposureByPop] has
    no entry at all (and nothing is logged) while [popTotals] still has a
    zero for every name.  No other key is ever written. *)
Theorem exposure_map_keys (s : Server) (year : Z) (loc : Location) (demand vec : Vector)
    (popNames : list string) :
  Concentrations s demand Pollutant_TotalPM25 year loc "isrm" = (Some vec, None) ->
  Populations s = Ok popNames ->
  (forall popName, popName ∈ popNames ->
     exists grid, PopulationIncidence s year popName "NasariACS" "isrm" = Ok grid /\
       length grid = length (Data vec)) ->
  exists popTotals exposureByPop,
    exposureLocals Pollutant_TotalPM25 s year loc demand = Ok (popTotals, exposureByPop) /\
    (forall k, is_Some (popTotals !! k) <-> k ∈ popNames) /\
    (forall k, is_Some (exposureByPop !! k) <-> k ∈ popNames /\ Data vec <> []).
Proof.
  intros Hc Hp Hq.
  destruct (exposureLocals_general s year loc demand vec popNames Hc Hp Hq)
    as (pt & ex & Hl & Hkp & Hke & _).
  exists pt, ex. auto.
Qed.

Lemma timesListed_absent (popName : string) (popNames : list string) :
  popName ∉ popNames -> timesListed popName popNames = 0%nat.
Proof.
  unfold timesListed. induction popNames as [|p rest IH]; intros Hout; auto.
  apply not_elem_of_cons in Hout as [Hne Hout]. rewrite filter_cons.
  rewrite decide_False by auto. auto.
Qed.

Lemma timesListed_NoDup (popName : string) (popNames : list string) :
  NoDup popNames -> popName ∈ popNames -> timesListed popName popNames = 1%nat.
Proof.
  induction 1 as [|p rest Hp Hnd IH]; intros Hin.
  - now apply elem_of_nil in Hin.
  - unfold timesListed. rewrite filter_cons. destruct (decide (p = popName)) as [->|Hne].
    + cbn [length]. f_equal. now apply timesListed_absent.
    + apply elem_of_cons in Hin as [->|Hin]; [contradiction|auto].
Qed.

Lemma repeatedSum_once (terms : list F) : repeatedSum 1 terms = vecSum terms.
Proof.
  unfold repeatedSum. f_equal. induction terms as [|x l IH]; auto.
  cbn [fmap list_fmap concat replicate app]. f_equal. exact IH.
Qed.

(** X15.  The loops serve the list of population names as it is: a
    name that the population query lists several times is served that
    many times in every grid cell, so its population total and its
    exposure count every cell that many times.  The population total of
    a name listed once is the sum of its grid. *)
Theorem exposure_counts_repeated_names (s : Server) (year : Z) (loc : Location)
    (demand vec : Vector) (popNames : list string) :
  Concentrations s demand Pollutant_TotalPM25 year loc "isrm" = (Some vec, None) ->
  Populations s = Ok popNames ->
  (forall popName, popName ∈ popNames ->
     exists grid, PopulationIncidence s year popName "NasariACS" "isrm" = Ok grid /\
       length grid = length (Data vec)) ->
  exists popTotals exposureByPop,
    exposureLocals Pollutant_TotalPM25 s year loc demand = Ok (popTotals, exposureByPop) /\
    forall popName grid, popName ∈ popNames ->
      PopulationIncidence s year popName "NasariACS" "isrm" = Ok grid ->
      readTotal popTotals popName = repeatedSum (timesListed popName popNames) grid /\
      readTotal exposureByPop popName =
        repeatedSum (timesListed popName popNames) (zip_with fmul grid (Data vec)) /\
      (NoDup popNames -> readTotal popTotals popName = vecSum grid).
Proof.
  intros Hc Hp Hq.
  destruct (exposureLocals_general s year loc demand vec popNames Hc Hp Hq)
    as (pt & ex & Hl & _ & _ & Hv).
  exists pt, ex. split; auto. intros popName grid Hin Hgrid.
  destruct (Hv popName grid Hin Hgrid) as [Hpt Hex]. repeat split; auto.
  intros Hnd. now rewrite Hpt, timesListed_NoDup, repeatedSum_once.
Qed.

Lemma gridsLoop_Err_inv (s : Server) (year : Z) (conc : list F) :
  forall (popNames : list string) (grids : gmap string (list F)) (e : error),
  gridsLoop s year conc popNames grids = Err e ->
  exists popName, popName ∈ popNames /\
    (PopulationIncidence s year popName "NasariACS" "isrm" = Err e \/
     exists grid, PopulationIncidence s year popName "NasariACS" "isrm" = Ok grid /\
       length grid <> length conc /\
       e = Errorf popLenFormat [Z.of_nat (length grid); Z.of_nat (length conc)]).
Proof.
  induction popNames as [|p rest IH]; intros grids e; cbn [gridsLoop]; [discriminate|].
  intros H. apply bind_Err_inv in H as [H|(grid & Hgrid & H)].
  - exists p. split; [constructor|auto].
  - destruct (Nat.eqb_spec (length grid) (length conc)) as [Heq|Hne]; cbn [negb] in H.
    + apply IH in H as (q & Hin & H). exists q. split; [now constructor|auto].
    + injection H as <-. exists p. split; [constructor|]. right. eauto.
Qed.

Lemma exposureLocals_Err_inv (s : Server) (year : Z) (loc : Location) (demand : Vector)
    (e : error) :
  exposureLocals Pollutant_TotalPM25 s year loc demand = Err e ->
  exists vec err,
    Concentrations s demand Pollutant_TotalPM25 year loc "isrm" = (Some vec, err) /\
    (err = Some e \/
     err = None /\
     (Populations s = Err e \/
      exists popName,
        PopulationIncidence s year popName "NasariACS" "isrm" = Err e \/
        exists grid, PopulationIncidence s year popName "NasariACS" "isrm" = Ok grid /\
          length grid <> length (Data vec) /\
          e = Errorf popLenFormat [Z.of_nat (length grid); Z.of_nat (length (Data vec))])).
Proof.
  unfold exposureLocals.
  destruct (Concentrations s demand Pollutant_TotalPM25 year loc "isrm") as [[vec|] [err|]];
    try discriminate.
  - intros [= <-]. exists vec, (Some err). auto.
  - intros H. exists vec, None. split; auto. right. split; auto.
    apply bind_Err_inv in H as [H|(popNames & _ & H)]; auto. right.
    apply bind_Err_inv in H as [H|(grids & _ & H)]; [|now apply gridLoop_no_Err in H].
    apply gridsLoop_Err_inv in H as (q & _ & H). eauto.
Qed.

(** *** Success of the stages, for the pipeline *)

Lemma getEmissionsBySCC_Ok (s : Server) (demand : Vector) (year : Z)
    (loc : Location) (emisRPC : Matrix) :
  EmissionsMatrix s demand year loc "isrm" = Ok emisRPC ->
  mat.wf (rpc2mat emisRPC) ->
  mat.cols (rpc2mat emisRPC) = length (SCCs s) ->
  (0 < length (SCCs s))%nat ->
  exists emis, getEmissionsBySCC rpc2mat demand s year loc = Ok emis /\
    columnSums (rpc2mat emisRPC) (length (SCCs s)) emis.
Proof.
  intros Hq Hwf Hc Hn. unfold getEmissionsBySCC. rewrite Hq.
  cbn [wrapErr mbind outcome_bind]. cbn [mat.Dims]. rewrite Hc, Nat.eqb_refl. cbn [negb].
  destruct (sectorLoop_spec (rpc2mat emisRPC) Hwf (length (SCCs s)) 0
                            (replicate (length (SCCs s)) f0))
    as (out & -> & Hlen & Hnew & _); [lia|rewrite length_replicate; lia|].
  rewrite length_replicate in Hlen. cbn [mbind outcome_bind].
  rewrite NewVecDense_Ok by lia. exists out. repeat split; auto.
  intros j Hj. apply Hnew. lia.
Qed.

Lemma demAndEmissions_Ok (s : Server) (demand : Vector) (dems : list Demograph)
    (year : Z) (loc : Location) (emis : list F) :
  dems <> [] ->
  getEmissionsBySCC rpc2mat demand s year loc = Ok emis ->
  Forall (fun dem => exists v, getConsumptionBySCC s dem year = Ok v) dems ->
  exists m, demAndEmissions rpc2mat s demand dems year loc = Ok (m, SCCs s) /\
    hadamard s year dems emis m.
Proof.
  intros Hne Hemis Hok.
  assert (Hd : (0 < length dems)%nat) by (destruct dems; [congruence|cbn; lia]).
  destruct (getEmissionsBySCC_length rpc2mat s demand year loc emis Hemis) as [Hle Hn].
  destruct (NewDense_Ok (length dems) (length (SCCs s)) Hd Hn)
    as (m0 & Hnew & Hwf0 & Hr0 & Hc0).
  destruct (demLoop_spec s year emis Hle dems 0 m0)
    as (m' & Hl & Hwf' & Hr' & Hc' & Hcells & _); auto; try lia.
  exists m'. unfold demAndEmissions. rewrite Hemis. cbn [wrapErr mbind outcome_bind].
  rewrite Hnew. cbn [mbind outcome_bind]. rewrite Hl. cbn [mbind outcome_bind].
  unfold hadamard. repeat split; auto; try congruence.
  intros g dem k Hg Hk. apply (Hcells g dem k Hg). lia.
Qed.

End Failures.

(** ** Emissions by sector, over doubles *)

Section EmissionsDoubles.
Context {Demograph Location Pollutant Matrix SCC : Type}.
Variable rpc2mat : Matrix -> mat.Dense float.

(** X16.  Over IEEE doubles, for an emissions matrix without negative
    entries: the total [getEmissionsBySCC] returns for a sector is not
    below any cell of the sector's column, and is not negative.  Rounding
    the running sum never loses a whole cell. *)
Theorem getEmissionsBySCC_dominates
    (s : @Server float Demograph Location Pollutant Matrix SCC) (demand : Vector)
    (year : Z) (loc : Location) (emisRPC : Matrix) :
  EmissionsMatrix s demand year loc "isrm" = Ok emisRPC ->
  mat.wf (rpc2mat emisRPC) ->
  mat.cols (rpc2mat emisRPC) = length (SCCs s) ->
  (0 < length (SCCs s))%nat ->
  Forall (fun x => PrimFloat.leb 0 x = true) (mat.data (rpc2mat emisRPC)) ->
  exists emis, getEmissionsBySCC rpc2mat demand s year loc = Ok emis /\
    forall (i j : nat) (x : float), mat.At (rpc2mat emisRPC) i j = Ok x ->
      exists total, emis !! j = Some total /\
        PrimFloat.leb x total = true /\ PrimFloat.leb 0 total = true.
Proof.
  intros Hq Hwf Hc Hn Hpos.
  destruct (getEmissionsBySCC_Ok rpc2mat s demand year loc emisRPC Hq Hwf Hc Hn)
    as (emis & Hemis & Hlen & Hsums).
  exists emis. split; auto. intros i j x Hat.
  set (m := rpc2mat emisRPC) in *.
  unfold mat.At in Hat.
  destruct (Nat.ltb_spec i (mat.rows m)) as [Hi|]; [|discriminate]. cbn [negb] in Hat.
  destruct (Nat.ltb_spec j (mat.cols m)) as [Hj|]; [|discriminate]. cbn [negb] in Hat.
  destruct (mat.data m !! (i * mat.cols m + j)%nat) as [y|] eqn:Hy; [|discriminate].
  injection Hat as ->.
  exists (vecSum (column m j)). split; [apply Hsums; lia|].
  assert (Hcol : Forall (fun v => PrimFloat.leb 0 v = true) (column m j)).
  { unfold column. apply Forall_fmap, Forall_forall. intros i' Hi'. cbn.
    apply elem_of_seq in Hi'.
    destruct (At_wf m i' j Hwf) as (z & Hz & _); [lia|lia|]. rewrite Hz. cbn.
    rewrite Forall_lookup in Hpos. eauto. }
  assert (Hin : x ∈ column m j).
  { unfold column. apply list_elem_of_fmap. exists i. rewrite Hy. split; auto.
    apply elem_of_seq. lia. }
  destruct (float_sum_ge (column m j) Hcol 0%float) as [H0 Hall]; [reflexivity|].
  split; [now apply Hall|exact H0].
Qed.

End EmissionsDoubles.

(** ** [populationAdjust] without any population, over doubles *)

Lemma float_mul_nan (x : float) : PrimFloat.mul x nan = nan.
Proof.
  apply Prim2SF_inj. rewrite FloatAxioms.mul_spec.
  change (Prim2SF nan) with S754_nan. now destruct (Prim2SF x).
Qed.

Section AdjustNobody.
Context {Demograph Location Pollutant Matrix SCC : Type}.

(** X20.  Over IEEE doubles, when the counts of the groups add up to
    zero, [populationAdjust] still returns [nil]: the ratio of a group
    without members is 0/0, and every cell of its row is overwritten with
    NaN, whatever it held. *)
Theorem populationAdjust_no_population
    (s : @Server float Demograph Location Pollutant Matrix SCC) (m : mat.Dense float)
    (dems : list Demograph) (counts : list Z) :
  queriedCounts s 2015 dems counts ->
  mat.wf m -> mat.rows m = length dems ->
  foldl intAdd 0 counts = 0 ->
  exists m', populationAdjust s m dems = (m', Ok ()) /\
    forall i k, counts !! i = Some 0 -> (k < mat.cols m)%nat -> mat.At m' i k = Ok nan.
Proof.
  intros Hq Hwf Hrows Htotal.
  destruct (populationAdjust_Ok s m dems counts Hq Hwf Hrows) as (m' & Hm' & Hres).
  exists m'. split; auto. intros i k Hi Hk. destruct Hres as (_ & _ & _ & Hcells).
  destruct (Hcells i k) as (x & c & Hx & Hc & Hx'); auto.
  { apply lookup_lt_Some in Hi. apply Forall2_length in Hq. lia. }
  rewrite Hi in Hc. injection Hc as <-. rewrite Hx', Htotal.
  change (ratioOf (F := float) 0 0) with nan. cbn [fmul binary64].
  now rewrite float_mul_nan.
Qed.
End AdjustNobody.

(** ** [emissionsAndDemTesting] *)

Section Pipelines.
Context {F : Type} {arith : Float64 F}.
Context {Demograph Location Pollutant Matrix SCC FinalDemandType : Type}.
Variable Pollutant_TotalPM25 : Pollutant.
Variable rpc2mat : Matrix -> mat.Dense F.
Variable ext : @Externals F Demograph Location Pollutant Matrix SCC FinalDemandType.
Implicit Types m : mat.Dense F.
Local Abbreviation Server := (@Server F Demograph Location Pollutant Matrix SCC).

Lemma wrap32_small (z : Z) : 0 <= z < 2 ^ 31 -> wrap32 z = z.
Proof. intros Hz. unfold wrap32. rewrite Z.mod_small; lia. Qed.

Lemma decileLoop_spec : forall (n : nat) (val : Z) (acc : list Demograph),
  0 <= val -> val + Z.of_nat n <= 2 ^ 31 ->
  decileLoop ext val n acc =
  acc ++ (DecileToDemograph ext <$>
            filter (fun dec => dec <> Decile_Decile_All ext)
                   ((fun i => val + Z.of_nat i) <$> seq 0 n)).
Proof.
  induction n as [|n IH]; intros val acc Hval Hn; cbn [decileLoop].
  - cbn. now rewrite app_nil_r.
  - rewrite wrap32_small by lia. rewrite IH by lia.
    cbn [seq fmap list_fmap]. rewrite filter_cons, Z.add_0_r.
    rewrite <- fmap_S_seq, <- list_fmap_compose.
    assert (Hext : (fun i => val + 1 + Z.of_nat i) <$> seq 0 n =
                   ((fun i => val + Z.of_nat i) ∘ S) <$> seq 0 n).
    { apply list_fmap_ext. intros _ i _. cbn. lia. }
    rewrite Hext.
    destruct (Z.eqb_spec val (Decile_Decile_All ext)) as [Heq|Hne].
    + now rewrite decide_False by auto.
    + rewrite decide_True by auto. cbn [fmap list_fmap]. now rewrite <- app_assoc.
Qed.

Lemma filter_ne_length (a : Z) : forall n : nat,
  0 <= a ->
  length (filter (fun dec => dec <> a) (Z.of_nat <$> seq 0 n)) =
  if decide (a < Z.of_nat n) then (n - 1)%nat else n.
Proof.
  intros n Ha. induction n as [|n IH].
  - cbn. now destruct (decide _).
  - rewrite seq_S, fmap_app, filter_app, length_app, IH. cbn [fmap list_fmap Nat.add].
    rewrite filter_cons, filter_nil.
    destruct (decide (Z.of_nat n <> a)), (decide (a < Z.of_nat n)),
      (decide (a < Z.of_nat (S n))); cbn [length]; lia.
Qed.

(** X17.  The groups [emissionsAndDemTesting] runs with are the
    demographs of the decile values 0, 1, ... below
    [len(eieiorpc.Decile_value)], in that order, without the value
    [Decile_Decile_All]: the group of the whole population is never
    among them, and when [Decile_Decile_All] is one of the values there is
    one group less than there are values. *)
Theorem deciles_without_all :
  Z.of_nat (Decile_value_len ext) <= 2 ^ 31 ->
  deciles ext = DecileToDemograph ext <$>
                  filter (fun dec => dec <> Decile_Decile_All ext)
                         (Z.of_nat <$> seq 0 (Decile_value_len ext)) /\
  (0 <= Decile_Decile_All ext < Z.of_nat (Decile_value_len ext) ->
   length (deciles ext) = (Decile_value_len ext - 1)%nat).
Proof.
  intros Hn. unfold deciles. rewrite decileLoop_spec by lia. cbn [app].
  assert (Hext : (fun i => 0 + Z.of_nat i) <$> seq 0 (Decile_value_len ext) =
                 Z.of_nat <$> seq 0 (Decile_value_len ext)).
  { apply list_fmap_ext. intros _ i _. lia. }
  rewrite Hext. split; auto.
  intros Hall. rewrite length_fmap, filter_ne_length by lia.
  rewrite decide_True by lia. reflexivity.
Qed.

Lemma RawRowView_wf m (i : nat) :
  mat.wf m -> (i < mat.rows m)%nat ->
  mat.RawRowView m i = Ok (take (mat.cols m) (drop (i * mat.cols m) (mat.data m))).
Proof.
  intros Hwf Hi. unfold mat.RawRowView. rewrite ltb_true by lia. cbn [negb].
  assert (Hle : (i * mat.cols m + mat.cols m <= length (mat.data m))%nat).
  { rewrite Hwf. replace (i * mat.cols m + mat.cols m)%nat with (S i * mat.cols m)%nat by lia.
    apply Nat.mul_le_mono_r. lia. }
  apply Nat.leb_le in Hle. now rewrite Hle.
Qed.

Lemma totalsLoop_spec m : mat.wf m -> forall (n demIdx : nat) (logged : list F),
  (demIdx + n <= mat.rows m)%nat ->
  totalsLoop m demIdx n logged =
  Ok (logged ++ ((fun i => vecSum (take (mat.cols m) (drop (i * mat.cols m) (mat.data m))))
                   <$> seq demIdx n)).
Proof.
  intros Hwf. induction n as [|n IH]; intros demIdx logged Hn; cbn [totalsLoop].
  - cbn. now rewrite app_nil_r.
  - rewrite RawRowView_wf by (auto; lia). cbn [mbind outcome_bind].
    rewrite IH by lia. cbn [seq fmap list_fmap]. now rewrite <- app_assoc.
Qed.

Lemma totalsLoop_no_Err m : forall (n demIdx : nat) (logged : list F) (e : error),
  totalsLoop m demIdx n logged <> Err e.
Proof.
  induction n as [|n IH]; intros demIdx logged e; cbn [totalsLoop]; [discriminate|].
  destruct (mat.RawRowView m demIdx) as [row|e1|] eqn:E1; cbn [mbind outcome_bind];
    [apply IH|now apply RawRowView_no_Err in E1|discriminate].
Qed.

(** X18.  The pipeline end to end.  With a server at hand, if the final
    demand, the emissions by sector, the consumption and the population
    count of every group, the concentrations, the population names and a
    grid of the right length for every name are obtained for the year
    2015 and the domestic location, and there is at least one group, then
    [emissionsAndDemTesting] returns [nil]; the matrix it has built holds
    the products of consumption and emissions rescaled by the population
    ratios, and the totals it logs are the row sums of that rescaled
    matrix. *)
Theorem emissionsAndDemTesting_succeeds (s : Server) (demand vec : Vector) (emis : list F)
    (counts : list Z) (popNames : list string) :
  FinalDemand ext s (FinalDemandType_AllDemand ext) 2015 (Location_Domestic ext)
    = Ok demand ->
  getEmissionsBySCC rpc2mat demand s 2015 (Location_Domestic ext) = Ok emis ->
  deciles ext <> [] ->
  Forall (fun dem => exists v, getConsumptionBySCC s dem 2015 = Ok v) (deciles ext) ->
  queriedCounts s 2015 (deciles ext) counts ->
  Concentrations s demand Pollutant_TotalPM25 2015 (Location_Domestic ext) "isrm"
    = (Some vec, None) ->
  Populations s = Ok popNames ->
  (forall popName, popName ∈ popNames ->
     exists grid, PopulationIncidence s 2015 popName "NasariACS" "isrm" = Ok grid /\
       length grid = length (Data vec)) ->
  exists m adjusted,
    hadamard s 2015 (deciles ext) emis m /\
    rescaled counts m adjusted /\
    emissionsAndDemTestingLocals Pollutant_TotalPM25 rpc2mat ext (Ok s)
      = Ok (adjusted, rowTotals adjusted) /\
    emissionsAndDemTesting Pollutant_TotalPM25 rpc2mat ext (Ok s) = Ok ().
Proof.
  intros Hfd Hemis Hne Hcons Hq Hconc Hpop Hgrids.
  destruct (demAndEmissions_Ok rpc2mat s demand (deciles ext) 2015 (Location_Domestic ext)
              emis Hne Hemis Hcons) as (m & Hm & Hhad).
  pose proof Hhad as (Hwf & Hrows & Hcols & _).
  destruct (populationAdjust_Ok s m (deciles ext) counts Hq Hwf Hrows)
    as (adjusted & Hadj & Hres).
  pose proof Hres as (Hwf' & Hrows' & Hcols' & _).
  destruct (exposureLocals_general Pollutant_TotalPM25 s 2015 (Location_Domestic ext) demand
              vec popNames Hconc Hpop Hgrids) as (pt & ex & Hex & _).
  assert (Hloc : emissionsAndDemTestingLocals Pollutant_TotalPM25 rpc2mat ext (Ok s)
                 = Ok (adjusted, rowTotals adjusted)).
  { unfold emissionsAndDemTestingLocals. cbn [wrapErr mbind outcome_bind].
    rewrite Hfd. cbn [wrapErr mbind outcome_bind]. rewrite Hm. cbn [mbind outcome_bind].
    rewrite Hadj. rewrite totalsLoop_spec by (auto; lia). cbn [mbind outcome_bind app].
    unfold getExposureByPopulation. rewrite Hex. cbn [mbind outcome_bind].
    unfold rowTotals. now rewrite Hrows', Hrows. }
  exists m, adjusted. repeat split; try apply Hhad; try apply Hres; auto.
  unfold emissionsAndDemTesting. now rewrite Hloc.
Qed.

(** X19.  Every error [emissionsAndDemTesting] can return: the error of
    [getEIOServer] or of the final-demand query, wrapped; or, with the
    server and the final demand at hand, one of the errors of the stages
    run for the year 2015: a query's error (wrapped twice for the
    emissions and the consumption, as it is for the population count, the
    concentrations, the population names and the population grids), the
    column mismatch of the emissions matrix (wrapped), or the length
    mismatch of a population grid.  The row-count mismatch of
    [populationAdjust] is not among them: the pipeline never produces
    it. *)
Theorem emissionsAndDemTesting_errors (getEIOServer : outcome Server) (e : error) :
  emissionsAndDemTesting Pollutant_TotalPM25 rpc2mat ext getEIOServer = Err e ->
  (exists cause, getEIOServer = Err cause /\ e = Wrap cause "error creating EIO server") \/
  exists s, getEIOServer = Ok s /\
    ((exists cause,
        FinalDemand ext s (FinalDemandType_AllDemand ext) 2015 (Location_Domestic ext)
          = Err cause /\
        e = Wrap cause "error getting final demand") \/
     exists demand,
       FinalDemand ext s (FinalDemandType_AllDemand ext) 2015 (Location_Domestic ext)
         = Ok demand /\
       stageError Pollutant_TotalPM25 rpc2mat s demand (deciles ext) 2015
         (Location_Domestic ext) e).
Proof.
  unfold emissionsAndDemTesting, emissionsAndDemTestingLocals. intros H.
  apply bind_Err_inv in H as [H|(r & _ & H)]; [|discriminate].
  apply bind_Err_inv in H as [H|(s & Hs & H)].
  { left. now apply wrapErr_Err_inv in H. }
  right. exists s. apply wrapErr_Ok_inv in Hs. split; auto.
  apply bind_Err_inv in H as [H|(demand & Hd & H)].
  { left. now apply wrapErr_Err_inv in H. }
  right. exists demand. apply wrapErr_Ok_inv in Hd. split; auto.
  apply bind_Err_inv in H as [H|([m sccs] & Hm & H)].
  - unfold demAndEmissions in H. apply bind_Err_inv in H as [H|(emis & _ & H)].
    + apply wrapErr_Err_inv in H as (e0 & H & ->).
      apply getEmissionsBySCC_Err_inv in H as [(cause & H & ->)|(emisRPC & H & Hne & ->)].
      * now apply NoEmissionsMatrix.
      * now apply EmissionsColumns.
    + apply bind_Err_inv in H as [H|(m0 & _ & H)]; [now apply NewDense_no_Err in H|].
      apply bind_Err_inv in H as [H|(m1 & _ & H)]; [|discriminate].
      apply demLoop_Err_inv in H as (dem & cause & Hin & H & ->).
      now apply (NoConsumption _ _ _ _ _ _ _ dem).
  - destruct (populationAdjust s m (deciles ext)) as [adjusted [[]|e1|p]] eqn:Hadj;
      [|injection H as ->|discriminate].
    + apply bind_Err_inv in H as [H|(logged & _ & H)]; [now apply totalsLoop_no_Err in H|].
      apply bind_Err_inv in H as [H|(r' & _ & H)]; [|discriminate].
      unfold getExposureByPopulation in H.
      apply bind_Err_inv in H as [H|(st & _ & H)]; [|discriminate].
      apply exposureLocals_Err_inv in H as (vec & err & Hc & [->|(-> & [H|(q & [H|H])])]).
      * now apply (NoConcentrations _ _ _ _ _ _ _ vec).
      * now apply NoPopulations.
      * now apply (NoPopulationGrid _ _ _ _ _ _ _ q).
      * destruct H as (grid & Hg & Hne & ->). now apply (GridLength _ _ _ _ _ _ _ q).
    + apply populationAdjust_Err_inv in Hadj as (_ & [(dem & Hin & H)|(Hne & _)]).
      * now apply (NoPopulationCount _ _ _ _ _ _ _ dem).
      * apply demAndEmissions_Ok_inv in Hm as (_ & _ & Hr & _). contradiction.
Qed.

End Pipelines.

(** ** The further theorems at concrete inputs *)

(** X1: the first industry names sector 0 twice, and counts twice. *)
Lemma aggregate_counts_occurrences_witness :
  addends [1; 2]%float [[0; 0]; [1]] 0 = [1; 1]%float /\
  aggregate [1; 2]%float [[0; 0]; [1]] 2 = Ok [2; 2]%float.
Proof.
  split; [reflexivity|].
  rewrite (aggregate_counts_occurrences [1; 2]%float [[0; 0]; [1]] 2);
    [reflexivity | lia | cbn; lia | repeat constructor; lia].
Defined.

(** X2: sector 5 where there is one sector. *)
Lemma aggregate_succeeds_iff_witness :
  aggregate [7]%float [[5]] 1 = Panicked IndexOutOfRange.
Proof.
  apply (aggregate_succeeds_iff [7]%float [[5]] 1); [lia | cbn; lia |].
  cbn [length take]. intros H. apply Forall_cons in H as [H _].
  apply Forall_cons in H as [H _]. lia.
Defined.

(** X3: no consumption data for the group. *)
Lemma getConsumptionBySCC_errors_witness :
  getConsumptionBySCC Faults.noConsumption 1%nat 2015 =
    Err (Wrap (ProviderError "no consumption data")
              "error calculating demographic consumption").
Proof.
  apply (getConsumptionBySCC_errors Faults.noConsumption 1%nat 2015).
  eexists. split; reflexivity.
Defined.

(** X4: three columns for two sectors. *)
Lemma getEmissionsBySCC_errors_witness :
  getEmissionsBySCC Scenario.rpc2mat Scenario.demand Faults.wideEmissions 2015 tt =
    Err (Errorf emissionsColsFormat [2; 3]).
Proof.
  apply (getEmissionsBySCC_errors Scenario.rpc2mat Faults.wideEmissions Scenario.demand
           2015 tt).
  right. eexists. split; [reflexivity|]. split; [cbn; lia|reflexivity].
Defined.

(** X5: three columns for two sectors. *)
Lemma demAndEmissions_errors_witness :
  (exists cause,
     EmissionsMatrix Faults.wideEmissions Scenario.demand 2015 tt "isrm" = Err cause /\
     Wrap (Errorf emissionsColsFormat [2; 3]) "error getting emissions by SCC" =
     Wrap (Wrap cause "error getting emissions matrix") "error getting emissions by SCC") \/
  (exists emisRPC,
     EmissionsMatrix Faults.wideEmissions Scenario.demand 2015 tt "isrm" = Ok emisRPC /\
     mat.cols (Scenario.rpc2mat emisRPC) <> length (SCCs Faults.wideEmissions) /\
     Wrap (Errorf emissionsColsFormat [2; 3]) "error getting emissions by SCC" =
     Wrap (Errorf emissionsColsFormat
             [Z.of_nat (length (SCCs Faults.wideEmissions));
              Z.of_nat (mat.cols (Scenario.rpc2mat emisRPC))])
          "error getting emissions by SCC") \/
  (exists dem cause, dem ∈ [0; 1]%nat /\
     DemographicConsumption Faults.wideEmissions dem 2015 = Err cause /\
     Wrap (Errorf emissionsColsFormat [2; 3]) "error getting emissions by SCC" =
     Wrap (Wrap cause "error calculating demographic consumption")
          "error getting consumption").
Proof.
  apply (demAndEmissions_errors Scenario.rpc2mat Faults.wideEmissions Scenario.demand
           [0; 1]%nat 2015 tt).
  reflexivity.
Defined.

(** X6: three groups, no consumption data for the second. *)
Lemma demAndEmissions_first_failure_witness :
  demAndEmissions Scenario.rpc2mat Faults.noConsumption Scenario.demand
    ([0] ++ 1 :: [2])%nat 2015 tt =
  Err (Wrap (Wrap (ProviderError "no consumption data")
                  "error calculating demographic consumption")
            "error getting consumption").
Proof.
  apply (demAndEmissions_first_failure Scenario.rpc2mat Faults.noConsumption Scenario.demand
           [0]%nat [2]%nat 1%nat 2015 tt [10; 20]%float).
  - vm_compute. reflexivity.
  - repeat constructor. eexists. vm_compute. reflexivity.
  - reflexivity.
Defined.

(** X7: the end-to-end scenario. *)
Lemma demAndEmissions_then_populationAdjust_witness :
  exists m',
    populationAdjust Scenario.pipeline (mat.mkDense 2 2 [10; 20; 30; 20]%float) [0; 1]%nat
      = (m', Ok ()) /\
    rescaled [100; 300] (mat.mkDense 2 2 [10; 20; 30; 20]%float) m'.
Proof.
  apply (demAndEmissions_then_populationAdjust Scenario.rpc2mat Scenario.pipeline
           Scenario.demand [0; 1]%nat 2015 tt (mat.mkDense 2 2 [10; 20; 30; 20]%float)
           (SCCs Scenario.pipeline) [100; 300]).
  - vm_compute. reflexivity.
  - repeat constructor.
Defined.

(** X8: the end-to-end scenario without any group. *)
Lemma demAndEmissions_needs_groups_witness :
  demAndEmissions Scenario.rpc2mat Scenario.pipeline Scenario.demand [] 2015 tt =
    Panicked ErrZeroLength.
Proof.
  apply (demAndEmissions_needs_groups Scenario.rpc2mat Scenario.pipeline Scenario.demand
           [] 2015 tt) with (emis := [10; 20]%float); [reflexivity|].
  vm_compute. reflexivity.
Defined.

(** X9: no population count for the second of two groups. *)
Lemma populationAdjust_first_failure_witness :
  populationAdjust Faults.noCount Scenario.twoByOne ([0] ++ 1 :: [])%nat =
    (Scenario.twoByOne, Err (ProviderError "no population count")).
Proof.
  apply (populationAdjust_first_failure Faults.noCount Scenario.twoByOne [0]%nat []
           1%nat [100] (ProviderError "no population count")).
  - repeat constructor.
  - reflexivity.
Defined.

(** X10: three groups and a matrix of two rows. *)
Lemma populationAdjust_error_leaves_matrix_witness :
  Scenario.twoByOne = Scenario.twoByOne /\
  ((exists dem, dem ∈ [0; 1; 2]%nat /\
      TotalPopulationCount Scenario.pipeline dem 2015 =
        Err (Errorf rowsVsDemsFormat [2; 3])) \/
   (mat.rows Scenario.twoByOne <> length [0; 1; 2]%nat /\
    Errorf rowsVsDemsFormat [2; 3] =
    Errorf rowsVsDemsFormat
      [Z.of_nat (mat.rows Scenario.twoByOne); Z.of_nat (length [0; 1; 2]%nat)])).
Proof.
  apply (populationAdjust_error_leaves_matrix Scenario.pipeline Scenario.twoByOne
           [0; 1; 2]%nat Scenario.twoByOne (Errorf rowsVsDemsFormat [2; 3])).
  vm_compute. reflexivity.
Defined.

(** X11: the populations 100 and 300 of the end-to-end scenario. *)
Lemma populationAdjust_total_exact_witness :
  popCountLoop Scenario.pipeline 0 [0; 1]%nat 0 (replicate 2 0) = Ok (400, [100; 300]).
Proof.
  apply (populationAdjust_total_exact Scenario.pipeline [0; 1]%nat [100; 300]).
  - repeat constructor.
  - repeat constructor; lia.
  - cbn. lia.
Defined.

(** X12: a failed concentration query ends in a panic. *)
Lemma getExposureByPopulation_reads_before_check_witness :
  getExposureByPopulation tt Faults.nilConcentrations 2015 tt Scenario.demand
    = Panicked NilDereference.
Proof.
  apply (getExposureByPopulation_reads_before_check tt Faults.nilConcentrations 2015 tt
           Scenario.demand None (Some (ProviderError "no concentrations")));
    reflexivity.
Defined.

(** X13: a grid of one cell for the second name. *)
Lemma getExposureByPopulation_first_bad_grid_witness :
  getExposureByPopulation tt Faults.shortGrid 2015 tt Scenario.demand =
    Err (Errorf popLenFormat [1; 2]).
Proof.
  destruct (getExposureByPopulation_first_bad_grid tt Faults.shortGrid 2015 tt
              Scenario.demand (mkVector [5; 10]%float) ["A"] [] "B" eq_refl eq_refl)
    as [_ Hlen].
  - intros p Hp. apply list_elem_of_singleton in Hp as ->. eexists. split; reflexivity.
  - apply (Hlen [50]%float); [reflexivity | cbn; lia].
Defined.

(** X14: the end-to-end scenario. *)
Lemma exposure_map_keys_witness :
  exists popTotals exposureByPop,
    exposureLocals tt Scenario.pipeline 2015 tt Scenario.demand
      = Ok (popTotals, exposureByPop) /\
    (forall k, is_Some (popTotals !! k) <-> k ∈ ["A"; "B"]) /\
    (forall k, is_Some (exposureByPop !! k) <-> k ∈ ["A"; "B"] /\ [5; 10]%float <> []).
Proof.
  apply (exposure_map_keys tt Scenario.pipeline 2015 tt Scenario.demand
           (mkVector [5; 10]%float) ["A"; "B"] eq_refl eq_refl).
  intros popName Hin. eexists. split; [reflexivity|].
  cbn. now destruct (String.eqb popName "A").
Defined.

(** X15: group A listed twice. *)
Lemma exposure_counts_repeated_names_witness :
  exists popTotals exposureByPop,
    exposureLocals tt Faults.listedTwice 2015 tt Scenario.demand
      = Ok (popTotals, exposureByPop) /\
    forall popName grid, popName ∈ ["A"; "A"] ->
      PopulationIncidence Faults.listedTwice 2015 popName "NasariACS" "isrm" = Ok grid ->
      readTotal popTotals popName = repeatedSum (timesListed popName ["A"; "A"]) grid /\
      readTotal exposureByPop popName =
        repeatedSum (timesListed popName ["A"; "A"]) (zip_with fmul grid [5; 10]%float) /\
      (NoDup ["A"; "A"] -> readTotal popTotals popName = vecSum grid).
Proof.
  apply (exposure_counts_repeated_names tt Faults.listedTwice 2015 tt Scenario.demand
           (mkVector [5; 10]%float) ["A"; "A"] eq_refl eq_refl).
  intros popName Hin. eexists. split; [reflexivity|].
  cbn. now destruct (String.eqb popName "A").
Defined.

(** Group A listed twice: 600 people and an exposure of 5000, where
    the grid holds 300 people and one listing gives 2500. *)
Example exposure_listed_twice :
  exposureLocals tt Faults.listedTwice 2015 tt Scenario.demand
    = Ok ({["A" := 600%float]}, {["A" := 5000%float]}).
Proof. vm_compute. reflexivity. Qed.

(** X16: the emissions matrix of the end-to-end scenario. *)
Lemma getEmissionsBySCC_dominates_witness :
  exists emis,
    getEmissionsBySCC Scenario.rpc2mat Scenario.demand Scenario.pipeline 2015 tt = Ok emis /\
    forall (i j : nat) (x : float),
      mat.At (mat.mkDense 2 2 [4; 15; 6; 5]%float) i j = Ok x ->
      exists total, emis !! j = Some total /\
        PrimFloat.leb x total = true /\ PrimFloat.leb 0 total = true.
Proof.
  apply (getEmissionsBySCC_dominates Scenario.rpc2mat Scenario.pipeline Scenario.demand
           2015 tt (mat.mkDense 2 2 [4; 15; 6; 5]%float));
    [reflexivity | reflexivity | reflexivity | cbn; lia | repeat constructor].
Defined.

(** X17: three decile values, the first of them [Decile_All]. *)
Lemma deciles_without_all_witness :
  deciles Faults.ext = [0; 1]%nat /\ length (deciles Faults.ext) = 2%nat.
Proof.
  split; [reflexivity|].
  apply (deciles_without_all Faults.ext); cbn; lia.
Defined.

(** X18: the end-to-end scenario run as a whole. *)
Lemma emissionsAndDemTesting_succeeds_witness :
  exists m adjusted,
    hadamard Scenario.pipeline 2015 (deciles Faults.ext) [10; 20]%float m /\
    rescaled [100; 300] m adjusted /\
    emissionsAndDemTestingLocals tt Scenario.rpc2mat Faults.ext (Ok Scenario.pipeline)
      = Ok (adjusted, rowTotals adjusted) /\
    emissionsAndDemTesting tt Scenario.rpc2mat Faults.ext (Ok Scenario.pipeline) = Ok ().
Proof.
  apply (emissionsAndDemTesting_succeeds tt Scenario.rpc2mat Faults.ext Scenario.pipeline
           Scenario.demand (mkVector [5; 10]%float) [10; 20]%float [100; 300] ["A"; "B"]).
  - reflexivity.
  - vm_compute. reflexivity.
  - discriminate.
  - repeat constructor; eexists; vm_compute; reflexivity.
  - repeat constructor.
  - reflexivity.
  - reflexivity.
  - intros popName Hin. eexists. split; [reflexivity|].
    cbn. now destruct (String.eqb popName "A").
Defined.

(** The run of the scenario: the adjusted matrix and the two totals
    that are logged. *)
Example emissionsAndDemTesting_run :
  emissionsAndDemTestingLocals tt Scenario.rpc2mat Faults.ext (Ok Scenario.pipeline) =
    Ok (mat.mkDense 2 2 [40; 80; 30 * (400 / 300); 20 * (400 / 300)]%float,
        [120; 30 * (400 / 300) + 20 * (400 / 300)]%float).
Proof. vm_compute. reflexivity. Qed.

(** X19: the run with no population count for the second group. *)
Lemma emissionsAndDemTesting_errors_witness :
  (exists cause, Ok Faults.noCount = Err cause /\
     ProviderError "no population count" = Wrap cause "error creating EIO server") \/
  exists s, Ok Faults.noCount = Ok s /\
    ((exists cause,
        FinalDemand Faults.ext s (FinalDemandType_AllDemand Faults.ext) 2015
          (Location_Domestic Faults.ext) = Err cause /\
        ProviderError "no population count" = Wrap cause "error getting final demand") \/
     exists demand,
       FinalDemand Faults.ext s (FinalDemandType_AllDemand Faults.ext) 2015
         (Location_Domestic Faults.ext) = Ok demand /\
       stageError tt Scenario.rpc2mat s demand (deciles Faults.ext) 2015
         (Location_Domestic Faults.ext) (ProviderError "no population count")).
Proof.
  apply (emissionsAndDemTesting_errors tt Scenario.rpc2mat Faults.ext (Ok Faults.noCount)
           (ProviderError "no population count")).
  vm_compute. reflexivity.
Defined.

(** X20: two groups without members. *)
Lemma populationAdjust_no_population_witness :
  exists m', populationAdjust Faults.nobody Scenario.twoByOne [0; 1]%nat = (m', Ok ()) /\
    forall i k, [0; 0] !! i = Some 0 -> (k < mat.cols Scenario.twoByOne)%nat ->
      mat.At m' i k = Ok nan.
Proof.
  apply (populationAdjust_no_population Faults.nobody Scenario.twoByOne [0; 1]%nat [0; 0]);
    [repeat constructor | reflexivity | reflexivity | reflexivity].
Defined.

(** The matrix [[1], [2]] after the adjustment for two groups without
    members. *)
Example populationAdjust_nobody :
  populationAdjust Faults.nobody Scenario.twoByOne [0; 1]%nat =
    (mat.mkDense 2 1 [nan; nan], Ok ()).
Proof. vm_compute. reflexivity. Qed.
